(** * Normalizing flows on images: the invertible-layer pipeline

    A shallow embedding of [docs/tutorial_notebooks/tutorial9/NF_image_modeling.py]:
    the mask generators, the coupling, dequantization, squeeze, split and
    invertible 1x1 convolution layers, and the likelihood path of [ImageFlow].

    Tensors are modelled as PyTorch stores them: a shape and the row-major
    (contiguous) list of elements.  Floating-point numbers are modelled by the
    real numbers of the Standard Library, integer tensors by [Z].  Operations
    that raise in PyTorch (shapes that do not broadcast, a [reshape] that
    changes the number of elements, unpacking a wrong number of chunks) return
    [None].  Random draws are read from an explicit stream. *)

From Stdlib Require Import List Arith ZArith Reals Lia Lra Bool Permutation.
From Stdlib Require Import Zfloor Epsilon FunctionalExtensionality.
From HB Require structures.
From mathcomp Require ssreflect ssrfun ssrbool eqtype ssrnat seq choice.
From mathcomp Require fintype bigop finfun perm ssralg matrix.
Import ListNotations.

(** ** Error monad *)

Definition obind {A B : Type} (m : option A) (k : A -> option B) : option B :=
  match m with
  | Some a => k a
  | None => None
  end.

Declare Scope torch_scope.
Delimit Scope torch_scope with torch.
Notation "x <- m ;; k" := (obind m (fun x => k))
  (at level 61, m at next level, right associativity) : torch_scope.
Notation "' p <- m ;; k" := (obind m (fun p => k))
  (at level 61, p pattern, m at next level, right associativity) : torch_scope.
Local Open Scope torch_scope.

(** ** Tensors: shape and contiguous data *)

Record tensor (A : Type) : Type := mkTensor { shape : list nat; data : list A }.
Arguments mkTensor {A} shape data.
Arguments shape {A} t.
Arguments data {A} t.

(** Number of elements of a shape, [np.prod(shape)]. *)
Definition numel (sh : list nat) : nat := fold_right Nat.mul 1 sh.

(** A tensor is well formed when its storage has as many elements as its
    shape says. *)
Definition wf {A : Type} (t : tensor A) : Prop :=
  length (data t) = numel (shape t).

Fixpoint map2 {A B C : Type} (f : A -> B -> C) (l1 : list A) (l2 : list B) : list C :=
  match l1, l2 with
  | a :: l1', b :: l2' => f a b :: map2 f l1' l2'
  | _, _ => []
  end.

(** Row-major index calculus: [unravel sh n] is the multi-index of the flat
    offset [n] in a contiguous tensor of shape [sh], [ravel sh idx] the flat
    offset of a multi-index. *)
Fixpoint unravel (sh : list nat) (n : nat) : list nat :=
  match sh with
  | [] => []
  | _ :: sh' => n / numel sh' :: unravel sh' (n mod numel sh')
  end.

Fixpoint ravel (sh idx : list nat) : nat :=
  match sh, idx with
  | _ :: sh', i :: idx' => i * numel sh' + ravel sh' idx'
  | _, _ => 0
  end.

(** [t[idx]], with [d] read outside the storage. *)
Definition tget {A : Type} (d : A) (t : tensor A) (idx : list nat) : A :=
  nth (ravel (shape t) idx) (data t) d.

(** A tensor of shape [sh] whose element at multi-index [i] is the element of
    [t], seen with shape [src], at multi-index [f i]. *)
Definition gather {A : Type} (d : A) (sh src : list nat)
    (f : list nat -> list nat) (t : tensor A) : tensor A :=
  mkTensor sh
    (map (fun o => nth (ravel src (f (unravel sh o))) (data t) d)
       (seq 0 (numel sh))).

(** [t.reshape(sh)] and [t.view(sh)] of a contiguous tensor: the same storage
    under a new shape; an error when the number of elements differs. *)
Definition reshape {A : Type} (t : tensor A) (sh : list nat) : option (tensor A) :=
  if numel sh =? numel (shape t) then Some (mkTensor sh (data t)) else None.

(** Position of [j] in [dims] (the length of [dims] when absent). *)
Fixpoint index_of (j : nat) (dims : list nat) : nat :=
  match dims with
  | [] => 0
  | k :: dims' => if k =? j then 0 else S (index_of j dims')
  end.

Definition is_perm_of_range (dims : list nat) : bool :=
  forallb (fun j => existsb (Nat.eqb j) dims) (seq 0 (length dims)).

(** [t.permute(dims)]: output dimension [k] is input dimension [dims[k]], so
    the input index at position [j] is the output index at the position of
    [j] in [dims]. *)
Definition permute {A : Type} (d : A) (t : tensor A) (dims : list nat) : option (tensor A) :=
  if (length dims =? length (shape t)) && is_perm_of_range dims then
    Some (gather d (map (fun k => nth k (shape t) 1) dims) (shape t)
            (fun idx => map (fun j => nth (index_of j dims) idx 0)
                          (seq 0 (length dims)))
            t)
  else None.

(** Broadcasting.  Shapes are aligned on the right and padded with 1 on the
    left; two dimensions are compatible when equal or when one of them is 1. *)
Definition pad_shape (n : nat) (sh : list nat) : list nat :=
  repeat 1 (n - length sh) ++ sh.

Fixpoint broadcast_dims (s1 s2 : list nat) : option (list nat) :=
  match s1, s2 with
  | [], [] => Some []
  | d1 :: r1, d2 :: r2 =>
      r <- broadcast_dims r1 r2 ;;
      if d1 =? d2 then Some (d1 :: r)
      else if d1 =? 1 then Some (d2 :: r)
      else if d2 =? 1 then Some (d1 :: r)
      else None
  | _, _ => None
  end.

Definition broadcast_shapes (s1 s2 : list nat) : option (list nat) :=
  let n := Nat.max (length s1) (length s2) in
  broadcast_dims (pad_shape n s1) (pad_shape n s2).

(** [t.expand(sh)]: a dimension of size 1 is read at index 0. *)
Definition expand {A : Type} (d : A) (t : tensor A) (sh : list nat) : tensor A :=
  let src := pad_shape (length sh) (shape t) in
  gather d sh src (fun idx => map2 (fun ds i => if ds =? 1 then 0 else i) src idx) t.

Definition tmap {A B : Type} (f : A -> B) (t : tensor A) : tensor B :=
  mkTensor (shape t) (map f (data t)).

(** Elementwise binary operation with broadcasting. *)
Definition tbin {A : Type} (d : A) (f : A -> A -> A) (a b : tensor A) : option (tensor A) :=
  sh <- broadcast_shapes (shape a) (shape b) ;;
  Some (mkTensor sh (map2 f (data (expand d a sh)) (data (expand d b sh)))).

(** In-place operation [a op= b]: the broadcast shape must be the shape of
    [a]. *)
Definition tbin_inplace {A : Type} (d : A) (f : A -> A -> A) (a b : tensor A)
    : option (tensor A) :=
  sh <- broadcast_shapes (shape a) (shape b) ;;
  if list_eq_dec Nat.eq_dec sh (shape a) then
    Some (mkTensor sh (map2 f (data a) (data (expand d b sh))))
  else None.

(** The [b]-th slice along dimension 0 of storage made of slices of [n]
    elements. *)
Definition slice0 {A : Type} (n : nat) (l : list A) (b : nat) : list A :=
  firstn n (skipn (b * n) l).

(** [a, b = t.chunk(2, dim=1)].  [torch.chunk] cuts dimension 1 in pieces of
    [ceil(C / 2)] channels: a tensor with one channel gives a single chunk,
    and unpacking it into two names raises. *)
Definition chunk2_dim1 {A : Type} (t : tensor A) : option (tensor A * tensor A) :=
  match shape t with
  | B :: C :: rest =>
      if C =? 1 then None
      else
        let k := (C + 1) / 2 in
        let n := numel rest in
        let blocks := map (slice0 (C * n) (data t)) (seq 0 B) in
        Some (mkTensor (B :: k :: rest) (concat (map (firstn (k * n)) blocks)),
              mkTensor (B :: (C - k) :: rest) (concat (map (skipn (k * n)) blocks)))
  | _ => None
  end.

(** [torch.cat([a, b], dim=1)]: all other dimensions must agree. *)
Definition cat_dim1 {A : Type} (a b : tensor A) : option (tensor A) :=
  match shape a, shape b with
  | B1 :: C1 :: r1, B2 :: C2 :: r2 =>
      if (B1 =? B2) && (if list_eq_dec Nat.eq_dec r1 r2 then true else false) then
        let n := numel r1 in
        Some (mkTensor (B1 :: (C1 + C2) :: r1)
                (concat (map (fun i => slice0 (C1 * n) (data a) i
                                         ++ slice0 (C2 * n) (data b) i)
                           (seq 0 B1))))
      else None
  | _, _ => None
  end.

(** [torch.cat([a, b])] of one-dimensional tensors. *)
Definition cat_dim0 {A : Type} (a b : list A) : tensor A :=
  mkTensor [length a + length b] (a ++ b).

(** ** Real-valued tensors *)

Local Open Scope R_scope.

Definition Rsum (l : list R) : R := fold_right Rplus 0 l.

Definition tadd : tensor R -> tensor R -> option (tensor R) := tbin 0 Rplus.
Definition tsub : tensor R -> tensor R -> option (tensor R) := tbin 0 Rminus.
Definition tmul : tensor R -> tensor R -> option (tensor R) := tbin 0 Rmult.
Definition tdiv : tensor R -> tensor R -> option (tensor R) := tbin 0 Rdiv.
Definition tiadd : tensor R -> tensor R -> option (tensor R) := tbin_inplace 0 Rplus.
Definition tisub : tensor R -> tensor R -> option (tensor R) := tbin_inplace 0 Rminus.

(** [t.sum(dim=[1,2,3])] of a four-dimensional tensor: one sum per batch
    element.  (A tensor of lower rank raises; higher ranks are not used.) *)
Definition sum_dim123 (t : tensor R) : option (tensor R) :=
  match shape t with
  | [B; C; H; W] =>
      Some (mkTensor [B] (map (fun b => Rsum (slice0 (C * (H * (W * 1))) (data t) b))
                            (seq 0 B)))
  | _ => None
  end.

Definition zeros (sh : list nat) : tensor R := mkTensor sh (repeat 0 (numel sh)).

(** [np.prod(z.shape[1:])]. *)
Definition prod_shape_tail {A : Type} (t : tensor A) : nat := numel (tl (shape t)).

(** [torch.sigmoid], [F.softplus] (which is the identity above its threshold
    20) and the standard normal prior. *)
Definition torch_sigmoid (x : R) : R := 1 / (1 + exp (- x)).

Definition softplus (x : R) : R :=
  if Rlt_dec 20 x then x else ln (1 + exp x).

Record Normal : Type := mkNormal { loc : R; scale : R }.

Definition log_prob (p : Normal) (x : R) : R :=
  - ((x - loc p) * (x - loc p)) / (2 * (scale p * scale p))
  - ln (scale p) - ln (sqrt (2 * PI)).

(** Integer and floating-point tensors, and the casts between them. *)
Inductive Tensor : Type :=
| IntTensor (t : tensor Z)
| FloatTensor (t : tensor R).

Definition Tshape (z : Tensor) : list nat :=
  match z with
  | IntTensor t => shape t
  | FloatTensor t => shape t
  end.

Definition to_float32 (z : Tensor) : tensor R :=
  match z with
  | IntTensor t => tmap IZR t
  | FloatTensor t => t
  end.

(** Conversion of a float to an integer truncates toward zero. *)
Definition Ztrunc (x : R) : Z := if Rlt_dec x 0 then Zceil x else Zfloor x.

Definition to_int32 (t : tensor R) : tensor Z := tmap Ztrunc t.

Definition clamp (lo hi x : R) : R := Rmin (Rmax x lo) hi.

(** ** Random draws

    The realization of the random number generator is a stream of reals;
    a draw of [n] numbers reads the first [n] and leaves the rest. *)

Definition rng : Type := nat -> R.

Definition M (A : Type) : Type := rng -> option (A * rng).

Definition ret {A : Type} (a : A) : M A := fun g => Some (a, g).

Definition bind {A B : Type} (m : M A) (k : A -> M B) : M B :=
  fun g => match m g with
           | Some (a, g') => k a g'
           | None => None
           end.

Definition lift {A : Type} (o : option A) : M A :=
  fun g => match o with
           | Some a => Some (a, g)
           | None => None
           end.

Declare Scope rand_scope.
Delimit Scope rand_scope with rand.
Notation "x <~ m ;; k" := (bind m (fun x => k))
  (at level 61, m at next level, right associativity) : rand_scope.
Notation "' p <~ m ;; k" := (bind m (fun p => k))
  (at level 61, p pattern, m at next level, right associativity) : rand_scope.

Definition draw (sh : list nat) : M (tensor R) :=
  fun g => Some (mkTensor sh (map g (seq 0 (numel sh))), fun i => g (numel sh + i)%nat).

(** [torch.rand_like(z)]: uniform draws, of the shape of [z]. *)
Definition rand_like (z : tensor R) : M (tensor R) := draw (shape z).

(** [prior.sample(sample_shape=sh)]: normal draws of shape [sh]. *)
Definition sample (p : Normal) (sh : list nat) : M (tensor R) :=
  fun g => match draw sh g with
           | Some (e, g') => Some (tmap (fun x => loc p + scale p * x) e, g')
           | None => None
           end.

(** ** Mask generators *)

Definition create_channel_mask (c_in : nat) (invert : bool) : option (tensor R) :=
  let mask := cat_dim0 (repeat 1 (c_in / 2)) (repeat 0 (c_in - c_in / 2)) in
  mask <- reshape mask [1; c_in; 1; 1]%nat ;;
  let mask := if invert then tmap (fun m => 1 - m) mask else mask in
  Some mask.

(** ** Coupling layer *)

Module CouplingLayer.

Record t : Type := mk {
  mask : tensor R;
  network : tensor R -> tensor R;
  scaling_factor : tensor R
}.

Definition forward (self : t) (z ldj : tensor R) (reverse : bool)
    (orig_img : option (tensor R)) : option (tensor R * tensor R) :=
  z_in <- tmul z (mask self) ;;
  nn_in <- match orig_img with
           | None => Some z_in
           | Some img => cat_dim1 z_in img
           end ;;
  let nn_out := network self nn_in in
  '(s, t) <- chunk2_dim1 nn_out ;;
  (* Stabilize scaling output *)
  s_fac <- reshape (tmap exp (scaling_factor self))
             [1; numel (shape (scaling_factor self)); 1; 1]%nat ;;
  q <- tdiv s s_fac ;;
  s <- tmul (tmap tanh q) s_fac ;;
  let one_minus_mask := tmap (fun m => 1 - m) (mask self) in
  s <- tmul s one_minus_mask ;;
  t <- tmul t one_minus_mask ;;
  if negb reverse then
    zt <- tadd z t ;;
    z <- tmul zt (tmap exp s) ;;
    ssum <- sum_dim123 s ;;
    ldj <- tiadd ldj ssum ;;
    Some (z, ldj)
  else
    ze <- tmul z (tmap exp (tmap Ropp s)) ;;
    z <- tsub ze t ;;
    ssum <- sum_dim123 s ;;
    ldj <- tisub ldj ssum ;;
    Some (z, ldj).

(** [CouplingLayer(network, mask, c_in)]: the scaling factor starts as
    [torch.zeros(c_in)]. *)
Definition init (network : tensor R -> tensor R) (mask : tensor R) (c_in : nat) : t :=
  mk mask network (zeros [c_in]).

End CouplingLayer.

(** ** Dequantization

    [forward] calls [self.dequant], which the subclass
    [VariationalDequantization] overrides: the object carries its [alpha] and
    the [dequant] method it was built with. *)

Module Dequantization.

Record t : Type := mk {
  alpha : R;
  dequant_method : Tensor -> tensor R -> M (tensor R * tensor R)
}.

Definition sigmoid (alpha : R) (z ldj : tensor R) (reverse : bool)
    : option (tensor R * tensor R) :=
  if negb reverse then
    s <- sum_dim123 (tmap (fun x => - x - 2 * softplus (- x)) z) ;;
    ldj <- tiadd ldj s ;;
    let z := tmap torch_sigmoid z in
    Some (z, ldj)
  else
    let z := tmap (fun x => x * (1 - alpha) + 0.5 * alpha) z in
    let ldj := tmap (fun l => l + ln (1 - alpha) * INR (prod_shape_tail z)) ldj in
    s <- sum_dim123 (tmap (fun x => - ln x - ln (1 - x)) z) ;;
    ldj <- tiadd ldj s ;;
    let z := tmap (fun x => ln x - ln (1 - x)) z in
    Some (z, ldj).

Definition dequant (z : Tensor) (ldj : tensor R) : M (tensor R * tensor R) :=
  (let z := to_float32 z in
   noise <~ rand_like z ;;
   z <~ lift (tadd z noise) ;;
   let z := tmap (fun x => x / 256) z in
   let ldj := tmap (fun l => l - ln 256 * INR (prod_shape_tail z)) ldj in
   ret (z, ldj))%rand.

(** In the sampling direction the input is a float tensor (an integer one
    makes [F.softplus] raise). *)
Definition forward (self : t) (z : Tensor) (ldj : tensor R) (reverse : bool)
    : M (Tensor * tensor R) :=
  (if negb reverse then
     '(z, ldj) <~ dequant_method self z ldj ;;
     '(z, ldj) <~ lift (sigmoid (alpha self) z ldj true) ;;
     ret (FloatTensor z, ldj)
   else
     match z with
     | IntTensor _ => lift None
     | FloatTensor z =>
         '(z, ldj) <~ lift (sigmoid (alpha self) z ldj false) ;;
         let z := tmap (fun x => x * 256) z in
         let z := to_int32 (tmap (fun x => clamp 0 255 (IZR (Zfloor x))) z) in
         ret (IntTensor z, ldj)
     end)%rand.

(** [Dequantization(alpha)]. *)
Definition init (alpha : R) : t := mk alpha dequant.

End Dequantization.

Module VariationalDequantization.

Fixpoint run_var_flows (flows : list CouplingLayer.t) (img deq_noise ldj : tensor R)
    : option (tensor R * tensor R) :=
  match flows with
  | [] => Some (deq_noise, ldj)
  | flow :: flows' =>
      '(deq_noise, ldj) <- CouplingLayer.forward flow deq_noise ldj false (Some img) ;;
      run_var_flows flows' img deq_noise ldj
  end.

Definition dequant (var_flows : list CouplingLayer.t) (alpha : R)
    (z : Tensor) (ldj : tensor R) : M (tensor R * tensor R) :=
  (let z := to_float32 z in
   let img := tmap (fun x => x / 255 * 2 - 1) z in
   deq_noise <~ rand_like z ;;
   '(deq_noise, ldj) <~ lift (Dequantization.sigmoid alpha deq_noise ldj true) ;;
   '(deq_noise, ldj) <~ lift (run_var_flows var_flows img deq_noise ldj) ;;
   '(deq_noise, ldj) <~ lift (Dequantization.sigmoid alpha deq_noise ldj false) ;;
   zn <~ lift (tadd z deq_noise) ;;
   let z := tmap (fun x => x / 256) zn in
   let ldj := tmap (fun l => l - ln 256 * INR (prod_shape_tail z)) ldj in
   ret (z, ldj))%rand.

(** [VariationalDequantization(var_flows, alpha)]: the base class with
    [dequant] overridden; [forward] and [sigmoid] are inherited. *)
Definition init (var_flows : list CouplingLayer.t) (alpha : R) : Dequantization.t :=
  Dequantization.mk alpha (dequant var_flows alpha).

Definition forward (var_flows : list CouplingLayer.t) (alpha : R)
    : Tensor -> tensor R -> bool -> M (Tensor * tensor R) :=
  Dequantization.forward (init var_flows alpha).

End VariationalDequantization.

(** ** Squeeze and split *)

Module SqueezeFlow.

Definition forward {A L : Type} (d : A) (z : tensor A) (ldj : L) (reverse : bool)
    : option (tensor A * L) :=
  match shape z with
  | [B; C; H; W] =>
      if negb reverse then
        z <- reshape z [B; C; H / 2; 2; W / 2; 2]%nat ;;
        z <- permute d z [0; 1; 3; 5; 2; 4]%nat ;;
        z <- reshape z [B; 4 * C; H / 2; W / 2]%nat ;;
        Some (z, ldj)
      else
        z <- reshape z [B; C / 4; 2; 2; H; W]%nat ;;
        z <- permute d z [0; 1; 4; 2; 5; 3]%nat ;;
        z <- reshape z [B; C / 4; H * 2; W * 2]%nat ;;
        Some (z, ldj)
  | _ => None
  end.

End SqueezeFlow.

Module SplitFlow.

Record t : Type := mk { prior : Normal }.

Definition init : t := mk (mkNormal 0 1).

Definition forward (self : t) (z ldj : tensor R) (reverse : bool)
    : M (tensor R * tensor R) :=
  (if negb reverse then
     '(z, z_split) <~ lift (chunk2_dim1 z) ;;
     lp <~ lift (sum_dim123 (tmap (log_prob (prior self)) z_split)) ;;
     ldj <~ lift (tiadd ldj lp) ;;
     ret (z, ldj)
   else
     z_split <~ sample (prior self) (shape z) ;;
     z <~ lift (cat_dim1 z z_split) ;;
     lp <~ lift (sum_dim123 (tmap (log_prob (prior self)) z_split)) ;;
     ldj <~ lift (tisub ldj lp) ;;
     ret (z, ldj))%rand.

End SplitFlow.

(** ** The flow pipeline *)

(** A layer of the pipeline is anything callable as
    [flow(z, ldj, reverse=...)]. *)
Definition Flow : Type := Tensor -> tensor R -> bool -> M (Tensor * tensor R).

(** A float operand promotes an integer tensor to float. *)
Definition CouplingLayer_flow (layer : CouplingLayer.t) : Flow :=
  fun z ldj reverse =>
    ('(z, ldj) <~ lift (CouplingLayer.forward layer (to_float32 z) ldj reverse None) ;;
     ret (FloatTensor z, ldj))%rand.

Definition SqueezeFlow_flow : Flow :=
  fun z ldj reverse =>
    match z with
    | IntTensor t =>
        ('(z, ldj) <~ lift (SqueezeFlow.forward 0%Z t ldj reverse) ;;
         ret (IntTensor z, ldj))%rand
    | FloatTensor t =>
        ('(z, ldj) <~ lift (SqueezeFlow.forward 0 t ldj reverse) ;;
         ret (FloatTensor z, ldj))%rand
    end.

Definition SplitFlow_flow (layer : SplitFlow.t) : Flow :=
  fun z ldj reverse =>
    ('(z, ldj) <~ SplitFlow.forward layer (to_float32 z) ldj reverse ;;
     ret (FloatTensor z, ldj))%rand.

Module ImageFlow.

Record t : Type := mk { prior : Normal; flows : list Flow }.

Definition init (flows : list Flow) : t := mk (mkNormal 0 1) flows.

Fixpoint run_flows (flows : list Flow) (z : Tensor) (ldj : tensor R)
    : M (Tensor * tensor R) :=
  match flows with
  | [] => ret (z, ldj)
  | flow :: flows' =>
      ('(z, ldj) <~ flow z ldj false ;;
       run_flows flows' z ldj)%rand
  end.

Definition forward (self : t) (imgs : Tensor) (return_nll : bool) : M (tensor R) :=
  (let z := imgs in
   B <~ lift (hd_error (Tshape z)) ;;
   let ldj := zeros [B] in
   '(z, ldj) <~ run_flows (flows self) z ldj ;;
   log_pz <~ lift (sum_dim123 (tmap (log_prob (prior self)) (to_float32 z))) ;;
   log_px <~ lift (tadd ldj log_pz) ;;
   let nll := tmap Ropp log_px in
   if return_nll then ret nll
   else
     (* Calculating bits per dimension *)
     let bpd := tmap (fun x => x * (ln (exp 1) / ln 2) / INR (numel (tl (Tshape imgs)))) nll in
     ret bpd)%rand.

(** The loop of [sample], over the flows already reversed. *)
Fixpoint run_flows_reverse (flows : list Flow) (z : Tensor) (ldj : tensor R)
    : M (Tensor * tensor R) :=
  match flows with
  | [] => ret (z, ldj)
  | flow :: flows' =>
      ('(z, ldj) <~ flow z ldj true ;;
       run_flows_reverse flows' z ldj)%rand
  end.

Definition sample (self : t) (img_shape : list nat) : M Tensor :=
  (z <~ sample (prior self) img_shape ;;
   B <~ lift (hd_error img_shape) ;;
   let ldj := zeros [B] in
   '(z, ldj) <~ run_flows_reverse (rev (flows self)) (FloatTensor z) ldj ;;
   ret z)%rand.

End ImageFlow.

(** ** Data preparation *)

(** [discretize(sample)]: intensities in [[0, 1]] to integer pixel values. *)
Definition discretize (sample : tensor R) : tensor Z :=
  to_int32 (tmap (fun x => x * 255) sample).

(** ** The checkerboard mask *)

(** 32-bit integers wrap around. *)
Definition wrap_int32 (x : Z) : Z :=
  ((x + 2147483648) mod 4294967296 - 2147483648)%Z.

(** [torch.arange(n, dtype=torch.int32)]. *)
Definition arange (n : nat) : tensor Z :=
  mkTensor [n] (map (fun i => wrap_int32 (Z.of_nat i)) (seq 0 n)).

(** [torch.meshgrid(x, y)] of one-dimensional tensors, with the default
    matrix indexing: [xx[i, j] = x[i]] and [yy[i, j] = y[j]]. *)
Definition meshgrid {A : Type} (x y : tensor A) : tensor A * tensor A :=
  let h := numel (shape x) in
  let w := numel (shape y) in
  (mkTensor [h; w] (concat (map (fun a => repeat a w) (data x))),
   mkTensor [h; w] (concat (repeat (data y) h))).

(** [torch.fmod] on integers is the remainder of the truncating division. *)
Definition create_checkerboard_mask (h w : nat) (invert : bool) : option (tensor R) :=
  let x := arange h in
  let y := arange w in
  let '(xx, yy) := meshgrid x y in
  s <- tbin 0%Z (fun a b => wrap_int32 (a + b)) xx yy ;;
  let mask := tmap (fun v => Z.rem v 2) s in
  mask <- reshape (tmap IZR mask) [1; 1; h; w]%nat ;;
  let mask := if invert then tmap (fun m => 1 - m) mask else mask in
  Some mask.

(** ** Evaluation with importance samples *)

(** [torch.stack(ts, dim=-1)]: tensors of one shape, stacked along a new
    last dimension; an empty list and tensors of different shapes raise. *)
Definition stack_last {A : Type} (d : A) (ts : list (tensor A)) : option (tensor A) :=
  match ts with
  | [] => None
  | t0 :: _ =>
      if forallb (fun t => if list_eq_dec Nat.eq_dec (shape t) (shape t0) then true else false) ts
      then
        Some (mkTensor (shape t0 ++ [length ts])
                (concat (map (fun o => map (fun t => nth o (data t) d) ts)
                           (seq 0 (numel (shape t0))))))
      else None
  end.

(** [torch.logsumexp(t, dim=-1)]: the logarithm of the sum of the
    exponentials along the last dimension (of a scalar: of the scalar). *)
Definition logsumexp_last (t : tensor R) : tensor R :=
  match rev (shape t) with
  | [] => tmap (fun x => ln (exp x)) t
  | K :: front =>
      mkTensor (rev front)
        (map (fun o => ln (Rsum (map exp (slice0 K (data t) o))))
           (seq 0 (numel (rev front))))
  end.

(** The importance-weighted value of [test_flow], from the sampled values:
    [torch.logsumexp(torch.stack(samples, dim=-1), dim=-1) -
    np.log(import_samples)]. *)
Definition importance_nll (samples : list (tensor R)) (import_samples : nat)
    : option (tensor R) :=
  img_nll <- stack_last 0 samples ;;
  let img_nll := logsumexp_last img_nll in
  Some (tmap (fun x => x - ln (INR import_samples)) img_nll).

(** The inner loop of [test_flow]: [import_samples] evaluations of the
    batch, each with noise of its own. *)
Fixpoint draw_samples (flow : ImageFlow.t) (imgs : Tensor) (import_samples : nat)
    : M (list (tensor R)) :=
  match import_samples with
  | O => ret []
  | S k =>
      (img_nll <~ ImageFlow.forward flow imgs true ;;
       samples <~ draw_samples flow imgs k ;;
       ret (img_nll :: samples))%rand
  end.

(** The body of the loop over the batches: the sum of the bits per
    dimension of the batch, and the number of its images. *)
Definition test_batch (flow : ImageFlow.t) (imgs : Tensor) (import_samples : nat)
    : M (R * nat) :=
  (samples <~ draw_samples flow imgs import_samples ;;
   img_nll <~ lift (importance_nll samples import_samples) ;;
   let img_bpd :=
     tmap (fun x => x * (ln (exp 1) / ln 2) / INR (numel (tl (Tshape imgs)))) img_nll in
   n <~ lift (hd_error (shape img_bpd)) ;;
   ret (Rsum (data img_bpd), n))%rand.

Fixpoint test_loop {Label : Type} (flow : ImageFlow.t)
    (data_loader : list (Tensor * Label)) (import_samples : nat)
    (test_bpd : R) (counter : nat) : M (R * nat) :=
  match data_loader with
  | [] => ret (test_bpd, counter)
  | (imgs, _) :: data_loader' =>
      ('(s, n) <~ test_batch flow imgs import_samples ;;
       test_loop flow data_loader' import_samples (test_bpd + s) (counter + n)%nat)%rand
  end.

(** [test_flow(flow, data_loader, import_samples)]; dividing by a zero
    counter raises. *)
Definition test_flow {Label : Type} (flow : ImageFlow.t)
    (data_loader : list (Tensor * Label)) (import_samples : nat) : M R :=
  ('(test_bpd, counter) <~ test_loop flow data_loader import_samples 0 0%nat ;;
   if (counter =? 0)%nat then lift None
   else ret (test_bpd / INR counter))%rand.

(** ** The simple flow *)

(** A list comprehension whose elements may raise. *)
Fixpoint collect {A B : Type} (f : A -> option B) (l : list A) : option (list B) :=
  match l with
  | [] => Some []
  | a :: l' =>
      b <- f a ;;
      bs <- collect f l' ;;
      Some (b :: bs)
  end.

(** [create_simple_flow(use_vardeq)].  The constructor of [ConvNet] draws the
    weights of every network it builds: [vardeq_net i] and [net i] stand for
    the networks of the [i]-th coupling layer of the dequantization and of
    the flow.  The default [alpha] of the dequantization layers is
    [1e-5]. *)
Definition create_simple_flow (vardeq_net net : nat -> tensor R -> tensor R)
    (use_vardeq : bool) : option ImageFlow.t :=
  dequant_layer <-
    (if use_vardeq then
       vardeq_layers <-
         collect (fun i =>
                    mask <- create_checkerboard_mask 28 28 (i mod 2 =? 1)%nat ;;
                    Some (CouplingLayer.init (vardeq_net i) mask 1))
           (seq 0 1) ;;
       Some (VariationalDequantization.forward vardeq_layers (1 / 100000))
     else Some (Dequantization.forward (Dequantization.init (1 / 100000)))) ;;
  coupling_layers <-
    collect (fun i =>
               mask <- create_checkerboard_mask 28 28 (i mod 2 =? 1)%nat ;;
               Some (CouplingLayer_flow (CouplingLayer.init (net i) mask 1)))
      (seq 0 8) ;;
  Some (ImageFlow.init (dequant_layer :: coupling_layers)).

(** ** The fully connected network *)

(** [nn.Linear(in_features, out_features)], applied to the two-dimensional
    inputs that [LinearNet] gives it: [y = x W^T + b], with [W] of shape
    [(out_features, in_features)]; an input whose rows do not have
    [in_features] elements raises. *)
Module Linear.

Record t : Type := mk {
  in_features : nat;
  out_features : nat;
  weight : tensor R;
  bias : tensor R
}.

Definition forward (self : t) (x : tensor R) : option (tensor R) :=
  match shape x with
  | [B; n] =>
      if (n =? in_features self)%nat then
        Some (mkTensor [B; out_features self]%nat
                (concat
                   (map (fun b =>
                           map (fun o =>
                                  Rsum (map2 Rmult (slice0 n (data x) b)
                                          (slice0 n (data (weight self)) o))
                                  + nth o (data (bias self)) 0)
                             (seq 0 (out_features self)))
                      (seq 0 B))))
      else None
  | _ => None
  end.

End Linear.

Definition relu (x : R) : R := Rmax 0 x.

(** The dimension written [-1] in [view] and [reshape]: it is inferred from
    the number of elements, which the other dimensions must divide, and
    cannot be inferred when they multiply to zero. *)
Definition infer_dim (total known : nat) : option nat :=
  if (known =? 0)%nat then None
  else if (total mod known =? 0)%nat then Some (total / known)%nat
  else None.

Module LinearNet.

Record t : Type := mk { fc1 : Linear.t; fc2 : Linear.t; fc3 : Linear.t }.

(** [LinearNet(n_hidden)]: the first two layers keep the weights they are
    built with, the weight and the bias of the last one are set to zero. *)
Definition init (n_hidden : nat) (w1 b1 w2 b2 : tensor R) : t :=
  mk (Linear.mk (28 * 28) n_hidden w1 b1)
     (Linear.mk n_hidden n_hidden w2 b2)
     (Linear.mk n_hidden (28 * 28 * 2)
        (zeros [28 * 28 * 2; n_hidden]%nat) (zeros [28 * 28 * 2]%nat)).

Definition forward (self : t) (x : tensor R) : option (tensor R) :=
  match shape x with
  | B :: _ :: h :: w :: _ =>
      n <- infer_dim (numel (shape x)) B ;;
      x <- reshape x [B; n]%nat ;;
      out <- Linear.forward (fc1 self) x ;;
      let out := tmap relu out in
      out <- Linear.forward (fc2 self) out ;;
      let out := tmap relu out in
      out <- Linear.forward (fc3 self) out ;;
      m <- infer_dim (numel (shape out)) (2 * h * w)%nat ;;
      reshape out [m; 2; h; w]%nat
  | _ => None
  end.

End LinearNet.

(** * Invertible 1x1 convolutions *)

Module ChannelMixing.

Import HB.structures.
Import ssreflect ssrfun ssrbool eqtype ssrnat seq choice fintype bigop finfun perm.
Import ssralg matrix.
Import GRing.Theory.

Local Open Scope ring_scope.

(** The real numbers of the Standard Library as a commutative ring. *)

Definition Req_bool (x y : R) : bool := if Req_dec_T x y then true else false.

Lemma Req_boolP : Equality.axiom Req_bool.
Proof. by move=> x y; rewrite /Req_bool; case: (Req_dec_T x y) => h; constructor. Qed.

HB.instance Definition _ := hasDecEq.Build R Req_boolP.

Definition Rfind (P : pred R) (n : nat) : option R :=
  let x := epsilon (inhabits R0) (fun y => P y = true) in
  if P x then Some x else None.

Lemma Rfind_some (P : pred R) (n : nat) (x : R) : Rfind P n = Some x -> P x.
Proof. by rewrite /Rfind; case e: (P _) => // -[<-]. Qed.

Lemma Rfind_ex (P : pred R) : (exists x, P x) -> exists n, Rfind P n.
Proof.
move=> [x px]; exists 0%N; rewrite /Rfind.
have e : P (epsilon (inhabits R0) (fun y => P y = true)) = true.
  by apply: (@epsilon_spec R (inhabits R0) (fun y => P y = true)); exists x.
by rewrite e.
Qed.

Lemma Rfind_ext (P Q : pred R) : P =1 Q -> Rfind P =1 Rfind Q.
Proof. by move=> e n; have -> : P = Q by apply: functional_extensionality. Qed.

HB.instance Definition _ := hasChoice.Build R Rfind_some Rfind_ex Rfind_ext.

Lemma RplusA : associative Rplus.
Proof. by move=> x y z; rewrite Rplus_assoc. Qed.

HB.instance Definition _ :=
  GRing.isZmodule.Build R RplusA Rplus_comm Rplus_0_l Rplus_opp_l.

Lemma RmultA : associative Rmult.
Proof. by move=> x y z; rewrite Rmult_assoc. Qed.

Lemma Rmult_plus_distr : left_distributive Rmult Rplus.
Proof. by move=> x y z; rewrite Rmult_plus_distr_r. Qed.

Lemma R1_neq0 : R1 != R0.
Proof. by apply/eqP; exact: R1_neq_R0. Qed.

HB.instance Definition _ :=
  GRing.Zmodule_isComNzRing.Build R RmultA Rmult_comm Rmult_1_l Rmult_plus_distr R1_neq0.

(** A batch of [B] images with [c] channels of [H] by [W] pixels. *)
Definition tensor4 (B c H W : nat) : Type := 'I_B -> 'I_c -> 'I_H -> 'I_W -> R.

(** [F.conv2d(z, w[:, :, None, None])]: a 1x1 convolution mixes the channels
    of every pixel with the matrix [w]. *)
Definition conv2d_1x1 {B c H W : nat} (z : tensor4 B c H W) (w : 'M[R]_c) : tensor4 B c H W :=
  fun b o h x => \sum_(i < c) w o i * z b i h x.

(** [torch.inverse(w)], which raises on a singular matrix. *)
Definition torch_inverse {c : nat} (w : 'M[R]_c) : option 'M[R]_c :=
  if \det w == 0 then None else Some (Rinv (\det w) *: \adj w).

(** [torch.slogdet(w)[1]], the logarithm of the absolute value of the
    determinant. *)
Definition slogdet_logabs {c : nat} (w : 'M[R]_c) : R := ln (Rabs (\det w)).

(** Elementwise product, [torch.diag] of a vector, and the constants
    [np.tril(np.ones((c, c)), -1)] and [np.eye(c)] of the constructor. *)
Definition hadamard {c : nat} (a b : 'M[R]_c) : 'M[R]_c := \matrix_(i, j) (a i j * b i j).

Definition torch_diag {c : nat} (v : 'rV[R]_c) : 'M[R]_c :=
  \matrix_(i, j) (if i == j then v 0 i else 0).

Definition tril_ones {c : nat} : 'M[R]_c := \matrix_(i, j) (if (j < i)%N then 1 else 0).

Definition eye {c : nat} : 'M[R]_c := \matrix_(i, j) (if i == j then 1 else 0).

Module Invertible1x1Conv.

Definition forward {B c H W : nat} (weight : 'M[R]_c) (z : tensor4 B c H W)
    (ldj : 'I_B -> R) (reverse : bool) : option (tensor4 B c H W * ('I_B -> R)) :=
  let weight_ldj := slogdet_logabs weight in
  let weight_ldj := weight_ldj * H%:R * W%:R in
  if ~~ reverse then
    let w := weight in
    Some (conv2d_1x1 z w, fun b => ldj b + weight_ldj)
  else
    match torch_inverse weight with
    | Some w => Some (conv2d_1x1 z w, fun b => ldj b - weight_ldj)
    | None => None
    end.

End Invertible1x1Conv.

Module Invertible1x1ConvLU.

Record t (c : nat) : Type := mk {
  p : 'M[R]_c;
  sign_s : 'rV[R]_c;
  l : 'M[R]_c;
  log_s : 'rV[R]_c;
  u : 'M[R]_c;
  l_mask : 'M[R]_c;
  eye_ : 'M[R]_c
}.

Arguments mk {c} p sign_s l log_s u l_mask eye_ : rename.
Arguments p {c} self : rename.
Arguments sign_s {c} self : rename.
Arguments l {c} self : rename.
Arguments log_s {c} self : rename.
Arguments u {c} self : rename.
Arguments l_mask {c} self : rename.
Arguments eye_ {c} self : rename.

(** The matrix [w] that [forward] rebuilds from the factors. *)
Definition weight {c : nat} (self : t c) : 'M[R]_c :=
  let l := hadamard (l self) (l_mask self) + eye_ self in
  let u := hadamard (u self) (l_mask self)^T
           + torch_diag (\row_i (sign_s self 0 i * exp (log_s self 0 i))) in
  p self *m (l *m u).

Definition forward {B c H W : nat} (self : t c) (z : tensor4 B c H W)
    (ldj : 'I_B -> R) (reverse : bool) : option (tensor4 B c H W * ('I_B -> R)) :=
  let w := weight self in
  let weight_ldj := \sum_(i < c) log_s self 0 i in
  let weight_ldj := weight_ldj * H%:R * W%:R in
  if ~~ reverse then
    Some (conv2d_1x1 z w, fun b => ldj b + weight_ldj)
  else
    match torch_inverse w with
    | Some w => Some (conv2d_1x1 z w, fun b => ldj b - weight_ldj)
    | None => None
    end.

(** [Invertible1x1ConvLU(c_in)], from the factors [p, l, u] that
    [scipy.linalg.lu] returns for the initial matrix. *)
Definition np_sign (x : R) : R :=
  if Rlt_dec x 0 then -1 else if Rlt_dec 0 x then 1 else 0.

Definition init {c : nat} (np_p np_l np_u : 'M[R]_c) : t c :=
  mk np_p
     (\row_i np_sign (np_u i i))
     np_l
     (\row_i ln (Rabs (np_u i i)))
     (\matrix_(i, j) (if (i < j)%N then np_u i j else 0))
     tril_ones eye.

End Invertible1x1ConvLU.

(** ** An example with two channels *)

(** The transposition of the two channels; the signs [(1, -1)] and the
    logarithms [(1, 2)] of the magnitudes of the diagonal; parameters [l]
    and [u] with all entries 3 and 5, of which the layer keeps the strictly
    lower and the strictly upper part; and one image of one pixel with the
    channels 7 and 11, with the accumulator 4. *)
Definition swap2 : 'S_2 := tperm ord0 ord_max.

Definition example_sign_s : 'rV[R]_2 := \row_i (if i == ord0 then 1 else -1).

Definition example_log_s : 'rV[R]_2 := \row_i (if i == ord0 then IZR 1 else IZR 2).

Definition example_l : 'M[R]_2 := const_mx (IZR 3).

Definition example_u : 'M[R]_2 := const_mx (IZR 5).

Definition example_z : tensor4 1 2 1 1 :=
  fun _ c _ _ => if c == ord0 then IZR 7 else IZR 11.

Definition example_ldj : 'I_1 -> R := fun _ => IZR 4.

(** Factors as an LU decomposition returns them: [np_l] with the rows
    [(1, 0)] and [(3, 1)], [np_u] with the rows [(-2, 5)] and [(0, 4)]. *)
Definition example_np_l : 'M[R]_2 :=
  \matrix_(i, j) (if i == j then 1 else if (j < i)%N then IZR 3 else 0).

Definition example_np_u : 'M[R]_2 :=
  \matrix_(i, j) (if i == j then (if i == ord0 then - IZR 2 else IZR 4)
                  else if (i < j)%N then IZR 5 else 0).

End ChannelMixing.

(** * Quantities and predicates of the statements *)

(** [src] broadcasts to [sh]: same rank, every dimension 1 or equal. *)
Definition broadcastable (src sh : list nat) : Prop :=
  Forall2 (fun ds d => ds = 1%nat \/ ds = d) src sh.

(** The channel mask as the specification words it: ones on the first
    [ceil(c / 2)] channels. *)
Definition channel_mask_ceil_spec (c : nat) : Prop :=
  exists m : tensor R,
    create_channel_mask c false = Some m /\
    shape m = [1; c; 1; 1]%nat /\
    (forall k : nat, (k < c)%nat ->
       tget 0 m [0; k; 0; 0]%nat = if (k <? (c + 1) / 2)%nat then 1 else 0) /\
    create_channel_mask c true = Some (tmap (fun x => 1 - x) m).

(** The two chunks of storage made of [B] batch elements with [2C] channels
    of [n] elements. *)
Definition chunk_fst {A : Type} (B C n : nat) (l : list A) : list A :=
  concat (map (fun i => firstn (C * n) (slice0 (2 * C * n) l i)) (seq 0 B)).

Definition chunk_snd {A : Type} (B C n : nat) (l : list A) : list A :=
  concat (map (fun i => skipn (C * n) (slice0 (2 * C * n) l i)) (seq 0 B)).

(** What a coupling layer assumes of its parts on inputs of shape
    [(B, C, H, W)]: a well-formed 0/1 mask and a scaling factor that
    broadcast to the input, and a network that maps [(B, C + Ci, H, W)] to
    [(B, 2C, H, W)], where [Ci] counts the channels of the conditioning
    image. *)
Definition binary_mask (m : tensor R) : Prop :=
  Forall (fun x => x = 0 \/ x = 1) (data m).

Record coupling_ok (L : CouplingLayer.t) (B C Ci H W : nat) : Prop := {
  mask_wf : wf (CouplingLayer.mask L);
  mask_broadcast : broadcastable (shape (CouplingLayer.mask L)) [B; C; H; W];
  mask_binary : binary_mask (CouplingLayer.mask L);
  scaling_wf : wf (CouplingLayer.scaling_factor L);
  scaling_broadcast :
    broadcastable [1; numel (shape (CouplingLayer.scaling_factor L)); 1; 1]%nat
      [B; C; H; W];
  network_shape : forall x : tensor R,
    wf x -> shape x = [B; (C + Ci)%nat; H; W] ->
    wf (CouplingLayer.network L x) /\
    shape (CouplingLayer.network L x) = [B; (2 * C)%nat; H; W]
}.

Definition orig_img_ok (o : option (tensor R)) (B Ci H W : nat) : Prop :=
  match o with
  | None => Ci = 0%nat
  | Some img => wf img /\ shape img = [B; Ci; H; W]
  end.

(** The storage of the intermediate tensors of [CouplingLayer.forward] on an
    input of shape [(B, C, H, W)]: the expanded mask and scaling factor, the
    tensor fed to the network and its output, the masked scale [s] and
    translation [t], the output [z], and the sums of [s] per batch
    element. *)
Definition mask_x (L : CouplingLayer.t) (B C H W : nat) : list R :=
  data (expand 0 (CouplingLayer.mask L) [B; C; H; W]).

Definition s_fac_x (L : CouplingLayer.t) (B C H W : nat) : list R :=
  data (expand 0
          (mkTensor [1; numel (shape (CouplingLayer.scaling_factor L)); 1; 1]%nat
             (map exp (data (CouplingLayer.scaling_factor L))))
          [B; C; H; W]).

Definition nn_in (B C Ci H W : nat) (o : option (tensor R)) (z_in : list R)
    : tensor R :=
  match o with
  | None => mkTensor [B; C; H; W] z_in
  | Some img =>
      mkTensor [B; (C + Ci)%nat; H; W]
        (concat (map (fun i => slice0 (C * numel [H; W]) z_in i
                                 ++ slice0 (Ci * numel [H; W]) (data img) i)
                   (seq 0 B)))
  end.

Definition nn_out (L : CouplingLayer.t) (B C Ci H W : nat) (o : option (tensor R))
    (z_in : list R) : list R :=
  data (CouplingLayer.network L (nn_in B C Ci H W o z_in)).

Definition s_of (L : CouplingLayer.t) (B C Ci H W : nat) (o : option (tensor R))
    (z_in : list R) : list R :=
  map2 Rmult
    (map2 Rmult
       (map tanh
          (map2 Rdiv (chunk_fst B C (numel [H; W]) (nn_out L B C Ci H W o z_in))
             (s_fac_x L B C H W)))
       (s_fac_x L B C H W))
    (map (fun m => 1 - m) (mask_x L B C H W)).

Definition t_of (L : CouplingLayer.t) (B C Ci H W : nat) (o : option (tensor R))
    (z_in : list R) : list R :=
  map2 Rmult (chunk_snd B C (numel [H; W]) (nn_out L B C Ci H W o z_in))
    (map (fun m => 1 - m) (mask_x L B C H W)).

Definition coupled (L : CouplingLayer.t) (B C Ci H W : nat) (o : option (tensor R))
    (reverse : bool) (zd : list R) : list R :=
  let z_in := map2 Rmult zd (mask_x L B C H W) in
  if reverse then
    map2 Rminus (map2 Rmult zd (map exp (map Ropp (s_of L B C Ci H W o z_in))))
      (t_of L B C Ci H W o z_in)
  else
    map2 Rmult (map2 Rplus zd (t_of L B C Ci H W o z_in))
      (map exp (s_of L B C Ci H W o z_in)).

Definition s_sums (L : CouplingLayer.t) (B C Ci H W : nat) (o : option (tensor R))
    (zd : list R) : list R :=
  map (fun b => Rsum (slice0 (C * (H * (W * 1)))
                        (s_of L B C Ci H W o (map2 Rmult zd (mask_x L B C H W))) b))
    (seq 0 B).

(** The value that reaches [floor] when the density direction of the
    dequantization layer is followed by its sampling direction. *)
Definition blended (alpha v u : R) : R := (v + u) * (1 - alpha) + 128 * alpha.

(** The sums over the batch elements of storage of shape [(B, C, H, W)]. *)
Definition batch_sums (B C H W : nat) (l : list R) : list R :=
  map (fun b => Rsum (slice0 (C * (H * (W * 1))) l b)) (seq 0 B).

(** The storage of the tensor and of the accumulator after the density
    direction of the plain dequantization layer, with the noise read from
    [g]. *)
Definition dequantized (B C H W : nat) (alpha : R) (zd : list R) (g : rng) : list R :=
  map (fun x => ln x - ln (1 - x))
    (map (fun x => x * (1 - alpha) + 0.5 * alpha)
       (map (fun x => x / 256)
          (map2 Rplus zd (map g (seq 0 (numel [B; C; H; W])))))).

Definition dequant_ldj (B C H W : nat) (alpha : R) (zd : list R) (g : rng)
    (ld : list R) : list R :=
  map2 Rplus
    (map (fun l => l + ln (1 - alpha) * INR (numel [C; H; W]))
       (map (fun l => l - ln 256 * INR (numel [C; H; W])) ld))
    (batch_sums B C H W
       (map (fun x => - ln x - ln (1 - x))
          (map (fun x => x * (1 - alpha) + 0.5 * alpha)
             (map (fun x => x / 256)
                (map2 Rplus zd (map g (seq 0 (numel [B; C; H; W])))))))).

(** The storage of the tensor and of the accumulator after the coupling
    layers [Ls], run in order without conditioning image. *)
Fixpoint run_couplings (B C H W : nat) (Ls : list CouplingLayer.t) (zd ld : list R)
    : list R * list R :=
  match Ls with
  | [] => (zd, ld)
  | L :: Ls' =>
      run_couplings B C H W Ls' (coupled L B C 0 H W None false zd)
        (map2 Rplus ld (s_sums L B C 0 H W None zd))
  end.

(** The pipeline made of a [Dequantization] layer and the coupling layers
    [Ls], and its negative log-likelihood per image. *)
Definition pipeline_flows (alpha : R) (Ls : list CouplingLayer.t) : list Flow :=
  Dequantization.forward (Dequantization.init alpha) :: map CouplingLayer_flow Ls.

Definition pipeline_nll (B C H W : nat) (alpha : R) (Ls : list CouplingLayer.t)
    (zd : list R) (g : rng) : list R :=
  let out := run_couplings B C H W Ls (dequantized B C H W alpha zd g)
               (dequant_ldj B C H W alpha zd g (data (zeros [B]))) in
  map Ropp
    (map2 Rplus (snd out)
       (batch_sums B C H W (map (log_prob (mkNormal 0 1)) (fst out)))).

(** [t[perm]]: the batch elements of [t], taken in the order [perm]. *)
Definition take_batch {A : Type} (n : nat) (perm : list nat) (l : list A) : list A :=
  concat (map (slice0 n l) perm).

Definition index_batch {A : Type} (t : tensor A) (perm : list nat) : tensor A :=
  mkTensor (length perm :: tl (shape t))
    (take_batch (numel (tl (shape t))) perm (data t)).

Definition Tindex_batch (z : Tensor) (perm : list nat) : Tensor :=
  match z with
  | IntTensor t => IntTensor (index_batch t perm)
  | FloatTensor t => FloatTensor (index_batch t perm)
  end.

(** What batch independence asks of a coupling layer: a mask with batch
    dimension 1, and a network that treats the batch elements alike. *)
Record batchwise (L : CouplingLayer.t) (B C H W : nat) (perm : list nat) : Prop := {
  mask_batch1 : hd 0%nat (shape (CouplingLayer.mask L)) = 1%nat;
  network_equivariant : forall x : tensor R,
    wf x -> shape x = [B; C; H; W] ->
    CouplingLayer.network L (index_batch x perm)
    = index_batch (CouplingLayer.network L x) perm
}.

(** What independence of the batch members asks of a coupling layer: a mask
    with batch dimension 1, and a network that computes its output for a
    batch element from that element alone, by a function [F] of the storage
    of one image. *)
Record samplewise (L : CouplingLayer.t) (B C H W : nat) : Prop := {
  mask_per_image : hd 0%nat (shape (CouplingLayer.mask L)) = 1%nat;
  network_per_image : exists F : list R -> list R,
    (forall r : list R, length r = numel [C; H; W] ->
       length (F r) = numel [(2 * C)%nat; H; W]) /\
    forall x : tensor R, wf x -> shape x = [B; C; H; W] ->
      data (CouplingLayer.network L x)
      = concat (map (fun b => F (slice0 (numel [C; H; W]) (data x) b)) (seq 0 B))
}.

(** ** Example layers *)

(** A layer on one image of two pixels, the first one masked, whose network
    returns its input as scale and as translation. *)
Definition example_layer : CouplingLayer.t :=
  CouplingLayer.mk (mkTensor [1; 1; 1; 2]%nat [1; 0])
    (fun x => mkTensor [1; 2; 1; 2]%nat (data x ++ data x))
    (mkTensor [1]%nat [0]).

(** A layer on one pixel with a large scale: its network returns the scale
    [exp 5] and no translation, and its scaling factor is 5. *)
Definition steep_layer : CouplingLayer.t :=
  CouplingLayer.mk (mkTensor [1; 1; 1; 1]%nat [0])
    (fun _ => mkTensor [1; 2; 1; 1]%nat [exp 5; 0])
    (mkTensor [1]%nat [5]).

(** A layer with a moderate scale: on one pixel, its network returns the
    scale 100 and no translation, and its scaling factor is 2, so that
    [s = tanh(100 / exp(2)) * exp(2)], about 7.39, and [exp(s)] is about
    1618. *)
Definition sharp_layer : CouplingLayer.t :=
  CouplingLayer.mk (mkTensor [1; 1; 1; 1]%nat [0])
    (fun _ => mkTensor [1; 2; 1; 1]%nat [100; 0])
    (mkTensor [1]%nat [2]).

(** Two layers on one image of two pixels that act on the pixel they do not
    mask.  The first masks the first pixel and takes it as scale and as
    translation of the second; the second masks the second pixel, takes it
    as scale and twice as translation of the first, and has the scaling
    factor 1. *)
Definition cross_layer : CouplingLayer.t :=
  CouplingLayer.mk (mkTensor [1; 1; 1; 2]%nat [1; 0])
    (fun x => mkTensor [1; 2; 1; 2]%nat (rev (data x) ++ rev (data x)))
    (mkTensor [1]%nat [0]).

Definition cross_layer2 : CouplingLayer.t :=
  CouplingLayer.mk (mkTensor [1; 1; 1; 2]%nat [0; 1])
    (fun x => mkTensor [1; 2; 1; 2]%nat
                (rev (data x) ++ map (fun v => 2 * v) (rev (data x))))
    (mkTensor [1]%nat [1]).

(** ** Further example layers *)

(** A layer on one image of two pixels, the first one masked, that is
    conditioned on an image with one channel: its network returns its
    input, the masked tensor and the image, as scale and as translation. *)
Definition conditioned_layer : CouplingLayer.t :=
  CouplingLayer.mk (mkTensor [1; 1; 1; 2]%nat [1; 0])
    (fun x => mkTensor [1; 2; 1; 2]%nat (data x))
    (mkTensor [1]%nat [0]).

(** ** The layers of the simple flow *)

(** The storage of the checkerboard mask: the cell at offset [o] is in row
    [o / w] and column [o mod w]. *)
Definition checkerboard (h w : nat) (invert : bool) : tensor R :=
  mkTensor [1; 1; h; w]%nat
    (map (fun o => if invert then 1 - INR ((o / w + o mod w) mod 2)
                   else INR ((o / w + o mod w) mod 2))
       (seq 0 (h * w))).

(** The coupling layers that [create_simple_flow] builds: layer [i] has the
    checkerboard mask, inverted when [i] is odd. *)
Definition simple_couplings (net : nat -> tensor R -> tensor R) (n : nat)
    : list CouplingLayer.t :=
  map (fun i => CouplingLayer.init (net i) (checkerboard 28 28 (i mod 2 =? 1)%nat) 1)
    (seq 0 n).

(** Two networks for one image of 28 by 28 pixels: the first returns its
    one-channel input as scale and as translation, the second returns its
    two-channel input. *)
Definition doubling_net (x : tensor R) : tensor R :=
  mkTensor [1; 2; 28; 28]%nat (data x ++ data x).

Definition identity_net (x : tensor R) : tensor R :=
  mkTensor [1; 2; 28; 28]%nat (data x).

(** ** The elementwise map of the dequantization layer *)

(** What the density direction of [Dequantization] does to a pixel value [v]
    to which the noise [u] is added, and the derivative of that map in
    [v]. *)
Definition dequant_elem (alpha u v : R) : R :=
  let x := (v + u) / 256 * (1 - alpha) + 0.5 * alpha in
  ln x - ln (1 - x).

Definition dequant_elem_deriv (alpha u v : R) : R :=
  let x := (v + u) / 256 * (1 - alpha) + 0.5 * alpha in
  (1 - alpha) / 256 / (x * (1 - x)).

(** ** One element replaced *)

(** The storage [l] with the element at offset [k] replaced by [x]. *)
Definition update {A : Type} (l : list A) (k : nat) (x : A) : list A :=
  firstn k l ++ x :: skipn (S k) l.

(** ** A layer whose network returns zeros *)

(** A layer on one image of two pixels, the first one masked, whose network
    returns zeros, as a network whose last layer is zeroed does. *)
Definition zero_layer : CouplingLayer.t :=
  CouplingLayer.mk (mkTensor [1; 1; 1; 2]%nat [1; 0])
    (fun _ => zeros [1; 2; 1; 2]%nat)
    (mkTensor [1]%nat [0]).

(** ** The fully connected network, image by image *)

(** One row of the output of a linear layer, from the row [r] of its
    input, and the output of [LinearNet] for one image, from the storage [r]
    of that image. *)
Definition linear_row (l : Linear.t) (r : list R) : list R :=
  map (fun o =>
         Rsum (map2 Rmult r (slice0 (Linear.in_features l) (data (Linear.weight l)) o))
         + nth o (data (Linear.bias l)) 0)
    (seq 0 (Linear.out_features l)).

Definition linear_net_row (net : LinearNet.t) (r : list R) : list R :=
  linear_row (LinearNet.fc3 net)
    (map relu (linear_row (LinearNet.fc2 net)
                 (map relu (linear_row (LinearNet.fc1 net) r)))).

(** The sizes of the layers of a [LinearNet] with [n_hidden] hidden units;
    training changes the weights, not the sizes. *)
Definition linear_net_sized (net : LinearNet.t) (n_hidden : nat) : Prop :=
  Linear.in_features (LinearNet.fc1 net) = (28 * 28)%nat /\
  Linear.out_features (LinearNet.fc1 net) = n_hidden /\
  Linear.in_features (LinearNet.fc2 net) = n_hidden /\
  Linear.out_features (LinearNet.fc2 net) = n_hidden /\
  Linear.in_features (LinearNet.fc3 net) = n_hidden /\
  Linear.out_features (LinearNet.fc3 net) = (28 * 28 * 2)%nat.

(** [LinearNet] as the network of a coupling layer.  The layers take their
    network as a function; on the inputs on which [LinearNet] raises, which
    no layer below passes to it, the input stands for the output. *)
Definition linear_network (net : LinearNet.t) (x : tensor R) : tensor R :=
  match LinearNet.forward net x with
  | Some y => y
  | None => x
  end.

(** A [LinearNet] with one hidden unit whose weights are all 1 and whose
    biases are all 0: it returns, for every output element of an image, the
    sum of the input elements of that image when this sum is positive, and 0
    otherwise.  The two coupling layers that [CouplingLayer] builds from it
    with the two checkerboard masks. *)
Definition summing_net : LinearNet.t :=
  LinearNet.mk
    (Linear.mk (28 * 28) 1 (mkTensor [1; 28 * 28]%nat (repeat 1 (28 * 28)))
       (mkTensor [1]%nat [0]))
    (Linear.mk 1 1 (mkTensor [1; 1]%nat [1]) (mkTensor [1]%nat [0]))
    (Linear.mk 1 (28 * 28 * 2)
       (mkTensor [28 * 28 * 2; 1]%nat (repeat 1 (28 * 28 * 2))) (zeros [28 * 28 * 2]%nat)).

Definition summing_layer (invert : bool) : CouplingLayer.t :=
  CouplingLayer.init (linear_network summing_net) (checkerboard 28 28 invert) 1.

(** * Theorems *)

(** * Index calculus *)

Section IndexCalculus.

Lemma numel_cons (d : nat) (sh : list nat) : numel (d :: sh) = (d * numel sh)%nat.
Proof. reflexivity. Qed.

Lemma numel_app (s1 s2 : list nat) : numel (s1 ++ s2) = (numel s1 * numel s2)%nat.
Proof.
  induction s1 as [|d s1 IH]; simpl.
  - lia.
  - rewrite IH. lia.
Qed.

Lemma numel_repeat_1 (n : nat) : numel (repeat 1%nat n) = 1%nat.
Proof. induction n as [|n IH]; simpl; [reflexivity | rewrite IH; reflexivity]. Qed.

Lemma unravel_length (sh : list nat) (n : nat) : length (unravel sh n) = length sh.
Proof.
  revert n. induction sh as [|d sh IH]; intros n; simpl.
  - reflexivity.
  - now rewrite IH.
Qed.

Lemma unravel_bounds (sh : list nat) (n : nat) :
  (n < numel sh)%nat -> Forall2 lt (unravel sh n) sh.
Proof.
  revert n. induction sh as [|d sh IH]; intros n Hn; simpl.
  - constructor.
  - rewrite numel_cons in Hn.
    assert (Hm : numel sh <> 0%nat) by (intros E; rewrite E in Hn; lia).
    constructor.
    + apply Nat.Div0.div_lt_upper_bound. lia.
    + apply IH. now apply Nat.mod_upper_bound.
Qed.

Lemma ravel_unravel (sh : list nat) (n : nat) :
  (n < numel sh)%nat -> ravel sh (unravel sh n) = n.
Proof.
  revert n. induction sh as [|d sh IH]; intros n Hn; simpl in *.
  - lia.
  - assert (Hm : numel sh <> 0%nat) by (intros E; rewrite E in Hn; lia).
    rewrite IH by now apply Nat.mod_upper_bound.
    pose proof (Nat.div_mod_eq n (numel sh)). lia.
Qed.

Lemma ravel_lt (sh idx : list nat) :
  Forall2 lt idx sh -> (ravel sh idx < numel sh)%nat.
Proof.
  intros H. induction H as [|i d idx sh Hi _ IH]; simpl.
  - lia.
  - nia.
Qed.

Lemma unravel_ravel (sh idx : list nat) :
  Forall2 lt idx sh -> unravel sh (ravel sh idx) = idx.
Proof.
  intros H. induction H as [|i d idx sh Hi Hrest IH]; simpl.
  - reflexivity.
  - pose proof (ravel_lt sh idx Hrest) as Hr.
    assert (Hm : numel sh <> 0%nat) by lia.
    rewrite Nat.div_add_l by exact Hm.
    rewrite (Nat.div_small _ _ Hr), Nat.add_0_r.
    rewrite Nat.add_comm, Nat.Div0.mod_add, (Nat.mod_small _ _ Hr).
    now rewrite IH.
Qed.

End IndexCalculus.

(** * Lists: [map2], [nth] over [seq], slices *)

Section ListFacts.

Context {A B C : Type}.

Lemma map2_length (f : A -> B -> C) (l1 : list A) (l2 : list B) :
  length (map2 f l1 l2) = Nat.min (length l1) (length l2).
Proof.
  revert l2. induction l1 as [|a l1 IH]; intros [|b l2]; simpl; auto.
Qed.

Lemma map2_nth (f : A -> B -> C) (l1 : list A) (l2 : list B) da db dc (i : nat) :
  (i < length l1)%nat -> (i < length l2)%nat ->
  nth i (map2 f l1 l2) dc = f (nth i l1 da) (nth i l2 db).
Proof.
  revert l2 i. induction l1 as [|a l1 IH]; intros [|b l2] [|i] H1 H2; simpl in *;
    try lia; auto.
  apply IH; lia.
Qed.

Lemma map_seq_nth (h : nat -> A) (l : list A) (d : A) :
  (forall o, (o < length l)%nat -> h o = nth o l d) ->
  map h (seq 0 (length l)) = l.
Proof.
  intros H. apply (nth_ext _ _ (h 0%nat) d).
  - now rewrite length_map, length_seq.
  - intros n Hn. rewrite length_map, length_seq in Hn.
    rewrite (nth_indep _ (h 0%nat) (h (nth n (seq 0 (length l)) 0%nat)))
      by now rewrite length_map, length_seq.
    rewrite map_nth, seq_nth by exact Hn. simpl. now apply H.
Qed.

Lemma nth_map_seq (h : nat -> A) (n o : nat) (d : A) :
  (o < n)%nat -> nth o (map h (seq 0 n)) d = h o.
Proof.
  intros Ho.
  rewrite (nth_indep _ d (h (nth o (seq 0 n) 0%nat))) by now rewrite length_map, length_seq.
  now rewrite map_nth, seq_nth.
Qed.

End ListFacts.

(** * Squeeze *)

Section Squeeze.

Context {A : Type} (d : A).

Lemma gather_nth (sh src : list nat) (f : list nat -> list nat) (t : tensor A) (o : nat) :
  (o < numel sh)%nat ->
  nth o (data (gather d sh src f t)) d = nth (ravel src (f (unravel sh o))) (data t) d.
Proof. intros Ho. unfold gather; simpl. now rewrite nth_map_seq. Qed.

Lemma reshape_some (t : tensor A) (sh : list nat) :
  numel sh = numel (shape t) -> reshape t sh = Some (mkTensor sh (data t)).
Proof. intros E. unfold reshape. now rewrite (proj2 (Nat.eqb_eq _ _) E). Qed.

(** The two permutations of [SqueezeFlow.forward], on explicit indices. *)
Lemma forward_perm_idx (a0 a1 a2 a3 a4 a5 : nat) :
  map (fun j => nth (index_of j [0; 1; 3; 5; 2; 4]%nat) [a0; a1; a2; a3; a4; a5] 0%nat)
    (seq 0 6) = [a0; a1; a4; a2; a5; a3].
Proof. reflexivity. Qed.

Lemma reverse_perm_idx (a0 a1 a2 a3 a4 a5 : nat) :
  map (fun j => nth (index_of j [0; 1; 4; 2; 5; 3]%nat) [a0; a1; a2; a3; a4; a5] 0%nat)
    (seq 0 6) = [a0; a1; a3; a5; a2; a4].
Proof. reflexivity. Qed.

Lemma forall2_lt_6 (a0 a1 a2 a3 a4 a5 b0 b1 b2 b3 b4 b5 : nat) :
  Forall2 lt [a0; a1; a2; a3; a4; a5] [b0; b1; b2; b3; b4; b5] <->
  (a0 < b0 /\ a1 < b1 /\ a2 < b2 /\ a3 < b3 /\ a4 < b4 /\ a5 < b5)%nat.
Proof.
  split.
  - intros H. repeat match goal with
      | H : Forall2 _ (_ :: _) (_ :: _) |- _ => inversion H; subst; clear H
      end. tauto.
  - intros (H0 & H1 & H2 & H3 & H4 & H5). repeat constructor; assumption.
Qed.

Lemma unravel_6 (b0 b1 b2 b3 b4 b5 o : nat) :
  (o < numel [b0; b1; b2; b3; b4; b5])%nat ->
  exists a0 a1 a2 a3 a4 a5,
    unravel [b0; b1; b2; b3; b4; b5] o = [a0; a1; a2; a3; a4; a5] /\
    (a0 < b0 /\ a1 < b1 /\ a2 < b2 /\ a3 < b3 /\ a4 < b4 /\ a5 < b5)%nat.
Proof.
  intros Ho. pose proof (unravel_bounds _ _ Ho) as Hb.
  pose proof (unravel_length [b0; b1; b2; b3; b4; b5] o) as Hl.
  destruct (unravel [b0; b1; b2; b3; b4; b5] o) as [|a0 [|a1 [|a2 [|a3 [|a4 [|a5 [|]]]]]]];
    try discriminate Hl.
  exists a0, a1, a2, a3, a4, a5. split; [reflexivity|]. now apply forall2_lt_6.
Qed.

(** The element of the squeezed tensor at [(b, 4c + 2i + j, h, w)] and the
    inverse rearrangement, on the storage. *)
Lemma squeeze_data_roundtrip (B C H2 W2 : nat) (l : list A) :
  length l = numel [B; C; H2; 2; W2; 2]%nat ->
  map (fun o => nth (ravel [B; C; 2; 2; H2; W2]%nat
                       (map (fun j => nth (index_of j [0; 1; 4; 2; 5; 3]%nat)
                                        (unravel [B; C; H2; 2; W2; 2]%nat o) 0%nat)
                          (seq 0 6)))
                  (map (fun o' => nth (ravel [B; C; H2; 2; W2; 2]%nat
                                         (map (fun j => nth (index_of j [0; 1; 3; 5; 2; 4]%nat)
                                                          (unravel [B; C; 2; 2; H2; W2]%nat o') 0%nat)
                                            (seq 0 6)))
                                  l d)
                     (seq 0 (numel [B; C; 2; 2; H2; W2]%nat)))
                  d)
    (seq 0 (numel [B; C; H2; 2; W2; 2]%nat)) = l.
Proof.
  intros Hl. rewrite <- Hl. apply map_seq_nth with (d := d).
  intros o Ho. rewrite Hl in Ho.
  destruct (unravel_6 _ _ _ _ _ _ _ Ho) as (a0 & a1 & a2 & a3 & a4 & a5 & E & Hb).
  rewrite E, reverse_perm_idx.
  assert (Hin : Forall2 lt [a0; a1; a3; a5; a2; a4] [B; C; 2; 2; H2; W2]%nat)
    by (apply forall2_lt_6; tauto).
  rewrite nth_map_seq by (apply ravel_lt; exact Hin).
  rewrite unravel_ravel by exact Hin.
  rewrite forward_perm_idx, <- E.
  now rewrite ravel_unravel.
Qed.

End Squeeze.

Section SqueezeTheorem.

Context {A L : Type} (d : A).

Lemma squeeze_forward_eq (B C H2 W2 : nat) (l : list A) (ldj : L) :
  SqueezeFlow.forward d (mkTensor [B; C; 2 * H2; 2 * W2]%nat l) ldj false =
  Some (mkTensor [B; 4 * C; H2; W2]%nat
          (map (fun o' => nth (ravel [B; C; H2; 2; W2; 2]%nat
                                 (map (fun j => nth (index_of j [0; 1; 3; 5; 2; 4]%nat)
                                                  (unravel [B; C; 2; 2; H2; W2]%nat o') 0%nat)
                                    (seq 0 6)))
                          l d)
             (seq 0 (numel [B; C; 2; 2; H2; W2]%nat))), ldj).
Proof.
  unfold SqueezeFlow.forward. cbn [shape negb].
  replace (2 * H2 / 2)%nat with H2 by (rewrite Nat.mul_comm, Nat.div_mul; lia).
  replace (2 * W2 / 2)%nat with W2 by (rewrite Nat.mul_comm, Nat.div_mul; lia).
  rewrite reshape_some by (cbn [shape numel fold_right]; lia).
  cbn [obind]. unfold permute. cbn [shape length Nat.eqb andb].
  replace (is_perm_of_range [0; 1; 3; 5; 2; 4]%nat) with true by reflexivity.
  cbn [obind]. unfold gather at 1.
  rewrite reshape_some by (cbn [shape map nth numel fold_right]; lia).
  cbn [obind data shape map nth length]. reflexivity.
Qed.

Lemma squeeze_reverse_eq (B C H2 W2 : nat) (l : list A) (ldj : L) :
  SqueezeFlow.forward d (mkTensor [B; 4 * C; H2; W2]%nat l) ldj true =
  Some (mkTensor [B; C; 2 * H2; 2 * W2]%nat
          (map (fun o => nth (ravel [B; C; 2; 2; H2; W2]%nat
                                (map (fun j => nth (index_of j [0; 1; 4; 2; 5; 3]%nat)
                                                 (unravel [B; C; H2; 2; W2; 2]%nat o) 0%nat)
                                   (seq 0 6)))
                         l d)
             (seq 0 (numel [B; C; H2; 2; W2; 2]%nat))), ldj).
Proof.
  unfold SqueezeFlow.forward. cbn [shape negb].
  replace (4 * C / 4)%nat with C by (rewrite Nat.mul_comm, Nat.div_mul; lia).
  rewrite reshape_some by (cbn [shape numel fold_right]; lia).
  cbn [obind]. unfold permute. cbn [shape length Nat.eqb andb].
  replace (is_perm_of_range [0; 1; 4; 2; 5; 3]%nat) with true by reflexivity.
  cbn [obind]. unfold gather at 1.
  rewrite reshape_some by (cbn [shape map nth numel fold_right]; lia).
  cbn [obind data shape map nth length].
  now rewrite (Nat.mul_comm H2 2), (Nat.mul_comm W2 2).
Qed.

(** C4.  On a tensor of shape [(B, C, H, W)] with [H] and [W] even,
    [SqueezeFlow.forward] with [reverse=False] returns a tensor of shape
    [(B, 4C, H/2, W/2)] whose channel [4c + 2i + j] at [(h, w)] is the element
    [(i, j)] of the 2x2 block [(h, w)] of channel [c]; [reverse=True] applied
    to that output returns the input itself, and [ldj] is returned unchanged
    in both directions. *)
Theorem squeeze_forward_reverse (z : tensor A) (ldj : L) (B C H W : nat) :
  shape z = [B; C; H; W] -> wf z -> Nat.Even H -> Nat.Even W ->
  exists z' : tensor A,
    SqueezeFlow.forward d z ldj false = Some (z', ldj) /\
    shape z' = [B; 4 * C; H / 2; W / 2]%nat /\
    wf z' /\
    (forall b c i j h w : nat,
        (b < B -> c < C -> i < 2 -> j < 2 -> h < H / 2 -> w < W / 2 ->
         tget d z' [b; 4 * c + 2 * i + j; h; w] = tget d z [b; c; 2 * h + i; 2 * w + j])%nat) /\
    SqueezeFlow.forward d z' ldj true = Some (z, ldj).
Proof.
  intros Hsh Hwf [H2 ->] [W2 ->].
  destruct z as [sh l]. unfold wf in Hwf. cbn [shape data] in *. subst sh.
  replace (2 * H2 / 2)%nat with H2 by (rewrite Nat.mul_comm, Nat.div_mul; lia).
  replace (2 * W2 / 2)%nat with W2 by (rewrite Nat.mul_comm, Nat.div_mul; lia).
  eexists. split; [apply squeeze_forward_eq|].
  split; [reflexivity|].
  split; [unfold wf; cbn [shape data numel fold_right];
          rewrite length_map, length_seq; cbn [numel fold_right]; lia|].
  split.
  - intros b c i j h w Hb Hc Hi Hj Hh Hw.
    unfold tget. cbn [shape data].
    assert (Hin : Forall2 lt [b; c; i; j; h; w] [B; C; 2; 2; H2; W2]%nat)
      by (apply forall2_lt_6; tauto).
    replace (ravel [B; 4 * C; H2; W2]%nat [b; 4 * c + 2 * i + j; h; w]%nat)
      with (ravel [B; C; 2; 2; H2; W2]%nat [b; c; i; j; h; w])
      by (cbn [ravel numel fold_right]; ring).
    rewrite nth_map_seq by (apply ravel_lt; exact Hin).
    rewrite unravel_ravel by exact Hin.
    rewrite forward_perm_idx. f_equal.
    cbn [ravel numel fold_right]. ring.
  - rewrite squeeze_reverse_eq, squeeze_data_roundtrip; [reflexivity|].
    rewrite Hwf. cbn [numel fold_right]. lia.
Qed.

End SqueezeTheorem.

(** The tensor [torch.arange(16).view(1, 1, 4, 4)] of the notebook. *)
Lemma squeeze_forward_reverse_witness :
  exists z' : tensor Z,
    SqueezeFlow.forward 0%Z (mkTensor [1; 1; 4; 4]%nat (map Z.of_nat (seq 0 16))) tt false
      = Some (z', tt) /\
    shape z' = [1; 4 * 1; 4 / 2; 4 / 2]%nat /\
    wf z' /\
    (forall b c i j h w : nat,
        (b < 1 -> c < 1 -> i < 2 -> j < 2 -> h < 4 / 2 -> w < 4 / 2 ->
         tget 0%Z z' [b; 4 * c + 2 * i + j; h; w] =
         tget 0%Z (mkTensor [1; 1; 4; 4]%nat (map Z.of_nat (seq 0 16)))
           [b; c; 2 * h + i; 2 * w + j])%nat) /\
    SqueezeFlow.forward 0%Z z' tt true
      = Some (mkTensor [1; 1; 4; 4]%nat (map Z.of_nat (seq 0 16)), tt).
Proof.
  apply (squeeze_forward_reverse 0%Z (mkTensor [1; 1; 4; 4]%nat (map Z.of_nat (seq 0 16)))
           tt 1 1 4 4).
  - reflexivity.
  - reflexivity.
  - exists 2%nat. reflexivity.
  - exists 2%nat. reflexivity.
Defined.

(** * Mask generators *)

Lemma nth_repeat_app (a b k : nat) :
  nth k (repeat 1 a ++ repeat 0 b) 0 = if (k <? a)%nat then 1 else 0.
Proof.
  destruct (Nat.ltb_spec k a) as [Hk|Hk].
  - rewrite app_nth1 by now rewrite repeat_length.
    apply nth_repeat_lt. exact Hk.
  - rewrite app_nth2 by (rewrite repeat_length; exact Hk).
    now rewrite nth_repeat.
Qed.

(** C3, as the code has it.  [create_channel_mask c] is a mask of shape
    [(1, c, 1, 1)] that is 1 on the first [floor(c / 2)] channels and 0 on the
    others; [invert=True] gives 1 minus that mask. *)
Theorem create_channel_mask_floor (c : nat) :
  exists m : tensor R,
    create_channel_mask c false = Some m /\
    shape m = [1; c; 1; 1]%nat /\
    wf m /\
    (forall k : nat, (k < c)%nat ->
       tget 0 m [0; k; 0; 0]%nat = if (k <? c / 2)%nat then 1 else 0) /\
    create_channel_mask c true = Some (tmap (fun x => 1 - x) m).
Proof.
  assert (Hc : (c / 2 <= c)%nat) by (apply Nat.Div0.div_le_upper_bound; lia).
  assert (E : reshape (cat_dim0 (repeat 1 (c / 2)) (repeat 0 (c - c / 2))) [1; c; 1; 1]%nat
              = Some (mkTensor [1; c; 1; 1]%nat (repeat 1 (c / 2) ++ repeat 0 (c - c / 2)))).
  { apply reshape_some. unfold cat_dim0. cbn [shape numel fold_right].
    rewrite !repeat_length. lia. }
  exists (mkTensor [1; c; 1; 1]%nat (repeat 1 (c / 2) ++ repeat 0 (c - c / 2))).
  unfold create_channel_mask. rewrite E. cbn [obind].
  split; [reflexivity|]. split; [reflexivity|].
  split.
  { unfold wf. cbn [shape data numel fold_right].
    rewrite length_app, !repeat_length. lia. }
  split; [|reflexivity].
  intros k Hk. unfold tget. cbn [shape data ravel numel fold_right].
  replace (0 * (c * (1 * (1 * 1))) + (k * (1 * (1 * 1)) + (0 * (1 * 1) + (0 * 1 + 0))))%nat
    with k by lia.
  apply nth_repeat_app.
Qed.

(** C3 as stated fails for three channels: the code marks one channel, the
    claim two. *)
Lemma create_channel_mask_ceil_counterexample : ~ channel_mask_ceil_spec 3.
Proof.
  intros (m & E & _ & H & _).
  assert (Em : create_channel_mask 3 false = Some (mkTensor [1; 3; 1; 1]%nat [1; 0; 0]))
    by reflexivity.
  rewrite Em in E. injection E as <-.
  specialize (H 1%nat ltac:(lia)). unfold tget in H. cbn in H. lra.
Qed.

(** * Broadcasting *)

Section Broadcast.

Lemma broadcastable_refl (sh : list nat) : broadcastable sh sh.
Proof. induction sh; constructor; auto. Qed.

Lemma broadcastable_length (src sh : list nat) :
  broadcastable src sh -> length src = length sh.
Proof. intros H. induction H; simpl; auto. Qed.

Lemma pad_shape_same (n : nat) (sh : list nat) : length sh = n -> pad_shape n sh = sh.
Proof. intros <-. unfold pad_shape. now rewrite Nat.sub_diag. Qed.

Lemma broadcast_dims_some (src sh : list nat) :
  broadcastable src sh -> broadcast_dims sh src = Some sh.
Proof.
  intros H. induction H as [|ds d src sh Hd _ IH]; simpl.
  - reflexivity.
  - rewrite IH. cbn [obind].
    destruct (Nat.eqb_spec d ds) as [E|E]; [reflexivity|].
    destruct Hd as [->| ->]; [|congruence].
    destruct (Nat.eqb_spec d 1) as [E1|E1]; [congruence|reflexivity].
Qed.

Lemma broadcast_shapes_some (src sh : list nat) :
  broadcastable src sh -> broadcast_shapes sh src = Some sh.
Proof.
  intros H. pose proof (broadcastable_length _ _ H) as Hl.
  unfold broadcast_shapes. rewrite Hl, Nat.max_id.
  rewrite !pad_shape_same by congruence.
  now apply broadcast_dims_some.
Qed.

(** The index read in the source of an expansion stays inside the source. *)
Lemma clamp_idx_bounds (src sh idx : list nat) :
  broadcastable src sh -> Forall2 lt idx sh ->
  Forall2 lt (map2 (fun ds i => if (ds =? 1)%nat then 0%nat else i) src idx) src.
Proof.
  intros H. revert idx. induction H as [|ds d src sh Hd _ IH]; intros idx Hidx.
  - inversion Hidx; subst. constructor.
  - inversion Hidx as [|i d' idx' sh' Hi Hrest]; subst. simpl.
    constructor; [|now apply IH].
    destruct (Nat.eqb_spec ds 1) as [->|E]; [lia|].
    destruct Hd as [->| ->]; [congruence|exact Hi].
Qed.

Lemma clamp_idx_same (sh idx : list nat) :
  Forall2 lt idx sh ->
  map2 (fun ds i => if (ds =? 1)%nat then 0%nat else i) sh idx = idx.
Proof.
  intros H. induction H as [|i d idx sh Hi _ IH]; simpl.
  - reflexivity.
  - rewrite IH. destruct (Nat.eqb_spec d 1) as [->|E]; [f_equal; lia|reflexivity].
Qed.

Context {A : Type} (d : A).

Lemma expand_shape (t : tensor A) (sh : list nat) : shape (expand d t sh) = sh.
Proof. reflexivity. Qed.

Lemma expand_length (t : tensor A) (sh : list nat) :
  length (data (expand d t sh)) = numel sh.
Proof. unfold expand, gather. cbn [data]. now rewrite length_map, length_seq. Qed.

(** Expanding to its own shape leaves a well-formed tensor as it is. *)
Lemma expand_same (t : tensor A) : wf t -> data (expand d t (shape t)) = data t.
Proof.
  intros Hwf. unfold expand, gather. cbn [data].
  rewrite pad_shape_same by reflexivity.
  rewrite <- Hwf. apply map_seq_nth with (d := d).
  intros o Ho. rewrite Hwf in Ho.
  rewrite clamp_idx_same by now apply unravel_bounds.
  now rewrite ravel_unravel.
Qed.

Lemma expand_same_shape (t : tensor A) (sh : list nat) :
  wf t -> shape t = sh -> data (expand d t sh) = data t.
Proof. intros Hwf <-. now apply expand_same. Qed.

(** Every element of an expansion is an element of the source. *)
Lemma expand_nth_in (t : tensor A) (sh : list nat) (o : nat) :
  wf t -> broadcastable (shape t) sh -> (o < numel sh)%nat ->
  exists k : nat, (k < length (data t))%nat /\
    forall d' : A, nth o (data (expand d' t sh)) d' = nth k (data t) d'.
Proof.
  intros Hwf Hb Ho.
  pose proof (broadcastable_length _ _ Hb) as Hl.
  exists (ravel (shape t)
            (map2 (fun ds i => if (ds =? 1)%nat then 0%nat else i) (shape t) (unravel sh o))).
  split.
  - rewrite Hwf. apply ravel_lt, clamp_idx_bounds with (sh := sh); [exact Hb|].
    now apply unravel_bounds.
  - intros d'. unfold expand, gather. cbn [data].
    rewrite pad_shape_same by exact Hl.
    now rewrite nth_map_seq.
Qed.

End Broadcast.

Section BroadcastOps.

Context {A B : Type}.

Lemma expand_tmap (da : A) (db : B) (f : A -> B) (t : tensor A) (sh : list nat) :
  wf t -> broadcastable (shape t) sh ->
  data (expand db (tmap f t) sh) = map f (data (expand da t sh)).
Proof.
  intros Hwf Hb.
  apply (nth_ext _ _ db (f da)).
  - now rewrite length_map, !expand_length.
  - intros o Ho. rewrite expand_length in Ho.
    destruct (expand_nth_in t sh o Hwf Hb Ho) as (k & Hk & E).
    rewrite map_nth, (E da).
    unfold expand, gather. cbn [data shape tmap].
    rewrite nth_map_seq by exact Ho.
    rewrite (nth_indep _ db (f da)).
    + rewrite map_nth. f_equal.
      unfold expand, gather in E. cbn [data] in E.
      specialize (E da). rewrite nth_map_seq in E by exact Ho. exact E.
    + rewrite length_map, Hwf.
      pose proof (broadcastable_length _ _ Hb) as Hl.
      rewrite pad_shape_same by exact Hl.
      apply ravel_lt, clamp_idx_bounds with (sh := sh); [exact Hb|].
      now apply unravel_bounds.
Qed.

End BroadcastOps.

Section TensorOps.

Context {A : Type} (d : A).

Lemma tbin_some (f : A -> A -> A) (a b : tensor A) :
  wf a -> broadcastable (shape b) (shape a) ->
  tbin d f a b =
  Some (mkTensor (shape a) (map2 f (data a) (data (expand d b (shape a))))).
Proof.
  intros Hwf Hb. unfold tbin.
  rewrite (broadcast_shapes_some _ _ Hb). cbn [obind].
  now rewrite expand_same.
Qed.

Lemma tbin_inplace_some (f : A -> A -> A) (a b : tensor A) :
  broadcastable (shape b) (shape a) ->
  tbin_inplace d f a b =
  Some (mkTensor (shape a) (map2 f (data a) (data (expand d b (shape a))))).
Proof.
  intros Hb. unfold tbin_inplace.
  rewrite (broadcast_shapes_some _ _ Hb). cbn [obind].
  destruct (list_eq_dec Nat.eq_dec (shape a) (shape a)); [reflexivity|congruence].
Qed.

End TensorOps.

(** * Slices along the batch dimension *)

Section Slices.

Context {A : Type}.

Lemma slice0_succ (n b : nat) (l : list A) :
  slice0 n l (S b) = slice0 n (skipn n l) b.
Proof.
  unfold slice0. rewrite skipn_skipn. do 2 f_equal. lia.
Qed.

Lemma slice0_length (n B b : nat) (l : list A) :
  length l = (B * n)%nat -> (b < B)%nat -> length (slice0 n l b) = n.
Proof.
  intros Hl Hb. unfold slice0. rewrite length_firstn, length_skipn, Hl. nia.
Qed.

Lemma concat_slices (n B : nat) (l : list A) :
  length l = (B * n)%nat -> concat (map (slice0 n l) (seq 0 B)) = l.
Proof.
  revert l. induction B as [|B IH]; intros l Hl.
  - destruct l; [reflexivity|discriminate].
  - cbn [seq map concat]. rewrite <- seq_shift, map_map.
    rewrite (map_ext _ (slice0 n (skipn n l))) by (intros b; apply slice0_succ).
    rewrite IH by (rewrite length_skipn, Hl; lia).
    unfold slice0. cbn [Nat.mul skipn]. apply firstn_skipn.
Qed.

Lemma length_concat_const (n : nat) (ls : list (list A)) :
  (forall x, In x ls -> length x = n) -> length (concat ls) = (length ls * n)%nat.
Proof.
  induction ls as [|x ls IH]; intros H; cbn [concat length].
  - reflexivity.
  - rewrite length_app, IH by (intros; apply H; simpl; auto).
    rewrite (H x) by (simpl; auto). lia.
Qed.

Lemma slice0_concat (n i : nat) (ls : list (list A)) :
  (forall x, In x ls -> length x = n) -> (i < length ls)%nat ->
  slice0 n (concat ls) i = nth i ls [].
Proof.
  revert i. induction ls as [|x ls IH]; intros i H Hi; cbn [length] in Hi.
  - lia.
  - assert (Hx : length x = n) by (apply H; simpl; auto).
    destruct i as [|i].
    + unfold slice0. cbn [Nat.mul skipn concat nth].
      rewrite firstn_app, Hx, Nat.sub_diag, firstn_O, app_nil_r.
      rewrite <- Hx. apply firstn_all.
    + rewrite slice0_succ. cbn [concat nth].
      rewrite skipn_app, Hx, Nat.sub_diag, <- Hx, skipn_all. cbn [skipn app].
      rewrite Hx. apply IH; [intros; apply H; simpl; auto|lia].
Qed.

Lemma nth_map_slices (n B b : nat) (l : list A) (g : list A -> list A) :
  (b < B)%nat -> nth b (map (fun i => g (slice0 n l i)) (seq 0 B)) [] = g (slice0 n l b).
Proof.
  intros Hb.
  rewrite (nth_indep _ [] (g (slice0 n l (nth b (seq 0 B) 0%nat))))
    by now rewrite length_map, length_seq.
  rewrite (map_nth (fun i => g (slice0 n l i))), seq_nth by exact Hb. reflexivity.
Qed.

End Slices.

Lemma Rsum_app (l1 l2 : list R) : Rsum (l1 ++ l2) = Rsum l1 + Rsum l2.
Proof.
  induction l1 as [|x l1 IH]; simpl.
  - lra.
  - rewrite IH. lra.
Qed.

(** * [chunk] and [cat] along the channel dimension *)

Section ChunkCat.

Context {A : Type}.

Lemma chunk_fst_length (B C n : nat) (l : list A) :
  length l = (B * (2 * C * n))%nat -> length (chunk_fst B C n l) = (B * (C * n))%nat.
Proof.
  intros Hl. unfold chunk_fst.
  rewrite (length_concat_const (C * n)).
  - now rewrite length_map, length_seq.
  - intros x Hx. apply in_map_iff in Hx as (i & <- & Hi). apply in_seq in Hi.
    rewrite length_firstn, (slice0_length _ B) by (auto; lia). lia.
Qed.

Lemma chunk_snd_length (B C n : nat) (l : list A) :
  length l = (B * (2 * C * n))%nat -> length (chunk_snd B C n l) = (B * (C * n))%nat.
Proof.
  intros Hl. unfold chunk_snd.
  rewrite (length_concat_const (C * n)).
  - now rewrite length_map, length_seq.
  - intros x Hx. apply in_map_iff in Hx as (i & <- & Hi). apply in_seq in Hi.
    rewrite length_skipn, (slice0_length _ B) by (auto; lia). lia.
Qed.

Lemma chunk2_dim1_even (t : tensor A) (B C : nat) (rest : list nat) :
  shape t = B :: (2 * C)%nat :: rest ->
  chunk2_dim1 t =
  Some (mkTensor (B :: C :: rest) (chunk_fst B C (numel rest) (data t)),
        mkTensor (B :: C :: rest) (chunk_snd B C (numel rest) (data t))).
Proof.
  intros Hsh. unfold chunk2_dim1. rewrite Hsh.
  destruct (Nat.eqb_spec (2 * C) 1) as [E|_]; [lia|].
  replace ((2 * C + 1) / 2)%nat with C
    by (apply Nat.div_unique with (r := 1%nat); lia).
  replace (2 * C - C)%nat with C by lia.
  unfold chunk_fst, chunk_snd. now rewrite !map_map.
Qed.

(** Concatenating the two chunks gives the tensor back. *)
Lemma cat_chunks (B C n : nat) (l : list A) :
  length l = (B * (2 * C * n))%nat ->
  concat (map (fun i => slice0 (C * n) (chunk_fst B C n l) i
                          ++ slice0 (C * n) (chunk_snd B C n l) i) (seq 0 B)) = l.
Proof.
  intros Hl.
  transitivity (concat (map (slice0 (2 * C * n) l) (seq 0 B)));
    [|now apply concat_slices].
  f_equal. apply map_ext_in. intros i Hi. apply in_seq in Hi.
  unfold chunk_fst, chunk_snd.
  rewrite !slice0_concat.
  - rewrite (nth_map_slices _ B _ _ (firstn (C * n))) by lia.
    rewrite (nth_map_slices _ B _ _ (skipn (C * n))) by lia.
    apply firstn_skipn.
  - intros x Hx. apply in_map_iff in Hx as (j & <- & Hj). apply in_seq in Hj.
    rewrite length_skipn, (slice0_length _ B) by (auto; lia). lia.
  - rewrite length_map, length_seq. lia.
  - intros x Hx. apply in_map_iff in Hx as (j & <- & Hj). apply in_seq in Hj.
    rewrite length_firstn, (slice0_length _ B) by (auto; lia). lia.
  - rewrite length_map, length_seq. lia.
Qed.

Lemma cat_dim1_some (a b : tensor A) (B Ca Cb : nat) (rest : list nat) :
  shape a = B :: Ca :: rest -> shape b = B :: Cb :: rest ->
  cat_dim1 a b =
  Some (mkTensor (B :: (Ca + Cb)%nat :: rest)
          (concat (map (fun i => slice0 (Ca * numel rest) (data a) i
                                   ++ slice0 (Cb * numel rest) (data b) i) (seq 0 B)))).
Proof.
  intros Ha Hb. unfold cat_dim1. rewrite Ha, Hb, Nat.eqb_refl.
  destruct (list_eq_dec Nat.eq_dec rest rest); [reflexivity|congruence].
Qed.

Lemma cat_dim1_length (B Ca Cb n : nat) (la lb : list A) :
  length la = (B * (Ca * n))%nat -> length lb = (B * (Cb * n))%nat ->
  length (concat (map (fun i => slice0 (Ca * n) la i ++ slice0 (Cb * n) lb i) (seq 0 B)))
  = (B * ((Ca + Cb) * n))%nat.
Proof.
  intros Hla Hlb.
  rewrite (length_concat_const ((Ca + Cb) * n)).
  - now rewrite length_map, length_seq.
  - intros x Hx. apply in_map_iff in Hx as (i & <- & Hi). apply in_seq in Hi.
    rewrite length_app, (slice0_length _ B), (slice0_length _ B) by (auto; lia). lia.
Qed.

End ChunkCat.

(** * Sums over a batch element and in-place accumulation *)

Lemma numel_1c11 (k : nat) : numel [1; k; 1; 1]%nat = k.
Proof. cbn [numel fold_right]. lia. Qed.

Lemma sum_dim123_some (B C H W : nat) (t : tensor R) :
  shape t = [B; C; H; W] ->
  sum_dim123 t =
  Some (mkTensor [B] (map (fun b => Rsum (slice0 (C * (H * (W * 1))) (data t) b)) (seq 0 B))).
Proof. intros E. unfold sum_dim123. now rewrite E. Qed.

Lemma inplace_batch (B : nat) (f : R -> R -> R) (ldj : tensor R) (x : list R) :
  shape ldj = [B] -> length x = B ->
  tbin_inplace 0 f ldj (mkTensor [B] x) = Some (mkTensor [B] (map2 f (data ldj) x)).
Proof.
  intros Hl Hx. rewrite tbin_inplace_some.
  - rewrite Hl. do 3 f_equal.
    apply expand_same_shape; [|reflexivity].
    unfold wf. cbn [data shape numel fold_right]. lia.
  - cbn [shape]. rewrite Hl. apply broadcastable_refl.
Qed.

(** * Coupling layer *)

Section Coupling.

Variables (L : CouplingLayer.t) (B C Ci H W : nat) (o : option (tensor R)).
Hypothesis HL : coupling_ok L B C Ci H W.
Hypothesis Ho : orig_img_ok o B Ci H W.

Let N : nat := numel [B; C; H; W].

Lemma mask_x_length : length (mask_x L B C H W) = N.
Proof. apply expand_length. Qed.

Lemma s_fac_x_length : length (s_fac_x L B C H W) = N.
Proof. apply expand_length. Qed.

Lemma nn_in_ok (z_in : list R) :
  length z_in = N -> wf (nn_in B C Ci H W o z_in) /\ shape (nn_in B C Ci H W o z_in) = [B; (C + Ci)%nat; H; W].
Proof.
  intros Hz. unfold nn_in. destruct o as [img|]; cbn in Ho.
  - destruct Ho as [Hwf Hsh]. split; [|reflexivity].
    unfold wf. cbn [shape data]. rewrite (cat_dim1_length B C Ci (numel [H; W])).
    + cbn [numel fold_right]. lia.
    + rewrite Hz. unfold N. cbn [numel fold_right]. lia.
    + rewrite Hwf, Hsh. cbn [numel fold_right]. lia.
  - subst Ci. rewrite Nat.add_0_r. split; [exact Hz|reflexivity].
Qed.

Lemma nn_out_length (z_in : list R) :
  length z_in = N -> length (nn_out L B C Ci H W o z_in) = (B * (2 * C * numel [H; W]))%nat.
Proof.
  intros Hz. destruct (nn_in_ok z_in Hz) as [Hwf Hsh].
  destruct (network_shape _ _ _ _ _ _ HL _ Hwf Hsh) as [Hwf' Hsh'].
  unfold nn_out. rewrite Hwf', Hsh'. cbn [numel fold_right]. lia.
Qed.

Lemma s_of_length (z_in : list R) : length z_in = N -> length (s_of L B C Ci H W o z_in) = N.
Proof.
  intros Hz. unfold s_of.
  rewrite !map2_length, !length_map, map2_length, mask_x_length, s_fac_x_length.
  rewrite chunk_fst_length by now apply nn_out_length.
  unfold N. cbn [numel fold_right]. lia.
Qed.

Lemma t_of_length (z_in : list R) : length z_in = N -> length (t_of L B C Ci H W o z_in) = N.
Proof.
  intros Hz. unfold t_of.
  rewrite map2_length, length_map, mask_x_length.
  rewrite chunk_snd_length by now apply nn_out_length.
  unfold N. cbn [numel fold_right]. lia.
Qed.

Lemma z_in_length (zd : list R) : length zd = N -> length (map2 Rmult zd (mask_x L B C H W)) = N.
Proof. intros Hz. rewrite map2_length, mask_x_length, Hz. apply Nat.min_id. Qed.

Lemma coupled_length (reverse : bool) (zd : list R) :
  length zd = N -> length (coupled L B C Ci H W o reverse zd) = N.
Proof.
  intros Hz. unfold coupled.
  pose proof (s_of_length _ (z_in_length zd Hz)) as Hs.
  pose proof (t_of_length _ (z_in_length zd Hz)) as Ht.
  destruct reverse; repeat (rewrite ?map2_length, ?length_map); rewrite Hz, Hs, Ht; lia.
Qed.

Lemma forward_eq (z ldj : tensor R) (reverse : bool) :
  wf z -> shape z = [B; C; H; W] -> shape ldj = [B] ->
  CouplingLayer.forward L z ldj reverse o =
  Some (mkTensor [B; C; H; W] (coupled L B C Ci H W o reverse (data z)),
        mkTensor [B] (map2 (if reverse then Rminus else Rplus) (data ldj) (s_sums L B C Ci H W o (data z)))).
Proof.
  intros Hwf Hsh Hldj. destruct z as [sh zd]. cbn [shape data] in *. subst sh.
  assert (Hz : length zd = N) by exact Hwf.
  pose proof (z_in_length zd Hz) as Hzin.
  destruct (nn_in_ok _ Hzin) as [Hin_wf Hin_sh].
  destruct (network_shape _ _ _ _ _ _ HL _ Hin_wf Hin_sh) as [Hout_wf Hout_sh].
  unfold CouplingLayer.forward, tmul, tdiv, tadd, tsub, tiadd, tisub.
  (* z_in = z * self.mask *)
  rewrite tbin_some by (try exact Hwf; exact (mask_broadcast _ _ _ _ _ _ HL)).
  cbn [obind shape data]. fold (mask_x L B C H W).
  (* the network input *)
  assert (Enn : match o with
                | Some img => cat_dim1 (mkTensor [B; C; H; W] (map2 Rmult zd (mask_x L B C H W))) img
                | None => Some (mkTensor [B; C; H; W] (map2 Rmult zd (mask_x L B C H W)))
                end = Some (nn_in B C Ci H W o (map2 Rmult zd (mask_x L B C H W)))).
  { unfold nn_in. destruct o as [img|]; [|reflexivity].
    destruct Ho as [_ Hsh]. now apply cat_dim1_some. }
  rewrite Enn. cbn [obind].
  rewrite (chunk2_dim1_even _ B C [H; W] Hout_sh). cbn [obind].
  fold (nn_out L B C Ci H W o (map2 Rmult zd (mask_x L B C H W))).
  (* the stabilized scale *)
  rewrite reshape_some by (rewrite numel_1c11; reflexivity).
  cbn [obind data tmap].
  assert (Hfst : length (chunk_fst B C (numel [H; W]) (nn_out L B C Ci H W o (map2 Rmult zd (mask_x L B C H W)))) = N).
  { rewrite chunk_fst_length by now apply nn_out_length.
    unfold N. cbn [numel fold_right]. lia. }
  assert (Hsnd : length (chunk_snd B C (numel [H; W]) (nn_out L B C Ci H W o (map2 Rmult zd (mask_x L B C H W)))) = N).
  { rewrite chunk_snd_length by now apply nn_out_length.
    unfold N. cbn [numel fold_right]. lia. }
  rewrite tbin_some by (try exact Hfst; exact (scaling_broadcast _ _ _ _ _ _ HL)).
  cbn [obind shape data tmap]. fold (s_fac_x L B C H W).
  rewrite tbin_some;
    [|unfold wf; cbn [shape data tmap]; rewrite length_map, map2_length, Hfst, s_fac_x_length;
      fold N; lia
     |exact (scaling_broadcast _ _ _ _ _ _ HL)].
  cbn [obind shape data tmap]. fold (s_fac_x L B C H W).
  rewrite tbin_some;
    [|unfold wf; cbn [shape data];
      rewrite map2_length, length_map, map2_length, Hfst, s_fac_x_length; fold N; lia
     |exact (mask_broadcast _ _ _ _ _ _ HL)].
  cbn [obind shape data].
  rewrite (expand_tmap 0 0 (fun m => 1 - m) (CouplingLayer.mask L) [B; C; H; W]
             (mask_wf _ _ _ _ _ _ HL) (mask_broadcast _ _ _ _ _ _ HL)).
  fold (mask_x L B C H W). fold (s_of L B C Ci H W o (map2 Rmult zd (mask_x L B C H W))).
  rewrite tbin_some by (try exact Hsnd; exact (mask_broadcast _ _ _ _ _ _ HL)).
  cbn [obind shape data].
  rewrite (expand_tmap 0 0 (fun m => 1 - m) (CouplingLayer.mask L) [B; C; H; W]
             (mask_wf _ _ _ _ _ _ HL) (mask_broadcast _ _ _ _ _ _ HL)).
  fold (mask_x L B C H W). fold (t_of L B C Ci H W o (map2 Rmult zd (mask_x L B C H W))).
  pose proof (s_of_length _ Hzin) as Hs. pose proof (t_of_length _ Hzin) as Ht.
  assert (Hsum : length (s_sums L B C Ci H W o zd) = B) by (unfold s_sums; now rewrite length_map, length_seq).
  destruct reverse; cbn [negb].
  - rewrite tbin_some by (try exact Hwf; cbn [shape tmap]; apply broadcastable_refl).
    cbn [obind shape data tmap].
    rewrite (expand_same_shape 0 _ [B; C; H; W])
      by (try reflexivity; unfold wf; cbn [shape data tmap]; rewrite !length_map, Hs; reflexivity).
    cbn [data].
    rewrite tbin_some;
      [|unfold wf; cbn [shape data tmap]; rewrite map2_length, !length_map, Hz, Hs; fold N; lia
       |cbn [shape]; apply broadcastable_refl].
    cbn [obind shape data].
    rewrite (expand_same_shape 0 _ [B; C; H; W]) by (try reflexivity; exact Ht).
    cbn [data].
    rewrite (sum_dim123_some B C H W) by reflexivity. cbn [obind data].
    fold (s_sums L B C Ci H W o zd).
    rewrite (inplace_batch B) by assumption. reflexivity.
  - rewrite tbin_some by (try exact Hwf; cbn [shape]; apply broadcastable_refl).
    cbn [obind shape data].
    rewrite (expand_same_shape 0 _ [B; C; H; W]) by (try reflexivity; exact Ht).
    cbn [data].
    rewrite tbin_some;
      [|unfold wf; cbn [shape data tmap]; rewrite map2_length, Hz, Ht; fold N; lia
       |cbn [shape tmap]; apply broadcastable_refl].
    cbn [obind shape data tmap].
    rewrite (expand_same_shape 0 _ [B; C; H; W])
      by (try reflexivity; unfold wf; cbn [shape data tmap]; rewrite !length_map, Hs; reflexivity).
    cbn [data].
    rewrite (sum_dim123_some B C H W) by reflexivity. cbn [obind data].
    fold (s_sums L B C Ci H W o zd).
    rewrite (inplace_batch B) by assumption. reflexivity.
Qed.

End Coupling.

Lemma nth_map_lt {A B : Type} (f : A -> B) (l : list A) (d : A) (d' : B) (i : nat) :
  (i < length l)%nat -> nth i (map f l) d' = f (nth i l d).
Proof.
  intros Hi. rewrite (nth_indep _ d' (f d)) by now rewrite length_map.
  apply map_nth.
Qed.

Lemma ldj_cancel (ld x : list R) :
  length x = length ld -> map2 Rminus (map2 Rplus ld x) x = ld.
Proof.
  revert x. induction ld as [|a ld IH]; intros [|b x] Hl; try discriminate; cbn [map2].
  - reflexivity.
  - rewrite IH by (simpl in Hl; lia). f_equal. lra.
Qed.

Section CouplingInverse.

Variables (L : CouplingLayer.t) (B C Ci H W : nat) (o : option (tensor R)).
Hypothesis HL : coupling_ok L B C Ci H W.
Hypothesis Ho : orig_img_ok o B Ci H W.

Let N : nat := numel [B; C; H; W].

Lemma mask_x_binary (i : nat) :
  (i < N)%nat -> nth i (mask_x L B C H W) 0 = 0 \/ nth i (mask_x L B C H W) 0 = 1.
Proof.
  intros Hi.
  destruct (expand_nth_in (CouplingLayer.mask L) [B; C; H; W] i
              (mask_wf _ _ _ _ _ _ HL) (mask_broadcast _ _ _ _ _ _ HL) Hi) as (k & Hk & E).
  unfold mask_x. rewrite (E 0).
  pose proof (mask_binary _ _ _ _ _ _ HL) as Hbin. unfold binary_mask in Hbin.
  rewrite Forall_forall in Hbin. apply Hbin, nth_In, Hk.
Qed.

Lemma s_of_nth (z_in : list R) (i : nat) :
  length z_in = N -> (i < N)%nat ->
  nth i (s_of L B C Ci H W o z_in) 0 =
  tanh (nth i (chunk_fst B C (numel [H; W]) (nn_out L B C Ci H W o z_in)) 0
        / nth i (s_fac_x L B C H W) 0)
  * nth i (s_fac_x L B C H W) 0 * (1 - nth i (mask_x L B C H W) 0).
Proof.
  intros Hz Hi.
  assert (Hfst : length (chunk_fst B C (numel [H; W]) (nn_out L B C Ci H W o z_in)) = N).
  { rewrite chunk_fst_length by now apply (nn_out_length L B C Ci H W o HL Ho).
    unfold N. cbn [numel fold_right]. lia. }
  pose proof (mask_x_length L B C H W) as Hm.
  pose proof (s_fac_x_length L B C H W) as Hf. fold N in Hm, Hf.
  unfold s_of.
  rewrite (map2_nth _ _ _ 0 0 0);
    [|rewrite map2_length, length_map, map2_length; lia|rewrite length_map; lia].
  rewrite (map2_nth _ _ _ 0 0 0); [|rewrite length_map, map2_length; lia|lia].
  rewrite (nth_map_lt _ _ 0) by (rewrite map2_length; lia).
  rewrite (map2_nth _ _ _ 0 0 0) by lia.
  rewrite (nth_map_lt _ _ 0) by lia. reflexivity.
Qed.

Lemma t_of_nth (z_in : list R) (i : nat) :
  length z_in = N -> (i < N)%nat ->
  nth i (t_of L B C Ci H W o z_in) 0 =
  nth i (chunk_snd B C (numel [H; W]) (nn_out L B C Ci H W o z_in)) 0
  * (1 - nth i (mask_x L B C H W) 0).
Proof.
  intros Hz Hi.
  assert (Hsnd : length (chunk_snd B C (numel [H; W]) (nn_out L B C Ci H W o z_in)) = N).
  { rewrite chunk_snd_length by now apply (nn_out_length L B C Ci H W o HL Ho).
    unfold N. cbn [numel fold_right]. lia. }
  pose proof (mask_x_length L B C H W) as Hm. fold N in Hm.
  unfold t_of.
  rewrite (map2_nth _ _ _ 0 0 0); [|lia|rewrite length_map; lia].
  rewrite (nth_map_lt _ _ 0) by lia. reflexivity.
Qed.

Lemma coupled_nth (reverse : bool) (zd : list R) (i : nat) :
  length zd = N -> (i < N)%nat ->
  nth i (coupled L B C Ci H W o reverse zd) 0 =
  let s := nth i (s_of L B C Ci H W o (map2 Rmult zd (mask_x L B C H W))) 0 in
  let t := nth i (t_of L B C Ci H W o (map2 Rmult zd (mask_x L B C H W))) 0 in
  if reverse then nth i zd 0 * exp (- s) - t else (nth i zd 0 + t) * exp s.
Proof.
  intros Hz Hi. cbv zeta.
  pose proof (z_in_length L B C H W zd Hz) as Hzin.
  pose proof (s_of_length L B C Ci H W o HL Ho _ Hzin) as Hs.
  pose proof (t_of_length L B C Ci H W o HL Ho _ Hzin) as Ht.
  fold N in Hs, Ht.
  unfold coupled. destruct reverse.
  - rewrite (map2_nth _ _ _ 0 0 0); [|rewrite map2_length, !length_map; lia|lia].
    rewrite (map2_nth _ _ _ 0 0 0); [|lia|rewrite !length_map; lia].
    rewrite (nth_map_lt _ _ 0) by (rewrite length_map; lia).
    rewrite (nth_map_lt _ _ 0) by lia. reflexivity.
  - rewrite (map2_nth _ _ _ 0 0 0); [|rewrite map2_length; lia|rewrite length_map; lia].
    rewrite (map2_nth _ _ _ 0 0 0) by lia.
    rewrite (nth_map_lt _ _ 0) by lia. reflexivity.
Qed.

(** Where the mask is 1 the scale and the translation vanish. *)
Lemma coupled_masked (reverse : bool) (zd : list R) (i : nat) :
  length zd = N -> (i < N)%nat -> nth i (mask_x L B C H W) 0 = 1 ->
  nth i (coupled L B C Ci H W o reverse zd) 0 = nth i zd 0.
Proof.
  intros Hz Hi Hm.
  pose proof (z_in_length L B C H W zd Hz) as Hzin.
  rewrite coupled_nth by assumption. cbv zeta.
  rewrite s_of_nth, t_of_nth by assumption. rewrite Hm.
  replace (1 - 1) with 0 by lra. rewrite !Rmult_0_r, Ropp_0, exp_0.
  destruct reverse; lra.
Qed.

(** The network sees the same input after either direction. *)
Lemma z_in_invariant (reverse : bool) (zd : list R) :
  length zd = N ->
  map2 Rmult (coupled L B C Ci H W o reverse zd) (mask_x L B C H W)
  = map2 Rmult zd (mask_x L B C H W).
Proof.
  intros Hz.
  pose proof (coupled_length L B C Ci H W o HL Ho reverse zd Hz) as Hc.
  pose proof (mask_x_length L B C H W) as Hm. fold N in Hc, Hm.
  apply (nth_ext _ _ 0 0).
  - rewrite !map2_length. lia.
  - intros i Hi. rewrite map2_length in Hi.
    rewrite !(map2_nth _ _ _ 0 0 0) by lia.
    destruct (mask_x_binary i ltac:(lia)) as [E|E].
    + rewrite E. lra.
    + rewrite coupled_masked by (assumption || lia). reflexivity.
Qed.

Lemma coupled_inverse (zd : list R) :
  length zd = N ->
  coupled L B C Ci H W o true (coupled L B C Ci H W o false zd) = zd.
Proof.
  intros Hz.
  pose proof (coupled_length L B C Ci H W o HL Ho false zd Hz) as Hc. fold N in Hc.
  pose proof (coupled_length L B C Ci H W o HL Ho true _ Hc) as Hc'. fold N in Hc'.
  apply (nth_ext _ _ 0 0); [lia|].
  intros i Hi. rewrite Hc' in Hi.
  rewrite coupled_nth by assumption. cbv zeta.
  rewrite z_in_invariant by assumption.
  rewrite coupled_nth by assumption. cbv zeta.
  set (s := nth i (s_of L B C Ci H W o (map2 Rmult zd (mask_x L B C H W))) 0).
  set (t := nth i (t_of L B C Ci H W o (map2 Rmult zd (mask_x L B C H W))) 0).
  rewrite Rmult_assoc, <- exp_plus, Rplus_opp_r, exp_0. lra.
Qed.

Lemma s_sums_invariant (reverse : bool) (zd : list R) :
  length zd = N ->
  s_sums L B C Ci H W o (coupled L B C Ci H W o reverse zd) = s_sums L B C Ci H W o zd.
Proof. intros Hz. unfold s_sums. now rewrite z_in_invariant. Qed.

End CouplingInverse.

(** C1.  For a 0/1 mask, [CouplingLayer.forward] with [reverse=False]
    followed by [reverse=True] on the same layer returns the input [z]
    exactly; the forward direction adds to [ldj] the increment that the
    reverse direction subtracts, so that the two increments sum to zero and
    the accumulator comes back; and both directions leave the positions
    where the mask is 1 unchanged. *)
Theorem coupling_forward_reverse (L : CouplingLayer.t) (B C Ci H W : nat)
    (o : option (tensor R)) (z ldj : tensor R) :
  coupling_ok L B C Ci H W -> orig_img_ok o B Ci H W ->
  wf z -> shape z = [B; C; H; W] -> wf ldj -> shape ldj = [B] ->
  exists (z' : tensor R) (inc : list R),
    CouplingLayer.forward L z ldj false o
      = Some (z', mkTensor [B] (map2 Rplus (data ldj) inc)) /\
    (forall l : tensor R, shape l = [B] ->
       CouplingLayer.forward L z' l true o
         = Some (z, mkTensor [B] (map2 Rminus (data l) inc))) /\
    CouplingLayer.forward L z' (mkTensor [B] (map2 Rplus (data ldj) inc)) true o
      = Some (z, ldj) /\
    (forall idx : list nat, Forall2 lt idx [B; C; H; W] ->
       tget 0 (expand 0 (CouplingLayer.mask L) [B; C; H; W]) idx = 1 ->
       tget 0 z' idx = tget 0 z idx) /\
    (forall (x l x' l' : tensor R),
       wf x -> shape x = [B; C; H; W] -> shape l = [B] ->
       CouplingLayer.forward L x l true o = Some (x', l') ->
       forall idx : list nat, Forall2 lt idx [B; C; H; W] ->
         tget 0 (expand 0 (CouplingLayer.mask L) [B; C; H; W]) idx = 1 ->
         tget 0 x' idx = tget 0 x idx).
Proof.
  intros HL Ho Hwf Hsh Hlwf Hlsh.
  assert (Hz : length (data z) = numel [B; C; H; W]) by (rewrite <- Hsh; exact Hwf).
  pose proof (coupled_length L B C Ci H W o HL Ho false _ Hz) as Hc.
  assert (Hinc : length (s_sums L B C Ci H W o (data z)) = length (data ldj)).
  { unfold s_sums. rewrite length_map, length_seq, Hlwf, Hlsh.
    cbn [numel fold_right]. lia. }
  exists (mkTensor [B; C; H; W] (coupled L B C Ci H W o false (data z))),
         (s_sums L B C Ci H W o (data z)).
  assert (Hrev : forall l : tensor R, shape l = [B] ->
            CouplingLayer.forward L
              (mkTensor [B; C; H; W] (coupled L B C Ci H W o false (data z))) l true o
            = Some (z, mkTensor [B] (map2 Rminus (data l) (s_sums L B C Ci H W o (data z))))).
  { intros l Hl.
    rewrite (forward_eq L B C Ci H W o HL Ho) by (try reflexivity; assumption).
    cbn [data].
    rewrite (coupled_inverse L B C Ci H W o HL Ho) by exact Hz.
    rewrite (s_sums_invariant L B C Ci H W o HL Ho) by exact Hz.
    destruct z as [sh zd]. cbn [shape data] in *. now subst sh. }
  split; [|split; [|split; [|split]]].
  - now apply (forward_eq L B C Ci H W o HL Ho).
  - exact Hrev.
  - rewrite Hrev by reflexivity. cbn [data].
    rewrite ldj_cancel by exact Hinc.
    destruct ldj as [lsh ld]. cbn [shape data] in *. now subst lsh.
  - intros idx Hidx Hm. unfold tget in *. cbn [shape data] in *. rewrite Hsh.
    apply (coupled_masked L B C Ci H W o HL Ho); [exact Hz|now apply ravel_lt|exact Hm].
  - intros x l x' l' Hxwf Hxsh Hl E idx Hidx Hm.
    rewrite (forward_eq L B C Ci H W o HL Ho) in E by assumption.
    injection E as <- <-.
    unfold tget in *. cbn [shape data] in *. rewrite Hxsh.
    apply (coupled_masked L B C Ci H W o HL Ho true (data x) (ravel [B; C; H; W] idx));
      [rewrite <- Hxsh; exact Hxwf|now apply ravel_lt|exact Hm].
Qed.

Lemma example_layer_ok : coupling_ok example_layer 1 1 0 1 2.
Proof.
  split; cbn [example_layer CouplingLayer.mask CouplingLayer.network
              CouplingLayer.scaling_factor shape data].
  - reflexivity.
  - apply broadcastable_refl.
  - constructor; [right; reflexivity|].
    constructor; [left; reflexivity|constructor].
  - reflexivity.
  - repeat constructor.
  - intros x Hwf Hsh. split; [|reflexivity].
    unfold wf in *. cbn [shape data]. rewrite length_app, Hwf, Hsh. reflexivity.
Qed.

Lemma cross_layer_ok : coupling_ok cross_layer 1 1 0 1 2.
Proof.
  split; cbn [cross_layer CouplingLayer.mask CouplingLayer.network
              CouplingLayer.scaling_factor shape data].
  - reflexivity.
  - apply broadcastable_refl.
  - constructor; [right; reflexivity|].
    constructor; [left; reflexivity|constructor].
  - reflexivity.
  - repeat constructor.
  - intros x Hwf Hsh. split; [|reflexivity].
    unfold wf in *. cbn [shape data]. rewrite length_app, length_rev, Hwf, Hsh. reflexivity.
Qed.

Lemma cross_layer2_ok : coupling_ok cross_layer2 1 1 0 1 2.
Proof.
  split; cbn [cross_layer2 CouplingLayer.mask CouplingLayer.network
              CouplingLayer.scaling_factor shape data].
  - reflexivity.
  - apply broadcastable_refl.
  - constructor; [left; reflexivity|].
    constructor; [right; reflexivity|constructor].
  - reflexivity.
  - repeat constructor.
  - intros x Hwf Hsh. split; [|reflexivity].
    unfold wf in *. cbn [shape data].
    rewrite length_app, length_map, length_rev, Hwf, Hsh. reflexivity.
Qed.

(** What [cross_layer] does to the pixels 3 and 5: the masked pixel 3 is the
    scale (after [tanh]) and the translation of the other one. *)
Lemma cross_layer_forward :
  CouplingLayer.forward cross_layer (mkTensor [1; 1; 1; 2]%nat [3; 5])
    (mkTensor [1]%nat [7]) false None
  = Some (mkTensor [1; 1; 1; 2]%nat [3; (5 + 3) * exp (tanh 3)],
          mkTensor [1]%nat [7 + tanh 3]).
Proof.
  rewrite (forward_eq cross_layer 1 1 0 1 2 None cross_layer_ok eq_refl)
    by reflexivity.
  cbv -[Rplus Rminus Rmult Rdiv Ropp Rinv IZR exp ln tanh].
  rewrite exp_0.
  replace (3 * 1 / 1) with 3 by lra.
  replace (tanh (5 * 0 / 1) * 1 * (1 - 1)) with 0 by lra.
  replace (tanh 3 * 1 * (1 - 0)) with (tanh 3) by lra.
  rewrite exp_0.
  replace ((3 + 5 * 0 * (1 - 1)) * 1) with 3 by lra.
  replace (5 + 3 * 1 * (1 - 0)) with (5 + 3) by lra.
  replace (0 + (tanh 3 + 0)) with (tanh 3) by lra.
  reflexivity.
Qed.

Lemma coupling_forward_reverse_witness :
  let L := cross_layer in
  let z := mkTensor [1; 1; 1; 2]%nat [3; 5] in
  let ldj := mkTensor [1]%nat [7] in
  exists (z' : tensor R) (inc : list R),
    CouplingLayer.forward L z ldj false None
      = Some (z', mkTensor [1]%nat (map2 Rplus (data ldj) inc)) /\
    (forall l : tensor R, shape l = [1]%nat ->
       CouplingLayer.forward L z' l true None
         = Some (z, mkTensor [1]%nat (map2 Rminus (data l) inc))) /\
    CouplingLayer.forward L z' (mkTensor [1]%nat (map2 Rplus (data ldj) inc)) true None
      = Some (z, ldj) /\
    (forall idx : list nat, Forall2 lt idx [1; 1; 1; 2]%nat ->
       tget 0 (expand 0 (CouplingLayer.mask L) [1; 1; 1; 2]%nat) idx = 1 ->
       tget 0 z' idx = tget 0 z idx) /\
    (forall (x l x' l' : tensor R),
       wf x -> shape x = [1; 1; 1; 2]%nat -> shape l = [1]%nat ->
       CouplingLayer.forward L x l true None = Some (x', l') ->
       forall idx : list nat, Forall2 lt idx [1; 1; 1; 2]%nat ->
         tget 0 (expand 0 (CouplingLayer.mask L) [1; 1; 1; 2]%nat) idx = 1 ->
         tget 0 x' idx = tget 0 x idx).
Proof.
  apply (coupling_forward_reverse cross_layer 1 1 0 1 2 None
           (mkTensor [1; 1; 1; 2]%nat [3; 5]) (mkTensor [1]%nat [7])).
  - exact cross_layer_ok.
  - reflexivity.
  - reflexivity.
  - reflexivity.
  - reflexivity.
  - reflexivity.
Defined.

(** * Split *)

Section ChunkMap.

Context {A B' : Type} (f : A -> B').

Lemma slice0_map (n b : nat) (l : list A) : map f (slice0 n l b) = slice0 n (map f l) b.
Proof. unfold slice0. now rewrite skipn_map, firstn_map. Qed.

Lemma chunk_fst_map (B C n : nat) (l : list A) :
  map f (chunk_fst B C n l) = chunk_fst B C n (map f l).
Proof.
  unfold chunk_fst. rewrite concat_map, map_map. f_equal.
  apply map_ext. intros i. now rewrite <- firstn_map, slice0_map.
Qed.

Lemma chunk_snd_map (B C n : nat) (l : list A) :
  map f (chunk_snd B C n l) = chunk_snd B C n (map f l).
Proof.
  unfold chunk_snd. rewrite concat_map, map_map. f_equal.
  apply map_ext. intros i. now rewrite <- skipn_map, slice0_map.
Qed.

End ChunkMap.

Section ChunkSlices.

Context {A : Type}.

Lemma slice0_chunk_fst (B C n b : nat) (l : list A) :
  length l = (B * (2 * C * n))%nat -> (b < B)%nat ->
  slice0 (C * n) (chunk_fst B C n l) b = firstn (C * n) (slice0 (2 * C * n) l b).
Proof.
  intros Hl Hb. unfold chunk_fst. rewrite slice0_concat.
  - now apply (nth_map_slices _ B _ _ (firstn (C * n))).
  - intros x Hx. apply in_map_iff in Hx as (j & <- & Hj). apply in_seq in Hj.
    rewrite length_firstn, (slice0_length _ B) by (auto; lia). lia.
  - now rewrite length_map, length_seq.
Qed.

Lemma slice0_chunk_snd (B C n b : nat) (l : list A) :
  length l = (B * (2 * C * n))%nat -> (b < B)%nat ->
  slice0 (C * n) (chunk_snd B C n l) b = skipn (C * n) (slice0 (2 * C * n) l b).
Proof.
  intros Hl Hb. unfold chunk_snd. rewrite slice0_concat.
  - now apply (nth_map_slices _ B _ _ (skipn (C * n))).
  - intros x Hx. apply in_map_iff in Hx as (j & <- & Hj). apply in_seq in Hj.
    rewrite length_skipn, (slice0_length _ B) by (auto; lia). lia.
  - now rewrite length_map, length_seq.
Qed.

End ChunkSlices.

(** The sum over a batch element is the sum over its two halves. *)
Lemma Rsum_chunks (B C n b : nat) (l : list R) :
  length l = (B * (2 * C * n))%nat -> (b < B)%nat ->
  Rsum (slice0 (C * n) (chunk_fst B C n l) b) + Rsum (slice0 (C * n) (chunk_snd B C n l) b)
  = Rsum (slice0 (2 * C * n) l b).
Proof.
  intros Hl Hb.
  rewrite slice0_chunk_fst, slice0_chunk_snd by assumption.
  now rewrite <- Rsum_app, firstn_skipn.
Qed.

Lemma map2_map_seq {A B' C' : Type} (f : A -> B' -> C') (g : nat -> A) (h : nat -> B')
    (n : nat) :
  map2 f (map g (seq 0 n)) (map h (seq 0 n)) = map (fun i => f (g i) (h i)) (seq 0 n).
Proof.
  generalize 0%nat. induction n as [|n IH]; intros s; cbn [seq map map2].
  - reflexivity.
  - now rewrite IH.
Qed.

Lemma split_forward_general (self : SplitFlow.t) (B C H W : nat) (x l : tensor R) (g : rng) :
  shape x = [B; C; H; W] -> C <> 1%nat -> shape l = [B] ->
  exists x1 x_split lp : tensor R,
    chunk2_dim1 x = Some (x1, x_split) /\
    sum_dim123 (tmap (log_prob (SplitFlow.prior self)) x_split) = Some lp /\
    SplitFlow.forward self x l false g
      = Some ((x1, mkTensor [B] (map2 Rplus (data l) (data lp))), g).
Proof.
  intros Hsh HC Hl.
  assert (Hchunk : exists x1 x2 : tensor R,
             chunk2_dim1 x = Some (x1, x2) /\ shape x2 = [B; (C - (C + 1) / 2)%nat; H; W]).
  { unfold chunk2_dim1. rewrite Hsh.
    destruct (Nat.eqb_spec C 1) as [E|_]; [contradiction|].
    do 2 eexists. split; reflexivity. }
  destruct Hchunk as (x1 & x2 & Hchunk & Hsh2).
  pose proof (sum_dim123_some B _ H W (tmap (log_prob (SplitFlow.prior self)) x2) Hsh2) as Hs.
  exists x1, x2. eexists. split; [exact Hchunk|]. split; [exact Hs|].
  unfold SplitFlow.forward, bind, lift, ret. cbn [negb].
  rewrite Hchunk, Hs. unfold tiadd.
  rewrite (inplace_batch B) by (assumption || now rewrite length_map, length_seq).
  reflexivity.
Qed.

Lemma split_reverse_general (self : SplitFlow.t) (B C H W : nat) (x l : tensor R) (g1 : rng) :
  shape x = [B; C; H; W] -> shape l = [B] ->
  SplitFlow.forward self x l true g1
  = Some ((mkTensor [B; (C + C)%nat; H; W]
             (concat (map (fun i => slice0 (C * numel [H; W]) (data x) i
                        ++ slice0 (C * numel [H; W])
                             (map (fun v => loc (SplitFlow.prior self)
                                            + scale (SplitFlow.prior self) * v)
                                (map g1 (seq 0 (numel [B; C; H; W])))) i)
                        (seq 0 B))),
           mkTensor [B]
             (map2 Rminus (data l)
                (map (fun b => Rsum (slice0 (C * (H * (W * 1)))
                         (map (log_prob (SplitFlow.prior self))
                            (map (fun v => loc (SplitFlow.prior self)
                                           + scale (SplitFlow.prior self) * v)
                               (map g1 (seq 0 (numel [B; C; H; W]))))) b))
                   (seq 0 B)))),
          fun i => g1 (numel [B; C; H; W] + i)%nat).
Proof.
  intros Hx Hl.
  unfold SplitFlow.forward, bind, lift, ret, sample, draw. cbn [negb].
  rewrite Hx.
  rewrite (cat_dim1_some x _ B C C [H; W]) by (try reflexivity; exact Hx).
  cbn [tmap data shape].
  rewrite (sum_dim123_some B C H W) by reflexivity.
  unfold tisub. cbn [data].
  rewrite (inplace_batch B) by (assumption || now rewrite length_map, length_seq).
  reflexivity.
Qed.

(** C5.  The forward direction of [SplitFlow] keeps the first chunk of
    channels and adds to [ldj] the prior log-probability of the chunk it
    splits off; the reverse direction appends a sample of the prior and
    subtracts its log-probability.  On a tensor [z] with an even number [2C]
    of channels: when the sample is the half that was split off, the reverse
    direction returns the input and the accumulator, so the two contributions
    cancel; and the accumulator after the forward direction plus the
    log-probability of the kept half is the accumulator before it plus the
    log-probability of the whole tensor. *)
Theorem split_accounting (self : SplitFlow.t) (B C H W : nat) (z ldj : tensor R) (g : rng) :
  wf z -> shape z = [B; (2 * C)%nat; H; W] -> wf ldj -> shape ldj = [B] ->
  (forall (Cx : nat) (x l : tensor R) (g1 : rng),
     shape x = [B; Cx; H; W] -> Cx <> 1%nat -> shape l = [B] ->
     exists x1 x_split lp : tensor R,
       chunk2_dim1 x = Some (x1, x_split) /\
       sum_dim123 (tmap (log_prob (SplitFlow.prior self)) x_split) = Some lp /\
       SplitFlow.forward self x l false g1
         = Some ((x1, mkTensor [B] (map2 Rplus (data l) (data lp))), g1)) /\
  (forall (Cx : nat) (x l : tensor R) (g1 : rng),
     shape x = [B; Cx; H; W] -> shape l = [B] ->
     exists (x_split lpx zc : tensor R) (g2 : rng),
       sample (SplitFlow.prior self) (shape x) g1 = Some (x_split, g2) /\
       sum_dim123 (tmap (log_prob (SplitFlow.prior self)) x_split) = Some lpx /\
       cat_dim1 x x_split = Some zc /\
       SplitFlow.forward self x l true g1
         = Some ((zc, mkTensor [B] (map2 Rminus (data l) (data lpx))), g2)) /\
  exists z1 z_split lp_split lp1 lpz : tensor R,
    chunk2_dim1 z = Some (z1, z_split) /\
    sum_dim123 (tmap (log_prob (SplitFlow.prior self)) z_split) = Some lp_split /\
    sum_dim123 (tmap (log_prob (SplitFlow.prior self)) z1) = Some lp1 /\
    sum_dim123 (tmap (log_prob (SplitFlow.prior self)) z) = Some lpz /\
    SplitFlow.forward self z ldj false g
      = Some ((z1, mkTensor [B] (map2 Rplus (data ldj) (data lp_split))), g) /\
    (forall g1 g2 : rng,
       sample (SplitFlow.prior self) (shape z1) g1 = Some (z_split, g2) ->
       SplitFlow.forward self z1 (mkTensor [B] (map2 Rplus (data ldj) (data lp_split))) true g1
         = Some ((z, ldj), g2)) /\
    map2 Rplus (map2 Rplus (data ldj) (data lp_split)) (data lp1)
      = map2 Rplus (data ldj) (data lpz).
Proof.
  intros Hwf Hsh Hlwf Hlsh.
  split; [intros Cx x l g1; apply split_forward_general|].
  split.
  { intros Cx x l g1 Hx Hl. do 4 eexists.
    split; [unfold sample, draw; reflexivity|].
    split; [rewrite Hx; apply (sum_dim123_some B Cx H W); reflexivity|].
    split; [rewrite Hx; apply (cat_dim1_some x _ B Cx Cx [H; W]); [exact Hx|reflexivity]|].
    rewrite (split_reverse_general self B Cx H W x l g1 Hx Hl), Hx. reflexivity. }
  set (p := SplitFlow.prior self).
  assert (Hlen : length (data z) = (B * (2 * C * numel [H; W]))%nat).
  { rewrite Hwf, Hsh. cbn [numel fold_right]. lia. }
  assert (Hld : length (data ldj) = B).
  { rewrite Hlwf, Hlsh. cbn [numel fold_right]. lia. }
  pose proof (chunk2_dim1_even z B C [H; W] Hsh) as Hchunk.
  set (z1 := mkTensor [B; C; H; W] (chunk_fst B C (numel [H; W]) (data z))) in *.
  set (z2 := mkTensor [B; C; H; W] (chunk_snd B C (numel [H; W]) (data z))) in *.
  pose proof (sum_dim123_some B C H W (tmap (log_prob p) z2) eq_refl) as Hs2.
  pose proof (sum_dim123_some B C H W (tmap (log_prob p) z1) eq_refl) as Hs1.
  pose proof (sum_dim123_some B (2 * C) H W (tmap (log_prob p) z) Hsh) as Hsz.
  eexists z1, z2, _, _, _.
  split; [exact Hchunk|]. split; [exact Hs2|]. split; [exact Hs1|]. split; [exact Hsz|].
  split.
  { unfold SplitFlow.forward, bind, lift, ret. cbn [negb].
    rewrite Hchunk. fold p. rewrite Hs2. unfold tiadd.
    rewrite (inplace_batch B) by (assumption || now rewrite length_map, length_seq).
    reflexivity. }
  split.
  { intros g1 g2 Hsample.
    rewrite (split_reverse_general self B C H W) by reflexivity. fold p.
    unfold sample, draw in Hsample. cbn [shape z1] in Hsample.
    injection Hsample as Hdata Hg. subst g2.
    change (B * (C * (H * (W * 1))))%nat with (numel [B; C; H; W]) in Hdata.
    fold p in Hdata. rewrite Hdata. cbn [data z1].
    rewrite cat_chunks by exact Hlen.
    change (map (log_prob p) (chunk_snd B C (numel [H; W]) (data z)))
      with (data (tmap (log_prob p) z2)).
    rewrite ldj_cancel by (rewrite length_map, length_seq; lia).
    replace (C + C)%nat with (2 * C)%nat by lia.
    destruct z as [zsh zd], ldj as [lsh ld]. cbn [shape data] in *. now subst. }
  cbn [data tmap z1 z2].
  rewrite <- (map_seq_nth (fun i => nth i (data ldj) 0) (data ldj) 0 (fun _ _ => eq_refl)).
  rewrite Hld, !map2_map_seq. apply map_ext_in. intros b Hb. apply in_seq in Hb.
  rewrite Rplus_assoc. f_equal.
  rewrite chunk_fst_map, chunk_snd_map.
  rewrite Rplus_comm.
  change (C * (H * (W * 1)))%nat with (C * numel [H; W])%nat.
  change (2 * C * (H * (W * 1)))%nat with (2 * C * numel [H; W])%nat.
  apply Rsum_chunks; [now rewrite length_map|lia].
Qed.

Lemma split_accounting_witness :
  let self := SplitFlow.init in
  let z := mkTensor [1; 2; 1; 1]%nat [1; 2] in
  let ldj := mkTensor [1]%nat [0] in
  exists z1 z_split lp_split lp1 lpz : tensor R,
    chunk2_dim1 z = Some (z1, z_split) /\
    sum_dim123 (tmap (log_prob (SplitFlow.prior self)) z_split) = Some lp_split /\
    sum_dim123 (tmap (log_prob (SplitFlow.prior self)) z1) = Some lp1 /\
    sum_dim123 (tmap (log_prob (SplitFlow.prior self)) z) = Some lpz /\
    SplitFlow.forward self z ldj false (fun _ => 0)
      = Some ((z1, mkTensor [1]%nat (map2 Rplus (data ldj) (data lp_split))), fun _ => 0) /\
    (forall g1 g2 : rng,
       sample (SplitFlow.prior self) (shape z1) g1 = Some (z_split, g2) ->
       SplitFlow.forward self z1 (mkTensor [1]%nat (map2 Rplus (data ldj) (data lp_split)))
         true g1
       = Some ((z, ldj), g2)) /\
    map2 Rplus (map2 Rplus (data ldj) (data lp_split)) (data lp1)
      = map2 Rplus (data ldj) (data lpz).
Proof.
  exact (proj2 (proj2 (split_accounting SplitFlow.init 1 1 1 1
                         (mkTensor [1; 2; 1; 1]%nat [1; 2]) (mkTensor [1]%nat [0])
                         (fun _ => 0) eq_refl eq_refl eq_refl eq_refl))).
Defined.

(** * Dequantization *)

Section DequantScalars.

Lemma clamp_bounds (x : R) : 0 <= clamp 0 255 x <= 255.
Proof.
  unfold clamp, Rmin, Rmax.
  destruct (Rle_dec x 0), (Rle_dec _ 255); lra.
Qed.

Lemma clamp_IZR (k : Z) : clamp 0 255 (IZR k) = IZR (Z.min (Z.max k 0) 255).
Proof.
  unfold clamp.
  assert (E : Rmax (IZR k) 0 = IZR (Z.max k 0)).
  { destruct (Z.max_spec k 0) as [[Hk ->]|[Hk ->]].
    - apply Rmax_right. apply IZR_le. lia.
    - apply Rmax_left. apply IZR_le. lia. }
  rewrite E.
  destruct (Z.min_spec (Z.max k 0) 255) as [[Hk ->]|[Hk ->]].
  - apply Rmin_left. apply IZR_le. lia.
  - apply Rmin_right. apply IZR_le. lia.
Qed.

Lemma Ztrunc_IZR_nonneg (k : Z) : (0 <= k)%Z -> Ztrunc (IZR k) = k.
Proof.
  intros Hk. unfold Ztrunc.
  destruct (Rlt_dec (IZR k) 0) as [Hlt|_].
  - apply lt_IZR in Hlt. lia.
  - apply ZfloorZ.
Qed.

(** The pixel value written by the sampling direction: floor, clamp, cast. *)
Lemma quantize_eq (y : R) :
  Ztrunc (clamp 0 255 (IZR (Zfloor y))) = Z.min (Z.max (Zfloor y) 0) 255.
Proof. rewrite clamp_IZR. apply Ztrunc_IZR_nonneg. lia. Qed.

Lemma quantize_range (y : R) : (0 <= Ztrunc (clamp 0 255 (IZR (Zfloor y))) <= 255)%Z.
Proof. rewrite quantize_eq. lia. Qed.

(** [torch.sigmoid] inverts the logit on the open unit interval. *)
Lemma sigmoid_logit (x : R) : 0 < x < 1 -> torch_sigmoid (ln x - ln (1 - x)) = x.
Proof.
  intros [H0 H1]. unfold torch_sigmoid.
  replace (- (ln x - ln (1 - x))) with (ln (1 - x) + - ln x) by lra.
  rewrite exp_plus, exp_Ropp, !exp_ln by lra.
  field. lra.
Qed.

Lemma blend_unit (alpha v u : R) :
  0 < alpha < 1 -> 0 <= v <= 255 -> 0 <= u < 1 ->
  0 < (v + u) / 256 * (1 - alpha) + 0.5 * alpha < 1.
Proof. intros Ha Hv Hu. split; nra. Qed.

Lemma dequant_scalar_roundtrip (alpha : R) (v : Z) (u : R) :
  0 < alpha <= 1 / 128 -> (0 <= v <= 255)%Z -> 0 <= u < 1 ->
  let x := (IZR v + u) / 256 * (1 - alpha) + 0.5 * alpha in
  let r := Ztrunc (clamp 0 255 (IZR (Zfloor (torch_sigmoid (ln x - ln (1 - x)) * 256)))) in
  (Z.abs (r - v) <= 1)%Z /\
  (IZR v <= blended alpha (IZR v) u < IZR v + 1 -> r = v).
Proof.
  intros Ha Hv Hu x r.
  assert (Hv' : 0 <= IZR v <= 255) by (split; apply IZR_le; lia).
  assert (Hx : 0 < x < 1) by (apply blend_unit; lra).
  assert (Ey : torch_sigmoid (ln x - ln (1 - x)) * 256 = blended alpha (IZR v) u).
  { rewrite sigmoid_logit by exact Hx. unfold x, blended. lra. }
  unfold r. rewrite Ey, quantize_eq.
  set (y := blended alpha (IZR v) u).
  assert (Hy : IZR v - 1 <= y < IZR v + 2) by (unfold y, blended; split; nra).
  pose proof (Zfloor_bound y) as Hf.
  assert (Hlo : (v - 1 <= Zfloor y)%Z).
  { apply Zfloor_lub. rewrite minus_IZR. lra. }
  assert (Hhi : (Zfloor y < v + 2)%Z).
  { apply lt_IZR. rewrite plus_IZR. lra. }
  split; [lia|].
  intros Hin. rewrite (Zfloor_eq v y Hin). lia.
Qed.

End DequantScalars.

Section DequantTensors.

Variables (B C H W : nat).

Let N : nat := numel [B; C; H; W].

Lemma to_float32_shape (z : Tensor) : shape (to_float32 z) = Tshape z.
Proof. destruct z; reflexivity. Qed.

Lemma batch_sums_length (l : list R) : length (batch_sums B C H W l) = B.
Proof. unfold batch_sums. now rewrite length_map, length_seq. Qed.

Lemma sigmoid_forward_eq (alpha : R) (z ldj : tensor R) :
  shape z = [B; C; H; W] -> shape ldj = [B] ->
  Dequantization.sigmoid alpha z ldj false =
  Some (tmap torch_sigmoid z,
        mkTensor [B]
          (map2 Rplus (data ldj)
             (batch_sums B C H W (map (fun x => - x - 2 * softplus (- x)) (data z))))).
Proof.
  intros Hz Hl. unfold Dequantization.sigmoid. cbn [negb].
  rewrite (sum_dim123_some B C H W) by exact Hz. cbn [obind data tmap].
  unfold tiadd. fold (batch_sums B C H W (map (fun x => - x - 2 * softplus (- x)) (data z))).
  rewrite (inplace_batch B) by (try exact Hl; apply batch_sums_length).
  reflexivity.
Qed.

Lemma sigmoid_reverse_eq (alpha : R) (z ldj : tensor R) :
  shape z = [B; C; H; W] -> shape ldj = [B] ->
  Dequantization.sigmoid alpha z ldj true =
  Some (tmap (fun x => ln x - ln (1 - x)) (tmap (fun x => x * (1 - alpha) + 0.5 * alpha) z),
        mkTensor [B]
          (map2 Rplus
             (map (fun l => l + ln (1 - alpha) * INR (numel [C; H; W])) (data ldj))
             (batch_sums B C H W (map (fun x => - ln x - ln (1 - x))
                            (map (fun x => x * (1 - alpha) + 0.5 * alpha) (data z)))))).
Proof.
  intros Hz Hl. unfold Dequantization.sigmoid. cbn [negb].
  rewrite (sum_dim123_some B C H W) by exact Hz. cbn [obind data tmap].
  unfold tiadd.
  fold (batch_sums B C H W (map (fun x => - ln x - ln (1 - x))
                      (map (fun x => x * (1 - alpha) + 0.5 * alpha) (data z)))).
  rewrite (inplace_batch B) by (try exact Hl; apply batch_sums_length).
  unfold prod_shape_tail, tmap. cbn [shape data tl]. rewrite ?Hz. reflexivity.
Qed.

Lemma dequant_eq (z : Tensor) (ldj : tensor R) (g : rng) :
  Tshape z = [B; C; H; W] -> wf (to_float32 z) ->
  Dequantization.dequant z ldj g =
  Some ((mkTensor [B; C; H; W]
           (map (fun x => x / 256) (map2 Rplus (data (to_float32 z)) (map g (seq 0 N)))),
         tmap (fun l => l - ln 256 * INR (numel [C; H; W])) ldj),
        fun i => g (N + i)%nat).
Proof.
  intros Hz Hwf. rewrite <- to_float32_shape in Hz.
  unfold Dequantization.dequant, bind, lift, ret, rand_like, draw, tadd.
  rewrite tbin_some by (try exact Hwf; cbn [shape]; apply broadcastable_refl).
  rewrite (expand_same_shape 0 _ (shape (to_float32 z)))
    by (try reflexivity; unfold wf; cbn [shape data]; now rewrite length_map, length_seq).
  unfold prod_shape_tail. cbn [data shape tmap]. rewrite Hz. reflexivity.
Qed.

Lemma dequantization_forward_eq (alpha : R) (z : Tensor) (ldj : tensor R) (g : rng) :
  Tshape z = [B; C; H; W] -> wf (to_float32 z) -> shape ldj = [B] ->
  Dequantization.forward (Dequantization.init alpha) z ldj false g =
  Some ((FloatTensor (mkTensor [B; C; H; W] (dequantized B C H W alpha (data (to_float32 z)) g)),
         mkTensor [B] (dequant_ldj B C H W alpha (data (to_float32 z)) g (data ldj))),
        fun i => g (N + i)%nat).
Proof.
  intros Hz Hwf Hl.
  unfold Dequantization.forward, Dequantization.init. cbn [negb Dequantization.dequant_method
    Dequantization.alpha].
  unfold bind at 1. rewrite dequant_eq by assumption.
  unfold bind, lift, ret.
  rewrite sigmoid_reverse_eq by (cbn [shape tmap]; auto).
  reflexivity.
Qed.

Lemma dequantization_reverse_eq (self : Dequantization.t) (z ldj : tensor R) (g : rng) :
  shape z = [B; C; H; W] -> shape ldj = [B] ->
  Dequantization.forward self (FloatTensor z) ldj true g =
  Some ((IntTensor
           (mkTensor [B; C; H; W]
              (map Ztrunc
                 (map (fun x => clamp 0 255 (IZR (Zfloor x)))
                    (map (fun x => x * 256) (map torch_sigmoid (data z)))))),
         mkTensor [B]
           (map2 Rplus (data ldj)
              (batch_sums B C H W (map (fun x => - x - 2 * softplus (- x)) (data z))))),
        g).
Proof.
  intros Hz Hl.
  unfold Dequantization.forward. cbn [negb].
  unfold bind, lift, ret.
  rewrite sigmoid_forward_eq by assumption.
  unfold to_int32, tmap. cbn [shape data]. rewrite Hz. reflexivity.
Qed.

End DequantTensors.

(** C10.  On a float tensor of shape [(B, C, H, W)], whatever its values, the
    sampling direction of [Dequantization] returns an integer tensor of the
    same shape all of whose elements lie in [[0, 255]]. *)
Theorem dequantization_reverse_range (self : Dequantization.t) (z ldj : tensor R) (g : rng)
    (B C H W : nat) :
  shape z = [B; C; H; W] -> shape ldj = [B] ->
  exists (zi : tensor Z) (ldj' : tensor R),
    Dequantization.forward self (FloatTensor z) ldj true g = Some ((IntTensor zi, ldj'), g) /\
    shape zi = shape z /\
    length (data zi) = length (data z) /\
    Forall (fun v => (0 <= v <= 255)%Z) (data zi).
Proof.
  intros Hz Hl. do 2 eexists.
  split; [now apply (dequantization_reverse_eq B C H W)|].
  cbn [shape data]. split; [now rewrite Hz|].
  split; [now rewrite !length_map|].
  rewrite !map_map. apply Forall_forall. intros v Hv.
  apply in_map_iff in Hv as (x & <- & _). apply quantize_range.
Qed.

Lemma dequantization_reverse_range_witness :
  exists (zi : tensor Z) (ldj' : tensor R),
    Dequantization.forward (Dequantization.init (1 / 100000))
      (FloatTensor (mkTensor [1; 1; 1; 2]%nat [-3; 1000])) (mkTensor [1]%nat [0]) true
      (fun _ => 0)
    = Some ((IntTensor zi, ldj'), fun _ => 0) /\
    shape zi = shape (mkTensor [1; 1; 1; 2]%nat [-3; 1000]) /\
    length (data zi) = length (data (mkTensor [1; 1; 1; 2]%nat [-3; 1000])) /\
    Forall (fun v => (0 <= v <= 255)%Z) (data zi).
Proof.
  apply (dequantization_reverse_range (Dequantization.init (1 / 100000))
           (mkTensor [1; 1; 1; 2]%nat [-3; 1000]) (mkTensor [1]%nat [0]) (fun _ => 0)
           1 1 1 2).
  - reflexivity.
  - reflexivity.
Defined.

(** C9.  In the sampling direction [VariationalDequantization] is the plain
    [Dequantization] layer with the same [alpha]: the inherited [forward]
    calls the overridden [dequant], and with it the variational flows, only
    when [reverse=False]. *)
Theorem variational_dequantization_reverse (var_flows : list CouplingLayer.t) (alpha : R)
    (z : Tensor) (ldj : tensor R) (g : rng) :
  VariationalDequantization.forward var_flows alpha z ldj true g
  = Dequantization.forward (Dequantization.init alpha) z ldj true g.
Proof. reflexivity. Qed.

(** C6.  For pixel values in [[0, 255]], noise in [[0, 1)] and a small
    [alpha] (at most 1/128; the default is 1e-5), the density direction of
    [Dequantization] followed by its sampling direction returns every pixel
    within one level of its value, and the value itself wherever the blended
    value [(v + u)(1 - alpha) + 128 alpha] that reaches [floor] stays in
    [[v, v + 1)]. *)
Theorem dequantization_roundtrip (alpha : R) (imgs : tensor Z) (ldj : tensor R) (g : rng)
    (B C H W : nat) :
  0 < alpha <= 1 / 128 ->
  wf imgs -> shape imgs = [B; C; H; W] -> shape ldj = [B] ->
  Forall (fun v => (0 <= v <= 255)%Z) (data imgs) ->
  (forall i : nat, (i < numel [B; C; H; W])%nat -> 0 <= g i < 1) ->
  exists (zf ldj1 : tensor R) (g1 : rng) (zi : tensor Z) (ldj2 : tensor R),
    Dequantization.forward (Dequantization.init alpha) (IntTensor imgs) ldj false g
      = Some ((FloatTensor zf, ldj1), g1) /\
    Dequantization.forward (Dequantization.init alpha) (FloatTensor zf) ldj1 true g1
      = Some ((IntTensor zi, ldj2), g1) /\
    shape zi = shape imgs /\
    length (data zi) = length (data imgs) /\
    forall i : nat, (i < numel [B; C; H; W])%nat ->
      let v := nth i (data imgs) 0%Z in
      let r := nth i (data zi) 0%Z in
      (Z.abs (r - v) <= 1)%Z /\
      (IZR v <= blended alpha (IZR v) (g i) < IZR v + 1 -> r = v).
Proof.
  intros Ha Hwf Hsh Hl Hrange Hg.
  assert (Hlen : length (data imgs) = numel [B; C; H; W]) by (rewrite <- Hsh; exact Hwf).
  assert (Hd : length (dequantized B C H W alpha (map IZR (data imgs)) g) = numel [B; C; H; W]).
  { unfold dequantized. rewrite !length_map, map2_length, !length_map, length_seq, Hlen.
    apply Nat.min_id. }
  do 5 eexists.
  split.
  { apply (dequantization_forward_eq B C H W); [exact Hsh| |exact Hl].
    unfold wf. cbn [to_float32 tmap shape data]. now rewrite length_map. }
  split.
  { apply (dequantization_reverse_eq B C H W); reflexivity. }
  cbn [shape data to_float32 tmap].
  split; [now rewrite Hsh|].
  split; [now rewrite !length_map, Hd, Hlen|].
  intros i Hi. cbv zeta.
  rewrite (nth_map_lt _ _ 0) by now rewrite !length_map, Hd.
  rewrite (nth_map_lt _ _ 0) by now rewrite !length_map, Hd.
  rewrite (nth_map_lt _ _ 0) by now rewrite !length_map, Hd.
  rewrite (nth_map_lt _ _ 0) by now rewrite Hd.
  unfold dequantized.
  assert (Hm2 : length (map2 Rplus (map IZR (data imgs)) (map g (seq 0 (numel [B; C; H; W]))))
                = numel [B; C; H; W]).
  { rewrite map2_length, !length_map, length_seq, Hlen. apply Nat.min_id. }
  rewrite (nth_map_lt _ _ 0) by now rewrite !length_map, Hm2.
  rewrite (nth_map_lt _ _ 0) by now rewrite !length_map, Hm2.
  rewrite (nth_map_lt _ _ 0) by now rewrite Hm2.
  rewrite (map2_nth _ _ _ 0 0 0) by (rewrite ?length_map, ?length_seq; lia).
  rewrite (nth_map_lt _ _ 0%Z) by lia.
  rewrite nth_map_seq by exact Hi.
  apply dequant_scalar_roundtrip; [exact Ha| |now apply Hg].
  rewrite Forall_forall in Hrange. apply Hrange, nth_In. lia.
Qed.

Lemma dequantization_roundtrip_witness :
  exists (zf ldj1 : tensor R) (g1 : rng) (zi : tensor Z) (ldj2 : tensor R),
    Dequantization.forward (Dequantization.init (1 / 100000))
      (IntTensor (mkTensor [1; 1; 1; 2]%nat [0; 255]%Z)) (mkTensor [1]%nat [0]) false
      (fun _ => 0)
      = Some ((FloatTensor zf, ldj1), g1) /\
    Dequantization.forward (Dequantization.init (1 / 100000)) (FloatTensor zf) ldj1 true g1
      = Some ((IntTensor zi, ldj2), g1) /\
    shape zi = shape (mkTensor [1; 1; 1; 2]%nat [0; 255]%Z) /\
    length (data zi) = length (data (mkTensor [1; 1; 1; 2]%nat [0; 255]%Z)) /\
    forall i : nat, (i < numel [1; 1; 1; 2])%nat ->
      let v := nth i (data (mkTensor [1; 1; 1; 2]%nat [0; 255]%Z)) 0%Z in
      let r := nth i (data zi) 0%Z in
      (Z.abs (r - v) <= 1)%Z /\
      (IZR v <= blended (1 / 100000) (IZR v) 0 < IZR v + 1 -> r = v).
Proof.
  apply (dequantization_roundtrip (1 / 100000) (mkTensor [1; 1; 1; 2]%nat [0; 255]%Z)
           (mkTensor [1]%nat [0]) (fun _ => 0) 1 1 1 2).
  - lra.
  - reflexivity.
  - reflexivity.
  - reflexivity.
  - repeat constructor; lia.
  - intros i _. lra.
Defined.

(** * The likelihood path of a dequantization layer followed by coupling
      layers *)

Lemma zeros_length (B : nat) : length (data (zeros [B])) = B.
Proof. unfold zeros. cbn [data numel fold_right]. rewrite repeat_length. lia. Qed.

Section Pipeline.

Variables (B C H W : nat).

Let N : nat := numel [B; C; H; W].

Lemma run_couplings_length (Ls : list CouplingLayer.t) (zd ld : list R) :
  Forall (fun L => coupling_ok L B C 0 H W) Ls ->
  length zd = N -> length ld = B ->
  length (fst (run_couplings B C H W Ls zd ld)) = N /\ length (snd (run_couplings B C H W Ls zd ld)) = B.
Proof.
  intros HLs. revert zd ld. induction HLs as [|L Ls HL _ IH]; intros zd ld Hz Hl.
  - split; assumption.
  - cbn [run_couplings]. apply IH.
    + now apply (coupled_length L B C 0 H W None HL eq_refl).
    + unfold s_sums. rewrite map2_length, length_map, length_seq, Hl. apply Nat.min_id.
Qed.

Lemma run_flows_couplings (Ls : list CouplingLayer.t) (z ldj : tensor R) (g : rng) :
  Forall (fun L => coupling_ok L B C 0 H W) Ls ->
  wf z -> shape z = [B; C; H; W] -> shape ldj = [B] ->
  ImageFlow.run_flows (map CouplingLayer_flow Ls) (FloatTensor z) ldj g =
  Some ((FloatTensor (mkTensor [B; C; H; W] (fst (run_couplings B C H W Ls (data z) (data ldj)))),
         mkTensor [B] (snd (run_couplings B C H W Ls (data z) (data ldj)))), g).
Proof.
  intros HLs. revert z ldj. induction HLs as [|L Ls HL HLs IH]; intros z ldj Hwf Hz Hl.
  - cbn [map ImageFlow.run_flows run_couplings fst snd]. unfold ret.
    destruct z as [sh zd], ldj as [lsh ld]. cbn [shape data] in *. now subst.
  - cbn [map ImageFlow.run_flows run_couplings].
    unfold bind at 1. unfold CouplingLayer_flow at 1. unfold bind, lift, ret.
    cbn [to_float32].
    rewrite (forward_eq L B C 0 H W None HL eq_refl) by assumption.
    rewrite IH; [reflexivity| |reflexivity|reflexivity].
    unfold wf. cbn [shape data].
    apply (coupled_length L B C 0 H W None HL eq_refl). rewrite <- Hz. exact Hwf.
Qed.

Lemma dequantized_length (alpha : R) (zd : list R) (g : rng) :
  length zd = N -> length (dequantized B C H W alpha zd g) = N.
Proof.
  intros Hz. unfold dequantized.
  rewrite !length_map, map2_length, length_map, length_seq, Hz. apply Nat.min_id.
Qed.

Lemma dequant_ldj_length (alpha : R) (zd ld : list R) (g : rng) :
  length ld = B -> length (dequant_ldj B C H W alpha zd g ld) = B.
Proof.
  intros Hl. unfold dequant_ldj.
  rewrite map2_length, !length_map, batch_sums_length, Hl. apply Nat.min_id.
Qed.

Lemma pipeline_forward_eq (alpha : R) (Ls : list CouplingLayer.t) (imgs : Tensor)
    (return_nll : bool) (g : rng) :
  Forall (fun L => coupling_ok L B C 0 H W) Ls ->
  Tshape imgs = [B; C; H; W] -> wf (to_float32 imgs) ->
  ImageFlow.forward (ImageFlow.init (pipeline_flows alpha Ls)) imgs return_nll g =
  Some (mkTensor [B]
          (if return_nll then pipeline_nll B C H W alpha Ls (data (to_float32 imgs)) g
           else map (fun x => x * (ln (exp 1) / ln 2) / INR (numel [C; H; W]))
                  (pipeline_nll B C H W alpha Ls (data (to_float32 imgs)) g)),
        fun i => g (N + i)%nat).
Proof.
  intros HLs Hsh Hwf.
  assert (Hz : length (data (to_float32 imgs)) = N).
  { rewrite Hwf, to_float32_shape, Hsh. reflexivity. }
  pose proof (dequantized_length alpha _ g Hz) as Hd.
  pose proof (dequant_ldj_length alpha (data (to_float32 imgs)) _ g (zeros_length B)) as Hdl.
  destruct (run_couplings_length Ls _ _ HLs Hd Hdl) as [Hrz Hrl].
  unfold ImageFlow.forward, ImageFlow.init, pipeline_flows.
  cbn [ImageFlow.flows ImageFlow.prior ImageFlow.run_flows].
  rewrite Hsh. cbn [hd_error tl].
  unfold bind at 1. unfold lift at 1.
  unfold bind at 1. unfold bind at 1.
  rewrite (dequantization_forward_eq B C H W) by (assumption || reflexivity).
  rewrite run_flows_couplings by (assumption || reflexivity).
  cbn [to_float32 data shape].
  unfold bind, lift, ret.
  rewrite (sum_dim123_some B C H W) by reflexivity.
  unfold tadd.
  rewrite tbin_some;
    [|unfold wf; cbn [shape data numel fold_right]; lia|apply broadcastable_refl].
  rewrite (expand_same_shape 0 _ [B])
    by (try reflexivity; unfold wf; cbn [shape data]; rewrite length_map, length_seq;
        cbn [numel fold_right]; lia).
  cbn [shape data tmap]. fold (batch_sums B C H W).
  unfold pipeline_nll. destruct return_nll; reflexivity.
Qed.

End Pipeline.

(** * Bits per dimension *)

Section RealBounds.

Lemma exp_1_gt_2 : 2 < exp 1.
Proof. pose proof (exp_ineq1 1 ltac:(lra)). lra. Qed.

Lemma exp_3_gt_8 : 8 < exp 3.
Proof.
  replace 3 with (1 + (1 + 1)) by lra. rewrite !exp_plus.
  pose proof exp_1_gt_2. nra.
Qed.

Lemma exp_5_gt_32 : 32 < exp 5.
Proof.
  replace 5 with (3 + (1 + 1)) by lra. rewrite !exp_plus.
  pose proof exp_1_gt_2. pose proof exp_3_gt_8. nra.
Qed.

Lemma exp_double (x : R) : exp (2 * x) = exp x * exp x.
Proof. rewrite <- exp_plus. f_equal. lra. Qed.

(** Lower bounds of the exponential, from [1 + x < exp x] at [1/32] and
    repeated squaring. *)
Lemma exp_lower_bounds :
  12787 / 10000 < exp (1 / 4) /\ 1635 / 1000 < exp (1 / 2) /\ 2673 / 1000 < exp 1 /\
  714 / 100 < exp 2 /\ 509 / 10 < exp 4.
Proof.
  pose proof (exp_ineq1 (1 / 32) ltac:(lra)) as H32.
  assert (H16 : 10634 / 10000 < exp (1 / 16)).
  { replace (1 / 16) with (2 * (1 / 32)) by lra. rewrite exp_double. nra. }
  assert (H8 : 11308 / 10000 < exp (1 / 8)).
  { replace (1 / 8) with (2 * (1 / 16)) by lra. rewrite exp_double. nra. }
  assert (H4 : 12787 / 10000 < exp (1 / 4)).
  { replace (1 / 4) with (2 * (1 / 8)) by lra. rewrite exp_double. nra. }
  assert (H2 : 1635 / 1000 < exp (1 / 2)).
  { replace (1 / 2) with (2 * (1 / 4)) by lra. rewrite exp_double. nra. }
  assert (H1 : 2673 / 1000 < exp 1).
  { replace 1 with (2 * (1 / 2)) by lra. rewrite exp_double. nra. }
  assert (G2 : 714 / 100 < exp 2).
  { replace 2 with (2 * 1) at 1 by lra. rewrite exp_double. nra. }
  assert (G4 : 509 / 10 < exp 4).
  { replace 4 with (2 * 2) by lra. rewrite exp_double. nra. }
  repeat split; assumption.
Qed.

Lemma exp_2_le_9 : exp 2 <= 9.
Proof.
  replace 2 with (2 * 1) by lra. rewrite exp_double.
  pose proof exp_le_3. pose proof (exp_pos 1). nra.
Qed.

Lemma tanh_ge (y : R) : 11 <= y -> 11 / 12 <= tanh y.
Proof.
  intros Hy. unfold tanh, sinh, cosh. rewrite exp_Ropp.
  pose proof (exp_ineq1 y ltac:(lra)) as He.
  assert (Hi : 0 < / exp y < 1 / 12).
  { split; [apply Rinv_0_lt_compat; lra|].
    replace (1 / 12) with (/ 12) by lra. apply Rinv_lt_contravar; lra. }
  apply Rmult_le_reg_r with ((exp y + / exp y) / 2); [lra|].
  unfold Rdiv at 3. rewrite Rmult_assoc, Rinv_l by lra. lra.
Qed.

Lemma ln_256_half : ln 256 + 2 * ln (1 / 2) < 9 / 2.
Proof.
  replace (1 / 2) with (/ 2) by lra. rewrite ln_Rinv by lra.
  replace 256 with (64 * (2 * 2)) by lra. rewrite !ln_mult by lra.
  apply Rlt_le_trans with (ln (exp (9 / 2))); [|rewrite ln_exp; lra].
  replace (ln 64 + (ln 2 + ln 2) + 2 * - ln 2) with (ln 64) by lra.
  apply ln_increasing; [lra|].
  replace (9 / 2) with (4 + 1 / 2) by lra. rewrite exp_plus.
  destruct exp_lower_bounds as (_ & H2 & _ & _ & H4). nra.
Qed.

Lemma ln_near_1_quarter : - (1 / 4) < ln (1 - 1 / 100000).
Proof.
  replace (- (1 / 4)) with (ln (exp (- (1 / 4)))) by (rewrite ln_exp; lra).
  apply ln_increasing; [apply exp_pos|].
  rewrite exp_Ropp. destruct exp_lower_bounds as (H4 & _).
  apply Rlt_trans with (/ (12787 / 10000)); [apply Rinv_lt_contravar; lra|lra].
Qed.

Lemma ln_sqrt_2PI_lt : ln (sqrt (2 * PI)) < 5 / 4.
Proof.
  pose proof PI_RGT_0. pose proof PI_4.
  apply Rlt_le_trans with (ln (exp (5 / 4))); [|rewrite ln_exp; lra].
  apply ln_increasing; [apply sqrt_lt_R0; lra|].
  apply Rlt_trans with 3.
  - replace 3 with (sqrt (3 * 3)) by (apply sqrt_square; lra).
    apply sqrt_lt_1; lra.
  - replace (5 / 4) with (1 + 1 / 4) by lra. rewrite exp_plus.
    destruct exp_lower_bounds as (H4 & _ & H1 & _). nra.
Qed.

End RealBounds.

Lemma steep_layer_ok : coupling_ok steep_layer 1 1 0 1 1.
Proof.
  split; cbn [steep_layer CouplingLayer.mask CouplingLayer.network
              CouplingLayer.scaling_factor shape data].
  - reflexivity.
  - apply broadcastable_refl.
  - constructor; [left; reflexivity|constructor].
  - reflexivity.
  - repeat constructor.
  - intros x _ _. split; reflexivity.
Qed.

Lemma sharp_layer_ok : coupling_ok sharp_layer 1 1 0 1 1.
Proof.
  split; cbn [sharp_layer CouplingLayer.mask CouplingLayer.network
              CouplingLayer.scaling_factor shape data].
  - reflexivity.
  - apply broadcastable_refl.
  - constructor; [left; reflexivity|constructor].
  - reflexivity.
  - repeat constructor.
  - intros x _ _. split; reflexivity.
Qed.

(** The negative log-likelihood of the one-pixel image 128 with noise 0
    under a [Dequantization] layer followed by [sharp_layer]: the
    dequantization gives [z = 0] and [ldj = -log 256 + log(1 - alpha)
    - 2 log(1/2)], the coupling layer adds [s = tanh(100 / exp(2)) * exp(2)] and leaves
    [z = (0 + 0) * exp(s) = 0], and the prior adds [-log(sqrt(2 pi))]. *)
Lemma sharp_nll_negative :
  exists v : R,
    pipeline_nll 1 1 1 1 (1 / 100000) [sharp_layer] [128] (fun _ => 0) = [v] /\ v < 0.
Proof.
  eexists. split.
  - cbv -[Rplus Rminus Rmult Rdiv Ropp Rinv IZR exp ln tanh sqrt PI INR]. reflexivity.
  - assert (E : (128 + 0) / 256 * (1 - 1 / 100000) + 5 * / 10 * (1 / 100000) = 1 / 2) by lra.
    rewrite !E. replace (1 - 1 / 2) with (1 / 2) by lra.
    set (h := ln (1 / 2)).
    set (s := tanh (100 / exp 2) * exp 2 * (1 - 0)).
    set (e := exp s).
    replace ((h - h + 0 * (1 - 0)) * e - 0) with 0 by ring.
    rewrite ln_1. cbn [INR].
    pose proof ln_256_half as Hl. fold h in Hl.
    pose proof ln_near_1_quarter. pose proof ln_sqrt_2PI_lt.
    destruct exp_lower_bounds as (_ & _ & _ & He2 & _).
    pose proof exp_2_le_9 as He9.
    assert (Hy : 11 <= 100 / exp 2).
    { apply Rmult_le_reg_r with (exp 2); [lra|].
      unfold Rdiv. rewrite Rmult_assoc, Rinv_l by lra. lra. }
    pose proof (tanh_ge _ Hy) as Ht.
    assert (Hs : 6 < s) by (unfold s; nra).
    lra.
Qed.

Lemma sum_dim123_wf (t r : tensor R) : sum_dim123 t = Some r -> wf r.
Proof.
  unfold sum_dim123.
  destruct (shape t) as [|B [|C [|H [|W [|]]]]]; try discriminate.
  intros E. injection E as <-. unfold wf. cbn [shape data numel fold_right].
  rewrite length_map, length_seq. lia.
Qed.

Lemma log2_e_pos : 0 < ln (exp 1) / ln 2.
Proof.
  rewrite ln_exp. pose proof ln_lt_2.
  apply Rdiv_lt_0_compat; lra.
Qed.

(** C7 as stated fails: on the one-pixel image of value 128, with noise 0,
    the pipeline of a [Dequantization] layer and the coupling layer
    [sharp_layer] returns a negative value of bits per dimension.  All the
    intermediate values are of moderate size, far from the overflow of
    single-precision numbers: the scale is about 7.39 and its exponential
    about 1618, the tensor stays at 0, and the returned value is about
    -3.33. *)
Lemma bpd_negative_counterexample :
  exists (bpd : tensor R) (g' : rng) (v : R),
    ImageFlow.forward
      (ImageFlow.init [Dequantization.forward (Dequantization.init (1 / 100000));
                       CouplingLayer_flow sharp_layer])
      (IntTensor (mkTensor [1; 1; 1; 1]%nat [128%Z])) false (fun _ => 0)
    = Some (bpd, g') /\
    shape bpd = [1]%nat /\ data bpd = [v] /\ v < 0.
Proof.
  destruct sharp_nll_negative as (v & Ev & Hv).
  do 2 eexists. exists (v * (ln (exp 1) / ln 2) / INR (numel [1; 1; 1]%nat)).
  split.
  - change [Dequantization.forward (Dequantization.init (1 / 100000));
            CouplingLayer_flow sharp_layer]
      with (pipeline_flows (1 / 100000) [sharp_layer]).
    rewrite (pipeline_forward_eq 1 1 1 1).
    + cbn [to_float32 tmap data map]. rewrite Ev. cbn [map]. reflexivity.
    + constructor; [exact sharp_layer_ok|constructor].
    + reflexivity.
    + reflexivity.
  - split; [reflexivity|]. split; [reflexivity|].
    cbn [numel fold_right Nat.mul Nat.add INR]. pose proof log2_e_pos. nra.
Qed.

(** C7, as the code has it.  Whatever the layers, when they return the
    tensor [z] and the accumulator [ldj], the value of bits per dimension of
    image [i] is [- (ldj[i] + log_pz[i]) * log2(e) / D], with [D] the number
    of elements of an image; it is a real number that is non-negative exactly
    when the total log-probability [ldj[i] + log_pz[i]] is at most 0. *)
Theorem bpd_sign (self : ImageFlow.t) (imgs z : Tensor) (B : nat)
    (ldj log_pz : tensor R) (g g' : rng) :
  hd_error (Tshape imgs) = Some B ->
  ImageFlow.run_flows (ImageFlow.flows self) imgs (zeros [B]) g = Some ((z, ldj), g') ->
  sum_dim123 (tmap (log_prob (ImageFlow.prior self)) (to_float32 z)) = Some log_pz ->
  wf ldj -> shape ldj = shape log_pz ->
  (0 < numel (tl (Tshape imgs)))%nat ->
  exists bpd : tensor R,
    ImageFlow.forward self imgs false g = Some (bpd, g') /\
    shape bpd = shape ldj /\
    length (data bpd) = length (data ldj) /\
    forall i : nat, (i < length (data ldj))%nat ->
      nth i (data bpd) 0
        = - (nth i (data ldj) 0 + nth i (data log_pz) 0)
          * (ln (exp 1) / ln 2) / INR (numel (tl (Tshape imgs))) /\
      (0 <= nth i (data bpd) 0 <-> nth i (data ldj) 0 + nth i (data log_pz) 0 <= 0).
Proof.
  intros HB Hrun Hsum Hwf Hsh HD.
  pose proof (sum_dim123_wf _ _ Hsum) as Hpwf.
  assert (Hlen : length (data log_pz) = length (data ldj)).
  { unfold wf in Hwf, Hpwf. now rewrite Hwf, Hpwf, Hsh. }
  eexists. split.
  { unfold ImageFlow.forward. unfold bind at 1. unfold lift at 1. rewrite HB.
    unfold bind at 1. rewrite Hrun.
    unfold bind, lift, ret. rewrite Hsum.
    unfold tadd. rewrite tbin_some by (try exact Hwf; rewrite Hsh; apply broadcastable_refl).
    rewrite (expand_same_shape 0 log_pz (shape ldj)) by (auto; congruence).
    reflexivity. }
  cbn [shape data tmap].
  split; [reflexivity|].
  split; [rewrite !length_map, map2_length, Hlen; apply Nat.min_id|].
  intros i Hi.
  rewrite (nth_map_lt _ _ 0) by (rewrite length_map, map2_length, Hlen; lia).
  rewrite (nth_map_lt _ _ 0) by (rewrite map2_length, Hlen; lia).
  rewrite (map2_nth _ _ _ 0 0 0) by lia.
  split; [reflexivity|].
  set (x := nth i (data ldj) 0 + nth i (data log_pz) 0).
  set (c := ln (exp 1) / ln 2).
  assert (Hc : 0 < c) by apply log2_e_pos.
  assert (HI : 0 < INR (numel (tl (Tshape imgs)))) by now apply lt_0_INR.
  set (D := INR (numel (tl (Tshape imgs)))) in *.
  assert (Hk : 0 < c / D) by now apply Rdiv_lt_0_compat.
  replace (- x * c / D) with (- x * (c / D)) by (unfold Rdiv; ring).
  split; intros Hx; nra.
Qed.

(** What the layers of a [Dequantization] layer followed by coupling layers
    return. *)
Lemma pipeline_run_flows (B C H W : nat) (alpha : R) (Ls : list CouplingLayer.t)
    (imgs : Tensor) (g : rng) :
  Forall (fun L => coupling_ok L B C 0 H W) Ls ->
  Tshape imgs = [B; C; H; W] -> wf (to_float32 imgs) ->
  ImageFlow.run_flows (pipeline_flows alpha Ls) imgs (zeros [B]) g =
  Some ((FloatTensor
           (mkTensor [B; C; H; W]
              (fst (run_couplings B C H W Ls
                      (dequantized B C H W alpha (data (to_float32 imgs)) g)
                      (dequant_ldj B C H W alpha (data (to_float32 imgs)) g
                         (data (zeros [B])))))),
         mkTensor [B]
           (snd (run_couplings B C H W Ls
                   (dequantized B C H W alpha (data (to_float32 imgs)) g)
                   (dequant_ldj B C H W alpha (data (to_float32 imgs)) g
                      (data (zeros [B])))))),
        fun i => g (numel [B; C; H; W] + i)%nat).
Proof.
  intros HLs Hsh Hwf.
  assert (Hz : length (data (to_float32 imgs)) = numel [B; C; H; W]).
  { rewrite Hwf, to_float32_shape, Hsh. reflexivity. }
  pose proof (dequantized_length B C H W alpha _ g Hz) as Hd.
  unfold pipeline_flows. cbn [ImageFlow.run_flows].
  unfold bind at 1.
  rewrite (dequantization_forward_eq B C H W) by (assumption || reflexivity).
  rewrite (run_flows_couplings B C H W) by (assumption || reflexivity).
  reflexivity.
Qed.

(** The pipeline of a [Dequantization] layer and [cross_layer], on an image
    of the two pixels 10 and 200 with the noise 1/4 and 3/4. *)
Lemma bpd_sign_witness :
  let self := ImageFlow.init (pipeline_flows (1 / 100000) [cross_layer]) in
  let imgs := IntTensor (mkTensor [1; 1; 1; 2]%nat [10%Z; 200%Z]) in
  let g : rng := fun i => if (i =? 0)%nat then 1 / 4 else 3 / 4 in
  let out :=
    run_couplings 1 1 1 2 [cross_layer]
      (dequantized 1 1 1 2 (1 / 100000) (data (to_float32 imgs)) g)
      (dequant_ldj 1 1 1 2 (1 / 100000) (data (to_float32 imgs)) g
         (data (zeros [1]%nat))) in
  let ldj := mkTensor [1]%nat (snd out) in
  let log_pz :=
    mkTensor [1]%nat (batch_sums 1 1 1 2 (map (log_prob (mkNormal 0 1)) (fst out))) in
  exists bpd : tensor R,
    ImageFlow.forward self imgs false g
    = Some (bpd, fun i => g (numel [1; 1; 1; 2] + i)%nat) /\
    shape bpd = shape ldj /\
    length (data bpd) = length (data ldj) /\
    forall i : nat, (i < length (data ldj))%nat ->
      nth i (data bpd) 0
        = - (nth i (data ldj) 0 + nth i (data log_pz) 0)
          * (ln (exp 1) / ln 2) / INR (numel (tl (Tshape imgs))) /\
      (0 <= nth i (data bpd) 0 <-> nth i (data ldj) 0 + nth i (data log_pz) 0 <= 0).
Proof.
  intros self imgs g out ldj log_pz.
  apply (bpd_sign self imgs (FloatTensor (mkTensor [1; 1; 1; 2]%nat (fst out))) 1
           ldj log_pz g (fun i => g (numel [1; 1; 1; 2] + i)%nat)).
  - reflexivity.
  - apply (pipeline_run_flows 1 1 1 2).
    + constructor; [exact cross_layer_ok|constructor].
    + reflexivity.
    + reflexivity.
  - reflexivity.
  - reflexivity.
  - reflexivity.
  - cbn. lia.
Defined.

(** * Permuting the batch *)

Section Map2Facts.

Context {A B' C' : Type} (f : A -> B' -> C').

Lemma map2_app (x1 y1 : list A) (x2 y2 : list B') :
  length x1 = length x2 ->
  map2 f (x1 ++ y1) (x2 ++ y2) = map2 f x1 x2 ++ map2 f y1 y2.
Proof.
  revert x2. induction x1 as [|a x1 IH]; intros [|b x2] Hl; try discriminate.
  - reflexivity.
  - cbn [app map2]. rewrite IH by (simpl in Hl; lia). reflexivity.
Qed.

Lemma map2_skipn (k : nat) (l1 : list A) (l2 : list B') :
  skipn k (map2 f l1 l2) = map2 f (skipn k l1) (skipn k l2).
Proof.
  revert l1 l2. induction k as [|k IH]; intros l1 l2.
  - reflexivity.
  - destruct l1 as [|a l1], l2 as [|b l2]; cbn [skipn map2]; auto.
    now destruct (skipn k l1).
Qed.

Lemma map2_firstn (k : nat) (l1 : list A) (l2 : list B') :
  firstn k (map2 f l1 l2) = map2 f (firstn k l1) (firstn k l2).
Proof.
  revert l1 l2. induction k as [|k IH]; intros l1 l2.
  - reflexivity.
  - destruct l1 as [|a l1], l2 as [|b l2]; cbn [firstn map2]; auto.
    now rewrite IH.
Qed.

Lemma slice0_map2 (n b : nat) (l1 : list A) (l2 : list B') :
  slice0 n (map2 f l1 l2) b = map2 f (slice0 n l1 b) (slice0 n l2 b).
Proof. unfold slice0. now rewrite map2_skipn, map2_firstn. Qed.

End Map2Facts.

Lemma take_batch_map2_aux {A B' C' : Type} (f : A -> B' -> C') (B n : nat)
    (perm : list nat) (l1 : list A) (l2 : list B') :
  Forall (fun b => (b < B)%nat) perm ->
  length l1 = (B * n)%nat -> length l2 = (B * n)%nat ->
  take_batch n perm (map2 f l1 l2) = map2 f (take_batch n perm l1) (take_batch n perm l2).
Proof.
  intros Hp H1 H2. unfold take_batch.
  induction Hp as [|b p Hb _ IH]; cbn [map concat].
  - reflexivity.
  - rewrite map2_app by now rewrite !(slice0_length _ B).
    now rewrite IH, slice0_map2.
Qed.

Section TakeBatch.

Variables (B : nat) (perm : list nat).
Hypothesis Hperm : Forall (fun b => (b < B)%nat) perm.

Lemma take_batch_length {A : Type} (n : nat) (l : list A) :
  length l = (B * n)%nat -> length (take_batch n perm l) = (length perm * n)%nat.
Proof.
  intros Hl. unfold take_batch. rewrite (length_concat_const n).
  - now rewrite length_map.
  - intros x Hx. apply in_map_iff in Hx as (b & <- & Hb).
    rewrite Forall_forall in Hperm. apply (slice0_length _ B); auto.
Qed.

Lemma take_batch_map {A B' : Type} (f : A -> B') (n : nat) (l : list A) :
  take_batch n perm (map f l) = map f (take_batch n perm l).
Proof.
  unfold take_batch. rewrite concat_map, map_map.
  f_equal. apply map_ext. intros b. symmetry. apply slice0_map.
Qed.

Lemma take_batch_map2 {A B' C' : Type} (f : A -> B' -> C') (n : nat)
    (l1 : list A) (l2 : list B') :
  length l1 = (B * n)%nat -> length l2 = (B * n)%nat ->
  take_batch n perm (map2 f l1 l2) = map2 f (take_batch n perm l1) (take_batch n perm l2).
Proof. intros H1 H2. now apply (take_batch_map2_aux f B n perm l1 l2). Qed.

Lemma slice0_take_batch {A : Type} (n b : nat) (l : list A) :
  length l = (B * n)%nat -> (b < length perm)%nat ->
  slice0 n (take_batch n perm l) b = slice0 n l (nth b perm 0%nat).
Proof.
  intros Hl Hb. unfold take_batch. rewrite slice0_concat.
  - rewrite (nth_indep _ [] (slice0 n l 0%nat)) by now rewrite length_map.
    apply map_nth.
  - intros x Hx. apply in_map_iff in Hx as (k & <- & Hk).
    rewrite Forall_forall in Hperm. apply (slice0_length _ B); auto.
  - now rewrite length_map.
Qed.

(** Storage whose batch elements are all the same is left as it is. *)
Lemma take_batch_const {A : Type} (n : nat) (l : list A) :
  (forall b, (b < B)%nat -> slice0 n l b = slice0 n l 0%nat) ->
  length l = (B * n)%nat -> length perm = B ->
  take_batch n perm l = l.
Proof.
  intros Hc Hl Hlen.
  rewrite <- (concat_slices n B l Hl) at 2.
  unfold take_batch. f_equal.
  rewrite (map_ext_in _ (fun _ => slice0 n l 0%nat) perm)
    by (intros b Hb; rewrite Forall_forall in Hperm; apply Hc; auto).
  rewrite (map_ext_in _ (fun _ => slice0 n l 0%nat) (seq 0 B))
    by (intros b Hb; apply in_seq in Hb; apply Hc; lia).
  rewrite !map_const. now rewrite Hlen, length_seq.
Qed.

Lemma map_nth_perm {A : Type} (h : nat -> A) :
  map (fun b => h (nth b perm 0%nat)) (seq 0 (length perm)) = map h perm.
Proof.
  rewrite <- (map_map (fun b => nth b perm 0%nat) h). f_equal.
  apply map_seq_nth with (d := 0%nat). reflexivity.
Qed.

End TakeBatch.

Lemma slice0_one {A : Type} (l : list A) (d : A) (k : nat) :
  (k < length l)%nat -> slice0 1 l k = [nth k l d].
Proof.
  revert k. induction l as [|a l IH]; intros k Hk; cbn [length] in Hk; [lia|].
  destruct k as [|k].
  - unfold slice0. cbn. reflexivity.
  - rewrite slice0_succ. cbn [skipn nth]. apply IH. lia.
Qed.

Lemma concat_map_singleton {A B' : Type} (h : A -> B') (l : list A) :
  concat (map (fun x => [h x]) l) = map h l.
Proof. induction l as [|a l IH]; cbn [map concat app]; congruence. Qed.

Section TakeBatchOps.

Variables (B C H W : nat) (perm : list nat).
Hypothesis Hperm : Forall (fun b => (b < B)%nat) perm.
Hypothesis Hlen : length perm = B.

Lemma take_batch_vector (v : list R) :
  length v = B -> take_batch 1 perm v = map (fun k => nth k v 0) perm.
Proof.
  intros Hv. unfold take_batch.
  rewrite (map_ext_in _ (fun k => [nth k v 0]) perm).
  - apply concat_map_singleton.
  - intros k Hk. rewrite Forall_forall in Hperm. apply slice0_one.
    rewrite Hv. auto.
Qed.

Lemma batch_sums_take (l : list R) :
  length l = (B * (C * (H * (W * 1))))%nat ->
  batch_sums B C H W (take_batch (C * (H * (W * 1))) perm l)
  = take_batch 1 perm (batch_sums B C H W l).
Proof.
  intros Hl. rewrite take_batch_vector by apply batch_sums_length.
  unfold batch_sums at 1. rewrite <- Hlen at 1.
  rewrite (map_ext_in _ (fun b => Rsum (slice0 (C * (H * (W * 1))) l (nth b perm 0%nat))))
    by (intros b Hb; apply in_seq in Hb;
        rewrite (slice0_take_batch B perm Hperm) by (auto; lia); reflexivity).
  rewrite (map_nth_perm perm (fun k => Rsum (slice0 (C * (H * (W * 1))) l k))).
  apply map_ext_in. intros k Hk. unfold batch_sums.
  rewrite Forall_forall in Hperm.
  now rewrite nth_map_seq by auto.
Qed.

Lemma chunk_fst_take {A : Type} (n : nat) (l : list A) :
  length l = (B * (2 * C * n))%nat ->
  chunk_fst B C n (take_batch (2 * C * n) perm l)
  = take_batch (C * n) perm (chunk_fst B C n l).
Proof.
  intros Hl. unfold chunk_fst at 1. rewrite <- Hlen at 1.
  rewrite (map_ext_in _ (fun b => firstn (C * n) (slice0 (2 * C * n) l (nth b perm 0%nat))))
    by (intros b Hb; apply in_seq in Hb;
        rewrite (slice0_take_batch B perm Hperm) by (auto; lia); reflexivity).
  rewrite (map_nth_perm perm (fun k => firstn (C * n) (slice0 (2 * C * n) l k))).
  unfold take_batch. f_equal. apply map_ext_in. intros k Hk.
  rewrite Forall_forall in Hperm.
  now rewrite slice0_chunk_fst by auto.
Qed.

Lemma chunk_snd_take {A : Type} (n : nat) (l : list A) :
  length l = (B * (2 * C * n))%nat ->
  chunk_snd B C n (take_batch (2 * C * n) perm l)
  = take_batch (C * n) perm (chunk_snd B C n l).
Proof.
  intros Hl. unfold chunk_snd at 1. rewrite <- Hlen at 1.
  rewrite (map_ext_in _ (fun b => skipn (C * n) (slice0 (2 * C * n) l (nth b perm 0%nat))))
    by (intros b Hb; apply in_seq in Hb;
        rewrite (slice0_take_batch B perm Hperm) by (auto; lia); reflexivity).
  rewrite (map_nth_perm perm (fun k => skipn (C * n) (slice0 (2 * C * n) l k))).
  unfold take_batch. f_equal. apply map_ext_in. intros k Hk.
  rewrite Forall_forall in Hperm.
  now rewrite slice0_chunk_snd by auto.
Qed.

End TakeBatchOps.

(** A tensor with batch dimension 1 expands to storage whose batch elements
    are all the same. *)
Lemma nth_slice0 {A : Type} (n b r : nat) (l : list A) (d : A) :
  (r < n)%nat -> nth r (slice0 n l b) d = nth (b * n + r) l d.
Proof.
  intros Hr. unfold slice0. rewrite nth_firstn.
  destruct (Nat.ltb_spec r n); [|lia]. now rewrite nth_skipn.
Qed.

Lemma expand_batch_const (t : tensor R) (B : nat) (sh src : list nat) (b : nat) :
  shape t = 1%nat :: src -> length src = length sh -> (b < B)%nat ->
  slice0 (numel sh) (data (expand 0 t (B :: sh))) b
  = slice0 (numel sh) (data (expand 0 t (B :: sh))) 0.
Proof.
  intros Hsh Hl Hb.
  assert (Hlen : length (data (expand 0 t (B :: sh))) = (B * numel sh)%nat)
    by apply expand_length.
  apply (nth_ext _ _ 0 0).
  - now rewrite !(slice0_length _ B) by (auto; lia).
  - intros r Hr. rewrite (slice0_length _ B) in Hr by auto.
    rewrite !nth_slice0 by exact Hr.
    unfold expand, gather. cbn [data length shape].
    rewrite Hsh, pad_shape_same by (cbn [length]; lia).
    assert (Hn : numel sh <> 0%nat) by lia.
    rewrite !nth_map_seq by (rewrite numel_cons; nia).
    cbn [unravel map2 Nat.eqb ravel].
    rewrite (Nat.add_comm (b * numel sh)), Nat.Div0.mod_add.
    cbn [Nat.mul Nat.add]. reflexivity.
Qed.

Section CouplingBatch.

Variables (L : CouplingLayer.t) (B C H W : nat) (perm : list nat).
Hypothesis HL : coupling_ok L B C 0 H W.
Hypothesis HLb : batchwise L B C H W perm.
Hypothesis Hperm : Forall (fun b => (b < B)%nat) perm.
Hypothesis Hlen : length perm = B.

Let N : nat := numel [B; C; H; W].
Let n : nat := numel [C; H; W].

Lemma mask_x_take : take_batch n perm (mask_x L B C H W) = mask_x L B C H W.
Proof.
  pose proof (mask_broadcast _ _ _ _ _ _ HL) as Hb.
  pose proof (mask_batch1 _ _ _ _ _ _ HLb) as H1.
  destruct (shape (CouplingLayer.mask L)) as [|d src] eqn:E; [inversion Hb|].
  cbn [hd] in H1. subst d.
  apply (take_batch_const B perm Hperm); [|apply expand_length|exact Hlen].
  intros b Hb'. unfold mask_x.
  apply (expand_batch_const _ B [C; H; W] src); [exact E| |exact Hb'].
  apply broadcastable_length in Hb. cbn [length] in *. lia.
Qed.

Lemma s_fac_x_take : take_batch n perm (s_fac_x L B C H W) = s_fac_x L B C H W.
Proof.
  apply (take_batch_const B perm Hperm); [|apply expand_length|exact Hlen].
  intros b Hb'. unfold s_fac_x.
  now apply (expand_batch_const _ B [C; H; W]
               [numel (shape (CouplingLayer.scaling_factor L)); 1; 1]%nat).
Qed.

Lemma nn_out_take (z_in : list R) :
  length z_in = N ->
  nn_out L B C 0 H W None (take_batch n perm z_in)
  = take_batch (2 * C * numel [H; W]) perm (nn_out L B C 0 H W None z_in).
Proof.
  intros Hz. unfold nn_out, nn_in.
  assert (E : mkTensor [B; C; H; W] (take_batch n perm z_in)
              = index_batch (mkTensor [B; C; H; W] z_in) perm).
  { unfold index_batch. cbn [shape data tl]. now rewrite Hlen. }
  rewrite E, (network_equivariant _ _ _ _ _ _ HLb) by (exact Hz || reflexivity).
  destruct (network_shape _ _ _ _ _ _ HL (mkTensor [B; C; H; W] z_in)) as [_ Hsh];
    [exact Hz|cbn [shape]; now rewrite Nat.add_0_r|].
  unfold index_batch. cbn [data]. rewrite Hsh. reflexivity.
Qed.

Lemma s_of_take (z_in : list R) :
  length z_in = N ->
  s_of L B C 0 H W None (take_batch n perm z_in)
  = take_batch n perm (s_of L B C 0 H W None z_in).
Proof.
  intros Hz.
  pose proof (nn_out_length L B C 0 H W None HL eq_refl z_in Hz) as Hout.
  pose proof (chunk_fst_length B C (numel [H; W]) _ Hout) as Hfst.
  pose proof (mask_x_length L B C H W) as Hm.
  pose proof (s_fac_x_length L B C H W) as Hf.
  assert (EN : N = (B * n)%nat) by reflexivity.
  assert (En : (C * numel [H; W])%nat = n) by reflexivity.
  rewrite En in Hfst. fold N in Hm, Hf. rewrite EN in Hm, Hf.
  unfold s_of. rewrite nn_out_take by exact Hz.
  rewrite (chunk_fst_take B C perm Hperm Hlen) by exact Hout.
  rewrite En.
  rewrite <- s_fac_x_take at 1 2. rewrite <- mask_x_take at 1.
  rewrite <- (take_batch_map2 B perm Hperm) by assumption.
  rewrite <- !take_batch_map.
  rewrite <- (take_batch_map2 B perm Hperm)
    by (rewrite ?length_map, ?map2_length, ?Hfst, ?Hf; lia).
  rewrite <- (take_batch_map2 B perm Hperm)
    by (rewrite ?map2_length, ?length_map, ?map2_length, ?Hfst, ?Hf, ?Hm; lia).
  reflexivity.
Qed.

Lemma t_of_take (z_in : list R) :
  length z_in = N ->
  t_of L B C 0 H W None (take_batch n perm z_in)
  = take_batch n perm (t_of L B C 0 H W None z_in).
Proof.
  intros Hz.
  pose proof (nn_out_length L B C 0 H W None HL eq_refl z_in Hz) as Hout.
  pose proof (chunk_snd_length B C (numel [H; W]) _ Hout) as Hsnd.
  pose proof (mask_x_length L B C H W) as Hm.
  assert (EN : N = (B * n)%nat) by reflexivity.
  assert (En : (C * numel [H; W])%nat = n) by reflexivity.
  rewrite En in Hsnd. fold N in Hm. rewrite EN in Hm.
  unfold t_of. rewrite nn_out_take by exact Hz.
  rewrite (chunk_snd_take B C perm Hperm Hlen) by exact Hout.
  rewrite En.
  rewrite <- mask_x_take at 1.
  rewrite <- !take_batch_map.
  rewrite <- (take_batch_map2 B perm Hperm) by (rewrite ?length_map; assumption).
  reflexivity.
Qed.

Lemma z_in_take (zd : list R) :
  length zd = N ->
  map2 Rmult (take_batch n perm zd) (mask_x L B C H W)
  = take_batch n perm (map2 Rmult zd (mask_x L B C H W)).
Proof.
  intros Hz. rewrite <- mask_x_take at 1.
  symmetry. apply (take_batch_map2 B perm Hperm); [exact Hz|apply mask_x_length].
Qed.

Lemma coupled_take (zd : list R) :
  length zd = N ->
  coupled L B C 0 H W None false (take_batch n perm zd)
  = take_batch n perm (coupled L B C 0 H W None false zd).
Proof.
  intros Hz.
  pose proof (z_in_length L B C H W zd Hz) as Hzin.
  pose proof (s_of_length L B C 0 H W None HL eq_refl _ Hzin) as Hs.
  pose proof (t_of_length L B C 0 H W None HL eq_refl _ Hzin) as Ht.
  assert (EN : numel [B; C; H; W] = (B * n)%nat) by reflexivity.
  unfold coupled. rewrite z_in_take by exact Hz.
  rewrite s_of_take, t_of_take by exact Hzin.
  rewrite <- take_batch_map.
  rewrite <- (take_batch_map2 B perm Hperm) by (rewrite <- EN; assumption).
  rewrite <- (take_batch_map2 B perm Hperm)
    by (rewrite ?map2_length, ?length_map, ?Hs, ?Ht, ?Hz; fold N; lia).
  reflexivity.
Qed.

Lemma s_sums_take (zd : list R) :
  length zd = N ->
  s_sums L B C 0 H W None (take_batch n perm zd)
  = take_batch 1 perm (s_sums L B C 0 H W None zd).
Proof.
  intros Hz.
  pose proof (z_in_length L B C H W zd Hz) as Hzin.
  pose proof (s_of_length L B C 0 H W None HL eq_refl _ Hzin) as Hs.
  unfold s_sums. rewrite z_in_take by exact Hz.
  rewrite s_of_take by exact Hzin.
  apply (batch_sums_take B C H W perm Hperm Hlen).
  rewrite Hs. reflexivity.
Qed.

End CouplingBatch.

Section PipelineBatch.

Variables (B C H W : nat) (perm : list nat).
Hypothesis Hperm : Forall (fun b => (b < B)%nat) perm.
Hypothesis Hlen : length perm = B.

Let N : nat := numel [B; C; H; W].
Let n : nat := numel [C; H; W].

Lemma take_batch_repeat (c : R) : take_batch 1 perm (repeat c B) = repeat c B.
Proof.
  rewrite (take_batch_vector B perm Hperm) by apply repeat_length.
  rewrite (map_ext_in _ (fun _ => c) perm).
  - now rewrite map_const, Hlen.
  - intros k Hk. rewrite Forall_forall in Hperm. apply nth_repeat_lt. auto.
Qed.

Lemma run_couplings_take (Ls : list CouplingLayer.t) (zd ld : list R) :
  Forall (fun L => coupling_ok L B C 0 H W) Ls ->
  Forall (fun L => batchwise L B C H W perm) Ls ->
  length zd = N -> length ld = B ->
  run_couplings B C H W Ls (take_batch n perm zd) (take_batch 1 perm ld)
  = (take_batch n perm (fst (run_couplings B C H W Ls zd ld)),
     take_batch 1 perm (snd (run_couplings B C H W Ls zd ld))).
Proof.
  intros HLs. revert zd ld.
  induction HLs as [|L Ls HL HLs IH]; intros zd ld Hb Hz Hl.
  - reflexivity.
  - pose proof (Forall_inv Hb) as HLb. pose proof (Forall_inv_tail Hb) as Hb'.
    cbn [run_couplings].
    rewrite (coupled_take L B C H W perm HL HLb Hperm Hlen) by exact Hz.
    rewrite (s_sums_take L B C H W perm HL HLb Hperm Hlen) by exact Hz.
    rewrite <- (take_batch_map2 B perm Hperm)
      by (unfold s_sums; rewrite ?length_map, ?length_seq; lia).
    apply IH; [exact Hb'| |].
    + now apply (coupled_length L B C 0 H W None HL eq_refl).
    + unfold s_sums. rewrite map2_length, length_map, length_seq, Hl. apply Nat.min_id.
Qed.

Variables (g g' : rng).
Hypothesis Hnoise : map g' (seq 0 N) = take_batch n perm (map g (seq 0 N)).

Lemma noisy_take (zd : list R) :
  length zd = N ->
  map2 Rplus (take_batch n perm zd) (map g' (seq 0 N))
  = take_batch n perm (map2 Rplus zd (map g (seq 0 N))).
Proof.
  intros Hz. rewrite Hnoise. symmetry.
  apply (take_batch_map2 B perm Hperm); [exact Hz|].
  now rewrite length_map, length_seq.
Qed.

Lemma dequantized_take (alpha : R) (zd : list R) :
  length zd = N ->
  dequantized B C H W alpha (take_batch n perm zd) g'
  = take_batch n perm (dequantized B C H W alpha zd g).
Proof.
  intros Hz. unfold dequantized. fold N.
  now rewrite noisy_take, !take_batch_map.
Qed.

Lemma dequant_ldj_take (alpha : R) (zd : list R) :
  length zd = N ->
  dequant_ldj B C H W alpha (take_batch n perm zd) g' (data (zeros [B]))
  = take_batch 1 perm (dequant_ldj B C H W alpha zd g (data (zeros [B]))).
Proof.
  intros Hz. unfold dequant_ldj. fold N.
  rewrite noisy_take by exact Hz.
  rewrite <- !take_batch_map.
  rewrite (batch_sums_take B C H W perm Hperm Hlen)
    by (rewrite !length_map, map2_length, length_map, length_seq, Hz; fold N;
        unfold N; cbn [numel fold_right]; lia).
  unfold zeros. cbn [data]. replace (numel [B]) with B by (cbn [numel fold_right]; lia).
  rewrite !map_repeat.
  match goal with
  | |- context [repeat ?c B] => rewrite <- (take_batch_repeat c) at 1
  end.
  symmetry. apply (take_batch_map2 B perm Hperm).
  - rewrite repeat_length. lia.
  - rewrite batch_sums_length. lia.
Qed.

Lemma pipeline_nll_take (alpha : R) (Ls : list CouplingLayer.t) (zd : list R) :
  Forall (fun L => coupling_ok L B C 0 H W) Ls ->
  Forall (fun L => batchwise L B C H W perm) Ls ->
  length zd = N ->
  pipeline_nll B C H W alpha Ls (take_batch n perm zd) g'
  = take_batch 1 perm (pipeline_nll B C H W alpha Ls zd g).
Proof.
  intros HLs Hb Hz.
  pose proof (dequantized_length B C H W alpha zd g Hz) as Hd.
  pose proof (dequant_ldj_length B C H W alpha zd _ g (zeros_length B)) as Hdl.
  destruct (run_couplings_length B C H W Ls _ _ HLs Hd Hdl) as [Hrz Hrl].
  unfold pipeline_nll. cbv zeta.
  rewrite dequantized_take, dequant_ldj_take by exact Hz.
  rewrite run_couplings_take by assumption.
  cbn [fst snd].
  rewrite <- take_batch_map.
  rewrite (batch_sums_take B C H W perm Hperm Hlen)
    by (rewrite length_map, Hrz; unfold N; cbn [numel fold_right]; lia).
  rewrite <- (take_batch_map2 B perm Hperm) by (rewrite ?batch_sums_length; lia).
  now rewrite take_batch_map.
Qed.

End PipelineBatch.
Lemma permutation_range (B : nat) (perm : list nat) :
  Permutation perm (seq 0 B) ->
  Forall (fun b => (b < B)%nat) perm /\ length perm = B.
Proof.
  intros Hp. split.
  - apply Forall_forall. intros b Hb.
    apply (Permutation_in _ Hp), in_seq in Hb. lia.
  - rewrite (Permutation_length Hp). apply length_seq.
Qed.

Lemma tensor_eq {A : Type} (a b : tensor A) :
  shape a = shape b -> data a = data b -> a = b.
Proof. destruct a, b. cbn [shape data]. now intros -> ->. Qed.

(** A network that works image by image commutes with every selection of
    batch elements. *)
Lemma samplewise_batchwise (L : CouplingLayer.t) (B C H W : nat) (idx : list nat) :
  coupling_ok L B C 0 H W -> samplewise L B C H W ->
  Forall (fun b => (b < B)%nat) idx -> length idx = B ->
  batchwise L B C H W idx.
Proof.
  intros HL Hs Hidx Hlen. split; [exact (mask_per_image _ _ _ _ _ Hs)|].
  intros x Hwf Hsh.
  destruct (network_per_image _ _ _ _ _ Hs) as (F & HF & HN).
  assert (Hx : length (data x) = (B * numel [C; H; W])%nat).
  { rewrite Hwf, Hsh. reflexivity. }
  assert (Hsh' : shape (index_batch x idx) = [B; C; H; W]).
  { unfold index_batch. cbn [shape]. now rewrite Hsh, Hlen. }
  assert (Hwf' : wf (index_batch x idx)).
  { unfold wf. rewrite Hsh'. unfold index_batch. cbn [data]. rewrite Hsh. cbn [tl].
    rewrite (take_batch_length B idx Hidx) by exact Hx. now rewrite Hlen. }
  destruct (network_shape _ _ _ _ _ _ HL x Hwf) as [_ Hnsh];
    [now rewrite Nat.add_0_r|].
  destruct (network_shape _ _ _ _ _ _ HL (index_batch x idx) Hwf') as [_ Hnsh'];
    [now rewrite Nat.add_0_r|].
  set (h := fun k => F (slice0 (numel [C; H; W]) (data x) k)).
  assert (Hrows : forall r, In r (map h (seq 0 B)) -> length r = numel [(2 * C)%nat; H; W]).
  { intros r Hr. apply in_map_iff in Hr. destruct Hr as (k & <- & Hk).
    apply in_seq in Hk. apply HF, (slice0_length _ B); [exact Hx|lia]. }
  apply tensor_eq.
  - rewrite Hnsh'. unfold index_batch. cbn [shape]. now rewrite Hnsh, Hlen.
  - rewrite (HN _ Hwf' Hsh'). unfold index_batch at 2. cbn [data].
    rewrite Hnsh. cbn [tl]. rewrite (HN x Hwf Hsh). fold h.
    unfold index_batch. cbn [data]. rewrite Hsh. cbn [tl].
    rewrite (map_ext_in _ (fun b => h (nth b idx 0%nat)) (seq 0 B)).
    + rewrite <- Hlen at 1. rewrite (map_nth_perm idx h).
      unfold take_batch. f_equal. apply map_ext_in. intros k Hk.
      rewrite Forall_forall in Hidx. specialize (Hidx k Hk).
      rewrite slice0_concat by (try exact Hrows; rewrite length_map, length_seq; exact Hidx).
      rewrite (nth_indep _ [] (h 0%nat)) by (rewrite length_map, length_seq; exact Hidx).
      now rewrite nth_map_seq.
    + intros b Hb. apply in_seq in Hb. unfold h.
      rewrite (slice0_take_batch B idx Hidx) by (try exact Hx; lia). reflexivity.
Qed.

Section Independence.

Variables (B C H W : nat) (alpha : R) (Ls : list CouplingLayer.t).
Hypothesis HLs : Forall (fun L => coupling_ok L B C 0 H W) Ls.
Hypothesis Hsw : Forall (fun L => samplewise L B C H W) Ls.

Let N : nat := numel [B; C; H; W].
Let n : nat := numel [C; H; W].

Lemma pipeline_nll_length (zd : list R) (g : rng) :
  length zd = N -> length (pipeline_nll B C H W alpha Ls zd g) = B.
Proof.
  intros Hz.
  pose proof (dequantized_length B C H W alpha zd g Hz) as Hd.
  pose proof (dequant_ldj_length B C H W alpha zd _ g (zeros_length B)) as Hdl.
  destruct (run_couplings_length B C H W Ls _ _ HLs Hd Hdl) as [_ Hrl].
  unfold pipeline_nll. cbv zeta.
  rewrite length_map, map2_length, Hrl, batch_sums_length. apply Nat.min_id.
Qed.

Lemma take_batch_copies {A : Type} (m b : nat) (l : list A) :
  take_batch m (repeat b B) l = concat (repeat (slice0 m l b) B).
Proof. unfold take_batch. now rewrite map_repeat. Qed.

(** The value for the image [b] is that of a batch made of copies of this
    image, so that it does not depend on the other images. *)
Lemma pipeline_nll_independent (zd1 zd2 : list R) (g1 g2 : rng) (b : nat) :
  length zd1 = N -> length zd2 = N -> (b < B)%nat ->
  slice0 n zd2 b = slice0 n zd1 b ->
  slice0 n (map g2 (seq 0 N)) b = slice0 n (map g1 (seq 0 N)) b ->
  nth b (pipeline_nll B C H W alpha Ls zd2 g2) 0
  = nth b (pipeline_nll B C H W alpha Ls zd1 g1) 0.
Proof.
  intros Hz1 Hz2 Hb Ez Eg.
  set (idx := repeat b B).
  assert (Hidx : Forall (fun k => (k < B)%nat) idx).
  { apply Forall_forall. intros k Hk. apply repeat_spec in Hk. now subst k. }
  assert (Hlen : length idx = B) by apply repeat_length.
  assert (Hbw : Forall (fun L => batchwise L B C H W idx) Ls).
  { apply Forall_forall. intros L HL.
    pose proof (proj1 (Forall_forall _ _) HLs L HL) as H1.
    pose proof (proj1 (Forall_forall _ _) Hsw L HL) as H2.
    now apply samplewise_batchwise. }
  set (noise := take_batch n idx (map g1 (seq 0 N))).
  assert (Hnl : length noise = N).
  { unfold noise. rewrite (take_batch_length B idx Hidx).
    - now rewrite Hlen.
    - now rewrite length_map, length_seq. }
  set (g' := fun i => nth i noise 0).
  assert (Hn1 : map g' (seq 0 N) = take_batch n idx (map g1 (seq 0 N))).
  { fold noise. rewrite <- Hnl. now apply map_seq_nth with (d := 0). }
  assert (Hn2 : map g' (seq 0 N) = take_batch n idx (map g2 (seq 0 N))).
  { rewrite Hn1. unfold idx. now rewrite !take_batch_copies, Eg. }
  pose proof (pipeline_nll_take B C H W idx Hidx Hlen g1 g' Hn1 alpha Ls zd1 HLs Hbw Hz1) as E1.
  pose proof (pipeline_nll_take B C H W idx Hidx Hlen g2 g' Hn2 alpha Ls zd2 HLs Hbw Hz2) as E2.
  assert (Et : take_batch n idx zd2 = take_batch n idx zd1).
  { unfold idx. now rewrite !take_batch_copies, Ez. }
  fold n in E1, E2. rewrite Et, E1 in E2.
  rewrite !(take_batch_vector B idx Hidx) in E2 by now apply pipeline_nll_length.
  unfold idx in E2. rewrite !map_repeat in E2.
  destruct B as [|B']; [lia|]. cbn [repeat] in E2. now injection E2 as E2 _.
Qed.

End Independence.

(** * The checkerboard mask *)

Lemma wrap_int32_small (x : Z) :
  (- 2147483648 <= x < 2147483648)%Z -> wrap_int32 x = x.
Proof. intros H. unfold wrap_int32. rewrite Z.mod_small by lia. lia. Qed.

Lemma nth_concat_rows {A : Type} (rows : list (list A)) (w i j : nat) (d : A) :
  (forall x, In x rows -> length x = w) -> (i < length rows)%nat -> (j < w)%nat ->
  nth (i * w + j) (concat rows) d = nth j (nth i rows []) d.
Proof.
  intros Hrows Hi Hj.
  rewrite <- (nth_slice0 w i j) by exact Hj.
  now rewrite slice0_concat.
Qed.

Lemma rem_2_of_nat (n : nat) : IZR (Z.rem (Z.of_nat n) 2) = INR (n mod 2).
Proof.
  rewrite Z.rem_mod_nonneg by lia.
  rewrite INR_IZR_INZ, Nat2Z.inj_mod. reflexivity.
Qed.

(** The storage of the mask: the cell at offset [o] is in row [o / w] and
    column [o mod w]. *)
Lemma checkerboard_eq (h w : nat) (invert : bool) :
  (Z.of_nat h + Z.of_nat w <= 2147483648)%Z ->
  create_checkerboard_mask h w invert =
  Some (mkTensor [1; 1; h; w]%nat
          (map (fun o => if invert then 1 - INR ((o / w + o mod w) mod 2)
                         else INR ((o / w + o mod w) mod 2))
             (seq 0 (h * w)))).
Proof.
  intros Hfit.
  unfold create_checkerboard_mask, meshgrid, arange. cbn [shape data].
  replace (numel [h]) with h by (cbn [numel fold_right]; lia).
  replace (numel [w]) with w by (cbn [numel fold_right]; lia).
  set (xs := map (fun i => wrap_int32 (Z.of_nat i)) (seq 0 h)).
  set (ys := map (fun i => wrap_int32 (Z.of_nat i)) (seq 0 w)).
  assert (Hxs : length xs = h) by (unfold xs; now rewrite length_map, length_seq).
  assert (Hys : length ys = w) by (unfold ys; now rewrite length_map, length_seq).
  assert (Hxrows : forall x, In x (map (fun a => repeat a w) xs) -> length x = w).
  { intros x Hx. apply in_map_iff in Hx. destruct Hx as (a & <- & _). apply repeat_length. }
  assert (Hyrows : forall x, In x (repeat ys h) -> length x = w).
  { intros x Hx. apply repeat_spec in Hx. now subst x. }
  assert (Hxx : length (concat (map (fun a => repeat a w) xs)) = (h * w)%nat).
  { rewrite (length_concat_const w) by exact Hxrows. now rewrite length_map, Hxs. }
  assert (Hyy : length (concat (repeat ys h)) = (h * w)%nat).
  { rewrite (length_concat_const w) by exact Hyrows. now rewrite repeat_length. }
  rewrite tbin_some
    by (try apply broadcastable_refl; unfold wf; cbn [shape data numel fold_right]; lia).
  cbn [obind shape data tmap].
  rewrite (expand_same_shape 0%Z _ [h; w])
    by (try reflexivity; unfold wf; cbn [shape data numel fold_right]; lia).
  cbn [data].
  rewrite reshape_some by (cbn [shape tmap numel fold_right]; lia).
  cbn [obind data].
  assert (E : map IZR
                (map (fun v => Z.rem v 2)
                   (map2 (fun a b => wrap_int32 (a + b))
                      (concat (map (fun a => repeat a w) xs)) (concat (repeat ys h))))
              = map (fun o => INR ((o / w + o mod w) mod 2)) (seq 0 (h * w))).
  { apply (nth_ext _ _ 0 0).
    - rewrite !length_map, map2_length, length_seq. lia.
    - intros o Ho. rewrite !length_map, map2_length, Hxx, Hyy, Nat.min_id in Ho.
      assert (Hw : w <> 0%nat) by (intros ->; lia).
      assert (Hi : (o / w < h)%nat) by (apply Nat.Div0.div_lt_upper_bound; lia).
      assert (Hj : (o mod w < w)%nat) by now apply Nat.mod_upper_bound.
      rewrite nth_map_seq by exact Ho.
      rewrite (nth_map_lt _ _ 0%Z) by (rewrite length_map, map2_length; lia).
      rewrite (nth_map_lt _ _ 0%Z) by (rewrite map2_length; lia).
      rewrite (map2_nth _ _ _ 0%Z 0%Z) by lia.
      rewrite (Nat.div_mod_eq o w) at 1 2.
      rewrite (Nat.mul_comm w).
      rewrite !nth_concat_rows
        by (assumption || (rewrite ?length_map, ?repeat_length; lia)).
      rewrite (nth_map_lt _ _ 0%Z) by lia.
      rewrite nth_repeat_lt by exact Hj.
      rewrite (nth_indep _ [] ys) by (rewrite repeat_length; lia).
      rewrite nth_repeat.
      unfold xs, ys. rewrite !nth_map_seq by lia.
      rewrite (wrap_int32_small (Z.of_nat (o / w))) by lia.
      rewrite (wrap_int32_small (Z.of_nat (o mod w))) by lia.
      rewrite wrap_int32_small by lia.
      rewrite <- Nat2Z.inj_add. apply rem_2_of_nat. }
  destruct invert.
  - unfold tmap. cbn [shape data]. rewrite E, map_map. reflexivity.
  - unfold tmap. cbn [shape data]. now rewrite E.
Qed.

Lemma checkerboard_cell (h w i j : nat) (f : nat -> R) :
  (i < h)%nat -> (j < w)%nat ->
  tget 0 (mkTensor [1; 1; h; w]%nat (map f (seq 0 (h * w)))) [0; 0; i; j]%nat = f (i * w + j)%nat.
Proof.
  intros Hi Hj. unfold tget. cbn [shape data ravel numel fold_right].
  replace (0 * (1 * (h * (w * 1))) + (0 * (h * (w * 1)) + (i * (w * 1) + (j * 1 + 0))))%nat
    with (i * w + j)%nat by lia.
  apply nth_map_seq. nia.
Qed.

Lemma cell_row_col (w i j : nat) :
  (j < w)%nat -> ((i * w + j) / w = i /\ (i * w + j) mod w = j)%nat.
Proof.
  intros Hj. split.
  - rewrite Nat.div_add_l by lia. rewrite Nat.div_small by exact Hj. lia.
  - rewrite Nat.add_comm, Nat.Div0.mod_add. now apply Nat.mod_small.
Qed.

Lemma INR_mod_2 (n : nat) : INR (n mod 2) = 0 \/ INR (n mod 2) = 1.
Proof.
  pose proof (Nat.mod_upper_bound n 2 ltac:(lia)) as H.
  destruct (n mod 2)%nat as [|[|k]]; [left|right|lia]; reflexivity.
Qed.

Lemma INR_mod_2_succ (n : nat) : INR (n mod 2) + INR (S n mod 2) = 1.
Proof.
  pose proof (Nat.mod_upper_bound n 2 ltac:(lia)) as H.
  pose proof (Nat.mod_upper_bound (S n) 2 ltac:(lia)) as H'.
  pose proof (Nat.div_mod_eq n 2) as E. pose proof (Nat.div_mod_eq (S n) 2) as E'.
  assert (Hs : (n mod 2 + S n mod 2 = 1)%nat) by lia.
  rewrite <- plus_INR, Hs. reflexivity.
Qed.

(** X1.  For sizes that fit in 32 bits, [create_checkerboard_mask h w] is a
    well-formed mask of shape [(1, 1, h, w)] whose cell [(i, j)] is
    [(i + j) mod 2], and [invert=True] gives 1 minus that mask. *)
Theorem create_checkerboard_mask_cells (h w : nat) :
  (Z.of_nat h + Z.of_nat w <= 2147483648)%Z ->
  exists m : tensor R,
    create_checkerboard_mask h w false = Some m /\
    shape m = [1; 1; h; w]%nat /\
    wf m /\
    (forall i j : nat, (i < h)%nat -> (j < w)%nat ->
       tget 0 m [0; 0; i; j]%nat = INR ((i + j) mod 2)) /\
    create_checkerboard_mask h w true = Some (tmap (fun x => 1 - x) m).
Proof.
  intros Hfit. eexists. split; [apply (checkerboard_eq h w false Hfit)|].
  split; [reflexivity|]. split.
  { unfold wf. cbn [shape data numel fold_right]. rewrite length_map, length_seq. lia. }
  split.
  - intros i j Hi Hj. rewrite checkerboard_cell by assumption.
    destruct (cell_row_col w i j Hj) as [-> ->]. reflexivity.
  - rewrite (checkerboard_eq h w true Hfit). unfold tmap. cbn [shape data].
    now rewrite map_map.
Qed.

Lemma create_checkerboard_mask_cells_witness :
  exists m : tensor R,
    create_checkerboard_mask 28 28 false = Some m /\
    shape m = [1; 1; 28; 28]%nat /\
    wf m /\
    (forall i j : nat, (i < 28)%nat -> (j < 28)%nat ->
       tget 0 m [0; 0; i; j]%nat = INR ((i + j) mod 2)) /\
    create_checkerboard_mask 28 28 true = Some (tmap (fun x => 1 - x) m).
Proof. apply (create_checkerboard_mask_cells 28 28). lia. Defined.

(** X2.  Either checkerboard mask holds only zeros and ones, and two cells
    that are neighbours in a row or in a column always differ: one of them
    is 0 and the other is 1. *)
Theorem checkerboard_alternates (h w : nat) (invert : bool) :
  (Z.of_nat h + Z.of_nat w <= 2147483648)%Z ->
  exists m : tensor R,
    create_checkerboard_mask h w invert = Some m /\
    binary_mask m /\
    (forall i j : nat, (i < h)%nat -> (S j < w)%nat ->
       tget 0 m [0; 0; i; j]%nat + tget 0 m [0; 0; i; S j]%nat = 1) /\
    (forall i j : nat, (S i < h)%nat -> (j < w)%nat ->
       tget 0 m [0; 0; i; j]%nat + tget 0 m [0; 0; S i; j]%nat = 1).
Proof.
  intros Hfit. eexists. split; [apply (checkerboard_eq h w invert Hfit)|].
  split; [|split].
  - unfold binary_mask. cbn [data]. apply Forall_forall. intros x Hx.
    apply in_map_iff in Hx. destruct Hx as (o & <- & _).
    destruct (INR_mod_2 (o / w + o mod w)) as [-> | ->], invert; lra.
  - intros i j Hi Hj. rewrite !checkerboard_cell by lia.
    destruct (cell_row_col w i j ltac:(lia)) as [-> ->].
    destruct (cell_row_col w i (S j) ltac:(lia)) as [-> ->].
    pose proof (INR_mod_2_succ (i + j)) as E.
    replace (i + S j)%nat with (S (i + j)) by lia.
    destruct invert; lra.
  - intros i j Hi Hj. rewrite !checkerboard_cell by lia.
    destruct (cell_row_col w i j ltac:(lia)) as [-> ->].
    destruct (cell_row_col w (S i) j ltac:(lia)) as [-> ->].
    pose proof (INR_mod_2_succ (i + j)) as E.
    replace (S i + j)%nat with (S (i + j)) by lia.
    destruct invert; lra.
Qed.

Lemma checkerboard_alternates_witness :
  exists m : tensor R,
    create_checkerboard_mask 28 28 true = Some m /\
    binary_mask m /\
    (forall i j : nat, (i < 28)%nat -> (S j < 28)%nat ->
       tget 0 m [0; 0; i; j]%nat + tget 0 m [0; 0; i; S j]%nat = 1) /\
    (forall i j : nat, (S i < 28)%nat -> (j < 28)%nat ->
       tget 0 m [0; 0; i; j]%nat + tget 0 m [0; 0; S i; j]%nat = 1).
Proof. apply (checkerboard_alternates 28 28 true). lia. Defined.

(** * Discretization *)

Lemma Ztrunc_nonneg (x : R) : 0 <= x -> Ztrunc x = Zfloor x.
Proof.
  intros Hx. unfold Ztrunc. destruct (Rlt_dec x 0) as [Hlt|_]; [lra|reflexivity].
Qed.

(** X3.  [discretize] keeps the shape and, on intensities in [[0, 1]],
    returns integer levels in [[0, 255]]; over the reals the intensity
    [k / 255] of a level [k] gives back [k]. *)
Theorem discretize_levels (sample : tensor R) :
  Forall (fun x => 0 <= x <= 1) (data sample) ->
  shape (discretize sample) = shape sample /\
  length (data (discretize sample)) = length (data sample) /\
  Forall (fun v => (0 <= v <= 255)%Z) (data (discretize sample)) /\
  forall (i : nat) (k : Z),
    (i < length (data sample))%nat -> (0 <= k <= 255)%Z ->
    nth i (data sample) 0 = IZR k / 255 ->
    nth i (data (discretize sample)) 0%Z = k.
Proof.
  intros Hrange. unfold discretize, to_int32, tmap. cbn [shape data].
  split; [reflexivity|]. split; [now rewrite !length_map|]. split.
  - rewrite map_map. apply Forall_map.
    eapply Forall_impl; [|exact Hrange]. cbv beta. intros x Hx.
    rewrite Ztrunc_nonneg by nra.
    pose proof (Zfloor_bound (x * 255)) as Hb.
    split.
    + apply Zfloor_lub. simpl. nra.
    + apply Z.lt_succ_r, lt_IZR. rewrite succ_IZR. lra.
  - intros i k Hi Hk E.
    rewrite map_map, (nth_map_lt _ _ 0) by exact Hi. rewrite E.
    replace (IZR k / 255 * 255) with (IZR k) by lra.
    apply Ztrunc_IZR_nonneg. lia.
Qed.

Lemma discretize_levels_witness :
  shape (discretize (mkTensor [1; 1; 1; 2]%nat [0; 1])) = [1; 1; 1; 2]%nat /\
  length (data (discretize (mkTensor [1; 1; 1; 2]%nat [0; 1]))) = 2%nat /\
  Forall (fun v => (0 <= v <= 255)%Z) (data (discretize (mkTensor [1; 1; 1; 2]%nat [0; 1]))) /\
  forall (i : nat) (k : Z),
    (i < 2)%nat -> (0 <= k <= 255)%Z ->
    nth i [0; 1] 0 = IZR k / 255 ->
    nth i (data (discretize (mkTensor [1; 1; 1; 2]%nat [0; 1]))) 0%Z = k.
Proof.
  apply (discretize_levels (mkTensor [1; 1; 1; 2]%nat [0; 1])).
  repeat constructor; lra.
Defined.

(** * The sigmoid and the logit of the dequantization layers *)

Section SigmoidScalars.

Lemma ln_le_mono (x y : R) : 0 < x -> x <= y -> ln x <= ln y.
Proof.
  intros Hx [Hlt| ->]; [|lra]. left. now apply ln_increasing.
Qed.

Lemma torch_sigmoid_unit (x : R) : 0 < torch_sigmoid x < 1.
Proof.
  unfold torch_sigmoid. pose proof (exp_pos (- x)) as He.
  split.
  - apply Rdiv_lt_0_compat; lra.
  - apply (Rmult_lt_reg_r (1 + exp (- x))); [lra|].
    unfold Rdiv. rewrite Rmult_assoc, Rinv_l by lra. lra.
Qed.

Lemma logit_lower (x : R) : exp (- 20) <= x < 1 -> - 20 <= ln x - ln (1 - x).
Proof.
  intros [Hlo Hhi]. pose proof (exp_pos (- 20)) as He.
  assert (H1 : ln (exp (- 20)) <= ln x) by (apply ln_le_mono; lra).
  rewrite ln_exp in H1.
  assert (H2 : ln (1 - x) <= ln 1) by (apply ln_le_mono; lra).
  rewrite ln_1 in H2. lra.
Qed.

(** On the logit of [x], the summand of the sigmoid direction is the
    opposite of the summand of the logit direction. *)
Lemma softplus_logit (x : R) :
  exp (- 20) <= x < 1 ->
  let y := ln x - ln (1 - x) in
  - y - 2 * softplus (- y) = - (- ln x - ln (1 - x)).
Proof.
  intros Hx y. pose proof (exp_pos (- 20)) as He.
  pose proof (logit_lower x Hx) as Hy. fold y in Hy.
  unfold softplus. destruct (Rlt_dec 20 (- y)) as [Hbig|_]; [lra|].
  assert (E : 1 + exp (- y) = / x).
  { unfold y. replace (- (ln x - ln (1 - x))) with (ln (1 - x) + - ln x) by lra.
    rewrite exp_plus, exp_Ropp, !exp_ln by lra. field. lra. }
  rewrite E, ln_Rinv by lra. unfold y. lra.
Qed.

Lemma blend_range (alpha x : R) :
  0 < alpha < 1 -> 0 <= x <= 1 ->
  alpha / 2 <= x * (1 - alpha) + 0.5 * alpha <= 1 - alpha / 2.
Proof. intros Ha Hx. split; nra. Qed.

End SigmoidScalars.

Lemma Rsum_opp (l : list R) : Rsum (map Ropp l) = - Rsum l.
Proof.
  induction l as [|x l IH]; cbn [map Rsum fold_right].
  - lra.
  - fold (Rsum (map Ropp l)). fold (Rsum l). rewrite IH. lra.
Qed.

Lemma batch_sums_opp (B C H W : nat) (l : list R) :
  batch_sums B C H W (map Ropp l) = map Ropp (batch_sums B C H W l).
Proof.
  unfold batch_sums. rewrite map_map. apply map_ext. intros b.
  now rewrite <- slice0_map, Rsum_opp.
Qed.

Lemma map2_plus_opp (a s : list R) :
  length s = length a -> map2 Rplus (map2 Rplus a s) (map Ropp s) = a.
Proof.
  revert s. induction a as [|x a IH]; intros [|y s] Hl; try discriminate; cbn [map2 map].
  - reflexivity.
  - rewrite IH by (simpl in Hl; lia). f_equal. lra.
Qed.

(** X4.  The two directions of [Dequantization.sigmoid] are not inverse to
    each other.  On values in [[0, 1]], for [alpha] in [[2 exp(-20), 1)], the
    logit direction ([reverse=True]) followed by the sigmoid direction
    ([reverse=False]) returns [z * (1 - alpha) + 0.5 * alpha] instead of [z],
    and leaves [log(1 - alpha)] per element in [ldj]: the sums of the two
    directions cancel, the constant does not. *)
Theorem sigmoid_roundtrip_blend (alpha : R) (z ldj : tensor R) (B C H W : nat) :
  2 * exp (- 20) <= alpha < 1 ->
  shape z = [B; C; H; W] -> wf ldj -> shape ldj = [B] ->
  Forall (fun x => 0 <= x <= 1) (data z) ->
  exists y l1 : tensor R,
    Dequantization.sigmoid alpha z ldj true = Some (y, l1) /\
    Dequantization.sigmoid alpha y l1 false =
    Some (tmap (fun x => x * (1 - alpha) + 0.5 * alpha) z,
          tmap (fun l => l + ln (1 - alpha) * INR (numel [C; H; W])) ldj).
Proof.
  intros Ha Hz Hlwf Hl Hrange.
  pose proof (exp_pos (- 20)) as He.
  do 2 eexists. split; [now apply (sigmoid_reverse_eq B C H W)|].
  rewrite (sigmoid_forward_eq B C H W) by (cbn [shape tmap]; auto).
  unfold tmap. cbn [shape data]. rewrite Hl. do 2 f_equal.
  - f_equal. rewrite !map_map. apply map_ext_in. intros x Hx.
    rewrite Forall_forall in Hrange.
    pose proof (blend_range alpha x ltac:(lra) (Hrange x Hx)) as Hb.
    apply sigmoid_logit. lra.
  - f_equal.
    set (X := map (fun x => x * (1 - alpha) + 0.5 * alpha) (data z)).
    assert (E : map (fun x => - x - 2 * softplus (- x)) (map (fun x => ln x - ln (1 - x)) X)
                = map Ropp (map (fun x => - ln x - ln (1 - x)) X)).
    { rewrite !map_map. apply map_ext_in. intros x Hx.
      unfold X in Hx. apply in_map_iff in Hx. destruct Hx as (x0 & <- & Hx0).
      rewrite Forall_forall in Hrange.
      pose proof (blend_range alpha x0 ltac:(lra) (Hrange x0 Hx0)) as Hb.
      apply softplus_logit. lra. }
    rewrite E, batch_sums_opp. apply map2_plus_opp.
    rewrite batch_sums_length, length_map.
    unfold wf in Hlwf. rewrite Hlwf, Hl. cbn [numel fold_right]. lia.
Qed.

Lemma exp_m20_small : exp (- 20) < 1 / 1000000.
Proof.
  pose proof exp_5_gt_32 as H5.
  assert (E : exp 20 = exp 5 * exp 5 * (exp 5 * exp 5)).
  { rewrite <- !exp_plus. f_equal. lra. }
  assert (H10 : 1024 < exp 5 * exp 5) by nra.
  assert (H20 : 1000000 < exp 20) by (rewrite E; nra).
  replace (exp (- 20)) with (exp (Ropp 20)) by (f_equal; lra).
  rewrite exp_Ropp. unfold Rdiv. rewrite Rmult_1_l.
  apply Rinv_lt_contravar; [nra|exact H20].
Qed.

Lemma sigmoid_roundtrip_blend_witness :
  exists y l1 : tensor R,
    Dequantization.sigmoid (1 / 100000) (mkTensor [1; 1; 1; 2]%nat [0; 1])
      (mkTensor [1]%nat [0]) true = Some (y, l1) /\
    Dequantization.sigmoid (1 / 100000) y l1 false =
    Some (tmap (fun x => x * (1 - 1 / 100000) + 0.5 * (1 / 100000))
            (mkTensor [1; 1; 1; 2]%nat [0; 1]),
          tmap (fun l => l + ln (1 - 1 / 100000) * INR (numel [1; 1; 2]%nat))
            (mkTensor [1]%nat [0])).
Proof.
  apply (sigmoid_roundtrip_blend (1 / 100000) (mkTensor [1; 1; 1; 2]%nat [0; 1])
           (mkTensor [1]%nat [0]) 1 1 1 2).
  - pose proof exp_m20_small. lra.
  - reflexivity.
  - reflexivity.
  - reflexivity.
  - repeat constructor; lra.
Defined.

(** * The density direction of the dequantization layer is bounded *)

Lemma logit_bounded (alpha x : R) :
  0 < alpha < 1 -> alpha / 2 <= x <= 1 - alpha / 2 ->
  Rabs (ln x - ln (1 - x)) <= ln ((2 - alpha) / alpha).
Proof.
  intros Ha Hx.
  assert (E : ln ((2 - alpha) / alpha) = ln (1 - alpha / 2) - ln (alpha / 2)).
  { replace ((2 - alpha) / alpha) with ((1 - alpha / 2) / (alpha / 2)) by (field; lra).
    assert (Hi : 0 < / (alpha / 2)) by (apply Rinv_0_lt_compat; lra).
    unfold Rdiv at 1. rewrite ln_mult by lra. rewrite ln_Rinv by lra. lra. }
  rewrite E.
  assert (H1 : ln (alpha / 2) <= ln x) by (apply ln_le_mono; lra).
  assert (H2 : ln x <= ln (1 - alpha / 2)) by (apply ln_le_mono; lra).
  assert (H3 : ln (alpha / 2) <= ln (1 - x)) by (apply ln_le_mono; lra).
  assert (H4 : ln (1 - x) <= ln (1 - alpha / 2)) by (apply ln_le_mono; lra).
  apply Rabs_le. lra.
Qed.

(** X5.  On pixel values in [[0, 255]], with noise in [[0, 1)] and
    [0 < alpha < 1], the density direction of [Dequantization] returns a
    float tensor of the shape of the images, all of whose elements are at
    most [log((2 - alpha) / alpha)] in absolute value: the blend with
    [alpha] keeps the logit away from the ends of the unit interval. *)
Theorem dequantization_forward_bounded (alpha : R) (imgs : tensor Z) (ldj : tensor R)
    (g : rng) (B C H W : nat) :
  0 < alpha < 1 ->
  wf imgs -> shape imgs = [B; C; H; W] -> shape ldj = [B] ->
  Forall (fun v => (0 <= v <= 255)%Z) (data imgs) ->
  (forall i : nat, (i < numel [B; C; H; W])%nat -> 0 <= g i < 1) ->
  exists (z ldj' : tensor R) (g' : rng),
    Dequantization.forward (Dequantization.init alpha) (IntTensor imgs) ldj false g
      = Some ((FloatTensor z, ldj'), g') /\
    shape z = shape imgs /\
    wf z /\
    Forall (fun y => Rabs y <= ln ((2 - alpha) / alpha)) (data z).
Proof.
  intros Ha Hwf Hsh Hl Hrange Hg.
  assert (Hlen : length (data imgs) = numel [B; C; H; W]) by (rewrite <- Hsh; exact Hwf).
  assert (Hm2 : length (map2 Rplus (map IZR (data imgs)) (map g (seq 0 (numel [B; C; H; W]))))
                = numel [B; C; H; W]).
  { rewrite map2_length, !length_map, length_seq, Hlen. apply Nat.min_id. }
  assert (Hd : length (dequantized B C H W alpha (map IZR (data imgs)) g) = numel [B; C; H; W]).
  { unfold dequantized. now rewrite !length_map. }
  do 3 eexists. split.
  { apply (dequantization_forward_eq B C H W); [exact Hsh| |exact Hl].
    unfold wf. cbn [to_float32 tmap shape data]. now rewrite length_map. }
  cbn [shape data to_float32 tmap].
  split; [now rewrite Hsh|]. split; [exact Hd|].
  apply Forall_nth. intros i d Hi. rewrite Hd in Hi.
  rewrite (nth_indep _ d 0) by (rewrite Hd; exact Hi).
  unfold dequantized.
  rewrite (nth_map_lt _ _ 0) by now rewrite !length_map, Hm2.
  rewrite (nth_map_lt _ _ 0) by now rewrite !length_map, Hm2.
  rewrite (nth_map_lt _ _ 0) by now rewrite Hm2.
  rewrite (map2_nth _ _ _ 0 0 0) by (rewrite ?length_map, ?length_seq; lia).
  rewrite (nth_map_lt _ _ 0%Z) by lia.
  rewrite nth_map_seq by exact Hi.
  assert (Hv : (0 <= nth i (data imgs) 0 <= 255)%Z).
  { rewrite Forall_forall in Hrange. apply Hrange, nth_In. lia. }
  assert (Hv' : 0 <= IZR (nth i (data imgs) 0%Z) <= 255) by (split; apply IZR_le; lia).
  specialize (Hg i Hi).
  apply logit_bounded; [exact Ha|].
  apply blend_range; [exact Ha|]. split.
  - apply Rmult_le_pos; lra.
  - lra.
Qed.

Lemma dequantization_forward_bounded_witness :
  exists (z ldj' : tensor R) (g' : rng),
    Dequantization.forward (Dequantization.init (1 / 100000))
      (IntTensor (mkTensor [1; 1; 1; 2]%nat [0; 255]%Z)) (mkTensor [1]%nat [0]) false
      (fun _ => 0)
      = Some ((FloatTensor z, ldj'), g') /\
    shape z = [1; 1; 1; 2]%nat /\
    wf z /\
    Forall (fun y => Rabs y <= ln ((2 - 1 / 100000) / (1 / 100000))) (data z).
Proof.
  apply (dequantization_forward_bounded (1 / 100000) (mkTensor [1; 1; 1; 2]%nat [0; 255]%Z)
           (mkTensor [1]%nat [0]) (fun _ => 0) 1 1 1 2).
  - lra.
  - reflexivity.
  - reflexivity.
  - reflexivity.
  - repeat constructor; lia.
  - intros i _. lra.
Defined.

(** * Variational dequantization *)

Lemma run_var_flows_some (B C H W : nat) (Ls : list CouplingLayer.t)
    (img n ldj : tensor R) :
  Forall (fun L => coupling_ok L B C C H W) Ls ->
  wf img -> shape img = [B; C; H; W] ->
  wf n -> shape n = [B; C; H; W] -> wf ldj -> shape ldj = [B] ->
  exists n' l' : tensor R,
    VariationalDequantization.run_var_flows Ls img n ldj = Some (n', l') /\
    wf n' /\ shape n' = [B; C; H; W] /\ wf l' /\ shape l' = [B].
Proof.
  intros HLs Hiwf Hish. revert n ldj.
  induction HLs as [|L Ls HL _ IH]; intros n ldj Hnwf Hnsh Hlwf Hl.
  - exists n, ldj. repeat split; assumption.
  - cbn [VariationalDequantization.run_var_flows].
    assert (Ho : orig_img_ok (Some img) B C H W) by (split; assumption).
    rewrite (forward_eq L B C C H W (Some img) HL Ho) by assumption.
    cbn [obind].
    apply IH; [|reflexivity| |reflexivity].
    + unfold wf. cbn [shape data].
      apply (coupled_length L B C C H W (Some img) HL Ho).
      rewrite <- Hnsh. exact Hnwf.
    + unfold wf in *. cbn [shape data negb]. unfold s_sums.
      rewrite map2_length, length_map, length_seq, Hlwf, Hl.
      cbn [numel fold_right]. lia.
Qed.

(** The dequantized image: the pixel values plus a noise that went through
    [torch.sigmoid], over 256. *)
Lemma vardeq_dequant_some (B C H W : nat) (var_flows : list CouplingLayer.t) (alpha : R)
    (imgs : tensor Z) (ldj : tensor R) (g : rng) :
  Forall (fun L => coupling_ok L B C C H W) var_flows ->
  wf imgs -> shape imgs = [B; C; H; W] -> wf ldj -> shape ldj = [B] ->
  exists (n' l' : tensor R),
    VariationalDequantization.dequant var_flows alpha (IntTensor imgs) ldj g
    = Some ((mkTensor [B; C; H; W]
               (map (fun x => x / 256)
                  (map2 Rplus (map IZR (data imgs)) (map torch_sigmoid (data n')))),
             l'),
            fun i => g (numel [B; C; H; W] + i)%nat) /\
    length (data n') = numel [B; C; H; W] /\ wf l' /\ shape l' = [B].
Proof.
  intros HLs Hwf Hsh Hlwf Hl.
  assert (Hld : length (data ldj) = B).
  { unfold wf in Hlwf. rewrite Hlwf, Hl. cbn [numel fold_right]. lia. }
  assert (Hlen : length (data imgs) = numel [B; C; H; W]) by (rewrite <- Hsh; exact Hwf).
  unfold VariationalDequantization.dequant, rand_like, draw.
  cbn [to_float32 tmap shape data]. rewrite Hsh.
  unfold bind at 1.
  unfold bind at 1. unfold lift at 1.
  rewrite (sigmoid_reverse_eq B C H W) by (try reflexivity; exact Hl).
  unfold bind at 1. unfold lift at 1.
  match goal with
  | |- context [VariationalDequantization.run_var_flows ?fl ?im ?n ?l] =>
      destruct (run_var_flows_some B C H W fl im n l HLs)
        as (n' & l' & E & Hn'wf & Hn'sh & Hl'wf & Hl'sh)
  end.
  { unfold wf, tmap. cbn [shape data]. now rewrite !length_map, Hsh. }
  { unfold tmap. cbn [shape]. exact Hsh. }
  { unfold wf, tmap. cbn [shape data]. now rewrite !length_map, length_seq. }
  { reflexivity. }
  { unfold wf. cbn [shape data numel fold_right].
    rewrite map2_length, length_map, batch_sums_length, Hld. lia. }
  { reflexivity. }
  assert (Hl'len : length (data l') = B).
  { unfold wf in Hl'wf. rewrite Hl'wf, Hl'sh. cbn [numel fold_right]. lia. }
  exists n'. eexists.
  rewrite E.
  unfold bind at 1. unfold lift at 1.
  rewrite (sigmoid_forward_eq B C H W) by assumption.
  unfold bind, lift, ret, tadd.
  rewrite tbin_some
    by (cbn [shape tmap];
        first [rewrite Hn'sh, Hsh; apply broadcastable_refl
              |unfold wf, tmap; cbn [shape data]; now rewrite length_map]).
  cbn [shape data tmap]. rewrite Hsh.
  rewrite (expand_same_shape 0 _ [B; C; H; W])
    by (try exact Hn'sh; unfold wf, tmap; cbn [shape data]; rewrite length_map; exact Hn'wf).
  unfold prod_shape_tail, tmap. cbn [shape data tl].
  split; [reflexivity|]. split; [rewrite <- Hn'sh; exact Hn'wf|].
  split; [|reflexivity].
  unfold wf. cbn [shape data numel fold_right].
  rewrite length_map, map2_length, batch_sums_length, Hl'len. lia.
Qed.

(** X6.  Whatever its coupling layers compute, [VariationalDequantization]
    dequantizes every pixel inside its own bin: on an integer image batch of
    shape [(B, C, H, W)], with coupling layers that fit that shape and a
    [C]-channel conditioning image, [dequant] returns a tensor of the same
    shape whose element for the pixel value [v] lies strictly between
    [v / 256] and [(v + 1) / 256]. *)
Theorem vardeq_dequant_in_bin (var_flows : list CouplingLayer.t) (alpha : R)
    (imgs : tensor Z) (ldj : tensor R) (g : rng) (B C H W : nat) :
  Forall (fun L => coupling_ok L B C C H W) var_flows ->
  wf imgs -> shape imgs = [B; C; H; W] -> wf ldj -> shape ldj = [B] ->
  exists (z ldj' : tensor R) (g' : rng),
    VariationalDequantization.dequant var_flows alpha (IntTensor imgs) ldj g
      = Some ((z, ldj'), g') /\
    shape z = [B; C; H; W] /\ wf z /\ shape ldj' = [B] /\
    forall i : nat, (i < numel [B; C; H; W])%nat ->
      IZR (nth i (data imgs) 0%Z) / 256 < nth i (data z) 0
        < (IZR (nth i (data imgs) 0%Z) + 1) / 256.
Proof.
  intros HLs Hwf Hsh Hlwf Hl.
  assert (Hlen : length (data imgs) = numel [B; C; H; W]) by (rewrite <- Hsh; exact Hwf).
  destruct (vardeq_dequant_some B C H W var_flows alpha imgs ldj g HLs Hwf Hsh Hlwf Hl)
    as (n' & l' & E & Hn' & _ & Hl').
  assert (Hm2 : length (map2 Rplus (map IZR (data imgs)) (map torch_sigmoid (data n')))
                = numel [B; C; H; W]).
  { rewrite map2_length, !length_map, Hlen, Hn'. apply Nat.min_id. }
  do 3 eexists. split; [exact E|].
  cbn [shape data tmap].
  split; [reflexivity|]. split; [unfold wf; cbn [shape data]; now rewrite length_map|].
  split; [exact Hl'|].
  intros i Hi.
  rewrite (nth_map_lt _ _ 0) by now rewrite Hm2.
  rewrite (map2_nth _ _ _ 0 0 0) by (rewrite length_map; lia).
  rewrite (nth_map_lt _ _ 0%Z) by lia.
  rewrite (nth_map_lt _ _ 0) by lia.
  pose proof (torch_sigmoid_unit (nth i (data n') 0)) as Hs.
  split; lra.
Qed.

Lemma conditioned_layer_ok : coupling_ok conditioned_layer 1 1 1 1 2.
Proof.
  split; cbn [conditioned_layer CouplingLayer.mask CouplingLayer.network
              CouplingLayer.scaling_factor shape data].
  - reflexivity.
  - apply broadcastable_refl.
  - constructor; [right; reflexivity|].
    constructor; [left; reflexivity|constructor].
  - reflexivity.
  - repeat constructor.
  - intros x Hwf Hsh. split; [|reflexivity].
    unfold wf in *. cbn [shape data]. rewrite Hwf, Hsh. reflexivity.
Qed.

Lemma vardeq_dequant_in_bin_witness :
  exists (z ldj' : tensor R) (g' : rng),
    VariationalDequantization.dequant [conditioned_layer] (1 / 100000)
      (IntTensor (mkTensor [1; 1; 1; 2]%nat [0; 255]%Z)) (mkTensor [1]%nat [0]) (fun _ => 0)
      = Some ((z, ldj'), g') /\
    shape z = [1; 1; 1; 2]%nat /\ wf z /\ shape ldj' = [1]%nat /\
    forall i : nat, (i < numel [1; 1; 1; 2])%nat ->
      IZR (nth i [0; 255]%Z 0%Z) / 256 < nth i (data z) 0
        < (IZR (nth i [0; 255]%Z 0%Z) + 1) / 256.
Proof.
  apply (vardeq_dequant_in_bin [conditioned_layer] (1 / 100000)
           (mkTensor [1; 1; 1; 2]%nat [0; 255]%Z) (mkTensor [1]%nat [0]) (fun _ => 0) 1 1 1 2).
  - constructor; [exact conditioned_layer_ok|constructor].
  - reflexivity.
  - reflexivity.
  - reflexivity.
  - reflexivity.
Defined.

(** X7.  With [0 < alpha <= 1/128] and pixel values in [[0, 255]], the
    density direction of [VariationalDequantization] followed by its
    sampling direction returns every pixel within one level of its value,
    whatever the coupling layers compute and whatever the noise. *)
Theorem vardeq_roundtrip (var_flows : list CouplingLayer.t) (alpha : R)
    (imgs : tensor Z) (ldj : tensor R) (g : rng) (B C H W : nat) :
  0 < alpha <= 1 / 128 ->
  Forall (fun L => coupling_ok L B C C H W) var_flows ->
  wf imgs -> shape imgs = [B; C; H; W] -> wf ldj -> shape ldj = [B] ->
  Forall (fun v => (0 <= v <= 255)%Z) (data imgs) ->
  exists (zf ldj1 : tensor R) (g1 : rng) (zi : tensor Z) (ldj2 : tensor R),
    VariationalDequantization.forward var_flows alpha (IntTensor imgs) ldj false g
      = Some ((FloatTensor zf, ldj1), g1) /\
    VariationalDequantization.forward var_flows alpha (FloatTensor zf) ldj1 true g1
      = Some ((IntTensor zi, ldj2), g1) /\
    shape zi = shape imgs /\
    length (data zi) = length (data imgs) /\
    forall i : nat, (i < numel [B; C; H; W])%nat ->
      (Z.abs (nth i (data zi) 0 - nth i (data imgs) 0) <= 1)%Z.
Proof.
  intros Ha HLs Hwf Hsh Hlwf Hl Hrange.
  assert (Hlen : length (data imgs) = numel [B; C; H; W]) by (rewrite <- Hsh; exact Hwf).
  destruct (vardeq_dequant_some B C H W var_flows alpha imgs ldj g HLs Hwf Hsh Hlwf Hl)
    as (n' & l' & E & Hn' & _ & Hl').
  assert (Hm2 : length (map2 Rplus (map IZR (data imgs)) (map torch_sigmoid (data n')))
                = numel [B; C; H; W]).
  { rewrite map2_length, !length_map, Hlen, Hn'. apply Nat.min_id. }
  do 5 eexists.
  split.
  { unfold VariationalDequantization.forward, VariationalDequantization.init,
      Dequantization.forward.
    cbn [negb Dequantization.dequant_method Dequantization.alpha].
    unfold bind at 1. rewrite E.
    unfold bind, lift, ret.
    rewrite (sigmoid_reverse_eq B C H W) by (try reflexivity; exact Hl').
    reflexivity. }
  split.
  { unfold VariationalDequantization.forward.
    apply (dequantization_reverse_eq B C H W); reflexivity. }
  cbn [shape data tmap].
  split; [now rewrite Hsh|].
  split; [now rewrite !length_map, Hm2, Hlen|].
  intros i Hi.
  do 6 (rewrite (nth_map_lt _ _ 0) by now rewrite !length_map, Hm2).
  rewrite (nth_map_lt _ _ 0) by now rewrite Hm2.
  rewrite (map2_nth _ _ _ 0 0 0) by (rewrite length_map; lia).
  rewrite (nth_map_lt _ _ 0%Z) by lia.
  rewrite (nth_map_lt _ _ 0) by lia.
  pose proof (torch_sigmoid_unit (nth i (data n') 0)) as Hs.
  apply dequant_scalar_roundtrip; [exact Ha| |lra].
  rewrite Forall_forall in Hrange. apply Hrange, nth_In. lia.
Qed.

Lemma vardeq_roundtrip_witness :
  exists (zf ldj1 : tensor R) (g1 : rng) (zi : tensor Z) (ldj2 : tensor R),
    VariationalDequantization.forward [conditioned_layer] (1 / 100000)
      (IntTensor (mkTensor [1; 1; 1; 2]%nat [0; 255]%Z)) (mkTensor [1]%nat [0]) false
      (fun _ => 0)
      = Some ((FloatTensor zf, ldj1), g1) /\
    VariationalDequantization.forward [conditioned_layer] (1 / 100000)
      (FloatTensor zf) ldj1 true g1
      = Some ((IntTensor zi, ldj2), g1) /\
    shape zi = [1; 1; 1; 2]%nat /\
    length (data zi) = 2%nat /\
    forall i : nat, (i < numel [1; 1; 1; 2])%nat ->
      (Z.abs (nth i (data zi) 0 - nth i [0; 255] 0) <= 1)%Z.
Proof.
  apply (vardeq_roundtrip [conditioned_layer] (1 / 100000)
           (mkTensor [1; 1; 1; 2]%nat [0; 255]%Z) (mkTensor [1]%nat [0]) (fun _ => 0) 1 1 1 2).
  - lra.
  - constructor; [exact conditioned_layer_ok|constructor].
  - reflexivity.
  - reflexivity.
  - reflexivity.
  - reflexivity.
  - repeat constructor; lia.
Defined.

(** * Coupling layers: the other round trip, pipelines, and the bound on the
    scale *)

Lemma map2_minus_plus (ld x : list R) :
  length x = length ld -> map2 Rplus (map2 Rminus ld x) x = ld.
Proof.
  revert x. induction ld as [|a ld IH]; intros [|b x] Hl; try discriminate; cbn [map2].
  - reflexivity.
  - rewrite IH by (simpl in Hl; lia). f_equal. lra.
Qed.

Lemma coupled_inverse_rev (L : CouplingLayer.t) (B C Ci H W : nat) (o : option (tensor R))
    (zd : list R) :
  coupling_ok L B C Ci H W -> orig_img_ok o B Ci H W ->
  length zd = numel [B; C; H; W] ->
  coupled L B C Ci H W o false (coupled L B C Ci H W o true zd) = zd.
Proof.
  intros HL Ho Hz.
  pose proof (coupled_length L B C Ci H W o HL Ho true zd Hz) as Hc.
  pose proof (coupled_length L B C Ci H W o HL Ho false _ Hc) as Hc'.
  apply (nth_ext _ _ 0 0); [lia|].
  intros i Hi. rewrite Hc' in Hi.
  rewrite (coupled_nth L B C Ci H W o HL Ho) by assumption. cbv zeta.
  rewrite (z_in_invariant L B C Ci H W o HL Ho) by assumption.
  rewrite (coupled_nth L B C Ci H W o HL Ho) by assumption. cbv zeta.
  set (s := nth i (s_of L B C Ci H W o (map2 Rmult zd (mask_x L B C H W))) 0).
  set (t := nth i (t_of L B C Ci H W o (map2 Rmult zd (mask_x L B C H W))) 0).
  replace (nth i zd 0 * exp (- s) - t + t) with (nth i zd 0 * exp (- s)) by lra.
  rewrite Rmult_assoc, <- exp_plus, Rplus_opp_l, exp_0. lra.
Qed.

(** One layer, run in one direction and then in the other. *)
Lemma coupling_flow_roundtrip (L : CouplingLayer.t) (B C H W : nat) (reverse : bool)
    (z ldj : tensor R) (g : rng) :
  coupling_ok L B C 0 H W ->
  wf z -> shape z = [B; C; H; W] -> wf ldj -> shape ldj = [B] ->
  exists z' ldj' : tensor R,
    CouplingLayer_flow L (FloatTensor z) ldj reverse g = Some ((FloatTensor z', ldj'), g) /\
    wf z' /\ shape z' = [B; C; H; W] /\ wf ldj' /\ shape ldj' = [B] /\
    CouplingLayer_flow L (FloatTensor z') ldj' (negb reverse) g
    = Some ((FloatTensor z, ldj), g).
Proof.
  intros HL Hwf Hsh Hlwf Hl.
  assert (Ho : orig_img_ok None B 0 H W) by reflexivity.
  assert (Hz : length (data z) = numel [B; C; H; W]) by (rewrite <- Hsh; exact Hwf).
  assert (Hld : length (data ldj) = B).
  { unfold wf in Hlwf. rewrite Hlwf, Hl. cbn [numel fold_right]. lia. }
  pose proof (coupled_length L B C 0 H W None HL Ho reverse _ Hz) as Hc.
  assert (Hs : length (s_sums L B C 0 H W None (data z)) = B).
  { unfold s_sums. now rewrite length_map, length_seq. }
  do 2 eexists. split.
  { unfold CouplingLayer_flow, bind, lift, ret. cbn [to_float32].
    rewrite (forward_eq L B C 0 H W None HL Ho) by assumption. reflexivity. }
  split; [exact Hc|]. split; [reflexivity|].
  split.
  { unfold wf. cbn [shape data numel fold_right].
    destruct reverse; rewrite map2_length, Hld, Hs; lia. }
  split; [reflexivity|].
  unfold CouplingLayer_flow, bind, lift, ret. cbn [to_float32].
  rewrite (forward_eq L B C 0 H W None HL Ho) by (try reflexivity; exact Hc).
  cbn [data].
  rewrite (s_sums_invariant L B C 0 H W None HL Ho) by exact Hz.
  destruct z as [sh zd], ldj as [lsh ld]. cbn [shape data] in *. subst sh lsh.
  destruct reverse; cbn [negb].
  - rewrite (coupled_inverse_rev L B C 0 H W None zd HL Ho Hz).
    rewrite map2_minus_plus by lia. reflexivity.
  - rewrite (coupled_inverse L B C 0 H W None HL Ho zd Hz).
    rewrite ldj_cancel by lia. reflexivity.
Qed.

Lemma run_flows_reverse_app (fs1 fs2 : list Flow) (z : Tensor) (ldj : tensor R) (g : rng) :
  ImageFlow.run_flows_reverse (fs1 ++ fs2) z ldj g =
  match ImageFlow.run_flows_reverse fs1 z ldj g with
  | Some ((z', ldj'), g') => ImageFlow.run_flows_reverse fs2 z' ldj' g'
  | None => None
  end.
Proof.
  revert z ldj g. induction fs1 as [|f fs1 IH]; intros z ldj g.
  - reflexivity.
  - cbn [app ImageFlow.run_flows_reverse]. unfold bind.
    destruct (f z ldj true g) as [[[z1 l1] g1]|]; [apply IH|reflexivity].
Qed.

Lemma coupling_pipeline_both (Ls : list CouplingLayer.t) (B C H W : nat) (g : rng) :
  Forall (fun L => coupling_ok L B C 0 H W) Ls ->
  forall z ldj : tensor R,
  wf z -> shape z = [B; C; H; W] -> wf ldj -> shape ldj = [B] ->
  (exists z' ldj' : tensor R,
     ImageFlow.run_flows (map CouplingLayer_flow Ls) (FloatTensor z) ldj g
       = Some ((FloatTensor z', ldj'), g) /\
     wf z' /\ shape z' = [B; C; H; W] /\ wf ldj' /\ shape ldj' = [B] /\
     ImageFlow.run_flows_reverse (rev (map CouplingLayer_flow Ls)) (FloatTensor z') ldj' g
       = Some ((FloatTensor z, ldj), g)) /\
  (exists z' ldj' : tensor R,
     ImageFlow.run_flows_reverse (rev (map CouplingLayer_flow Ls)) (FloatTensor z) ldj g
       = Some ((FloatTensor z', ldj'), g) /\
     wf z' /\ shape z' = [B; C; H; W] /\ wf ldj' /\ shape ldj' = [B] /\
     ImageFlow.run_flows (map CouplingLayer_flow Ls) (FloatTensor z') ldj' g
       = Some ((FloatTensor z, ldj), g)).
Proof.
  intros HLs. induction HLs as [|L Ls HL HLs IH]; intros z ldj Hwf Hsh Hlwf Hl.
  - split; exists z, ldj; repeat split; assumption.
  - cbn [map rev]. split.
    + destruct (coupling_flow_roundtrip L B C H W false z ldj g HL Hwf Hsh Hlwf Hl)
        as (z1 & l1 & E1 & Hwf1 & Hsh1 & Hlwf1 & Hl1 & E1').
      destruct (proj1 (IH z1 l1 Hwf1 Hsh1 Hlwf1 Hl1))
        as (z' & l' & E2 & Hwf' & Hsh' & Hlwf' & Hl' & E2').
      exists z', l'. cbn [ImageFlow.run_flows]. unfold bind at 1. rewrite E1.
      split; [exact E2|]. repeat (split; [assumption|]).
      rewrite run_flows_reverse_app, E2'.
      cbn [ImageFlow.run_flows_reverse]. unfold bind at 1.
      cbn [negb] in E1'. rewrite E1'. reflexivity.
    + destruct (proj2 (IH z ldj Hwf Hsh Hlwf Hl))
        as (z1 & l1 & E1 & Hwf1 & Hsh1 & Hlwf1 & Hl1 & E1').
      destruct (coupling_flow_roundtrip L B C H W true z1 l1 g HL Hwf1 Hsh1 Hlwf1 Hl1)
        as (z' & l' & E2 & Hwf' & Hsh' & Hlwf' & Hl' & E2').
      exists z', l'. rewrite run_flows_reverse_app, E1.
      cbn [ImageFlow.run_flows_reverse]. unfold bind at 1. rewrite E2.
      split; [reflexivity|]. repeat (split; [assumption|]).
      cbn [ImageFlow.run_flows]. unfold bind at 1.
      cbn [negb] in E2'. rewrite E2'. exact E1'.
Qed.


(** X8.  In a pipeline of coupling layers the pass of [ImageFlow.sample]
    (the layers in reversed order, each with [reverse=True]) undoes the pass
    of [ImageFlow.forward] (the layers in order, with [reverse=False]), and
    the other way round: the tensor and the accumulator [ldj] both come
    back. *)
Theorem coupling_pipeline_inverse (Ls : list CouplingLayer.t) (B C H W : nat)
    (z ldj : tensor R) (g : rng) :
  Forall (fun L => coupling_ok L B C 0 H W) Ls ->
  wf z -> shape z = [B; C; H; W] -> wf ldj -> shape ldj = [B] ->
  (exists z' ldj' : tensor R,
     ImageFlow.run_flows (map CouplingLayer_flow Ls) (FloatTensor z) ldj g
       = Some ((FloatTensor z', ldj'), g) /\
     ImageFlow.run_flows_reverse (rev (map CouplingLayer_flow Ls)) (FloatTensor z') ldj' g
       = Some ((FloatTensor z, ldj), g)) /\
  (exists z' ldj' : tensor R,
     ImageFlow.run_flows_reverse (rev (map CouplingLayer_flow Ls)) (FloatTensor z) ldj g
       = Some ((FloatTensor z', ldj'), g) /\
     ImageFlow.run_flows (map CouplingLayer_flow Ls) (FloatTensor z') ldj' g
       = Some ((FloatTensor z, ldj), g)).
Proof.
  intros HLs Hwf Hsh Hlwf Hl.
  destruct (coupling_pipeline_both Ls B C H W g HLs z ldj Hwf Hsh Hlwf Hl)
    as [(z1 & l1 & E1 & _ & _ & _ & _ & E1') (z2 & l2 & E2 & _ & _ & _ & _ & E2')].
  split; [exists z1, l1|exists z2, l2]; split; assumption.
Qed.

Lemma coupling_pipeline_inverse_witness :
  let Ls := [cross_layer; cross_layer2] in
  let z := mkTensor [1; 1; 1; 2]%nat [3; 5] in
  let ldj := mkTensor [1]%nat [7] in
  let g : rng := fun _ => 0 in
  (exists z' ldj' : tensor R,
     ImageFlow.run_flows (map CouplingLayer_flow Ls) (FloatTensor z) ldj g
       = Some ((FloatTensor z', ldj'), g) /\
     ImageFlow.run_flows_reverse (rev (map CouplingLayer_flow Ls)) (FloatTensor z') ldj' g
       = Some ((FloatTensor z, ldj), g)) /\
  (exists z' ldj' : tensor R,
     ImageFlow.run_flows_reverse (rev (map CouplingLayer_flow Ls)) (FloatTensor z) ldj g
       = Some ((FloatTensor z', ldj'), g) /\
     ImageFlow.run_flows (map CouplingLayer_flow Ls) (FloatTensor z') ldj' g
       = Some ((FloatTensor z, ldj), g)).
Proof.
  apply (coupling_pipeline_inverse [cross_layer; cross_layer2] 1 1 1 2
           (mkTensor [1; 1; 1; 2]%nat [3; 5]) (mkTensor [1]%nat [7]) (fun _ => 0)).
  - constructor; [exact cross_layer_ok|constructor; [exact cross_layer2_ok|constructor]].
  - reflexivity.
  - reflexivity.
  - reflexivity.
  - reflexivity.
Defined.

(** * The scale of a coupling layer is bounded *)

Lemma tanh_abs_lt_1 (x : R) : Rabs (tanh x) < 1.
Proof.
  pose proof (exp_pos x) as Ha. pose proof (exp_pos (- x)) as Hb.
  assert (E : tanh x * (exp x + exp (- x)) = exp x - exp (- x)).
  { unfold tanh, sinh, cosh. field. lra. }
  apply Rabs_def1; nra.
Qed.

Lemma Rsum_abs_le (l : list R) (c : R) :
  (forall x, In x l -> Rabs x <= c) -> Rabs (Rsum l) <= INR (length l) * c.
Proof.
  induction l as [|x l IH]; intros H.
  - cbn [Rsum fold_right length INR]. rewrite Rabs_R0. lra.
  - change (Rsum (x :: l)) with (x + Rsum l).
    change (length (x :: l)) with (S (length l)).
    rewrite (S_INR (length l)).
    pose proof (Rabs_triang x (Rsum l)) as Ht.
    pose proof (H x (or_introl eq_refl)) as Hx.
    pose proof (IH (fun y Hy => H y (or_intror Hy))) as Hl.
    lra.
Qed.

Lemma In_slice0 {A : Type} (n b : nat) (l : list A) (x : A) :
  In x (slice0 n l b) -> In x l.
Proof.
  unfold slice0. intros H.
  rewrite <- (firstn_skipn (b * n) l). apply in_or_app. right.
  rewrite <- (firstn_skipn n (skipn (b * n) l)). apply in_or_app. now left.
Qed.

Lemma slice0_length_le {A : Type} (n b : nat) (l : list A) : (length (slice0 n l b) <= n)%nat.
Proof. unfold slice0. rewrite length_firstn. lia. Qed.

(** Every element of the expanded scaling factor is the exponential of an
    element of the parameter. *)
Lemma s_fac_x_nth (L : CouplingLayer.t) (B C Ci H W : nat) (i : nat) :
  coupling_ok L B C Ci H W -> (i < numel [B; C; H; W])%nat ->
  exists k : nat, (k < length (data (CouplingLayer.scaling_factor L)))%nat /\
    nth i (s_fac_x L B C H W) 0 = exp (nth k (data (CouplingLayer.scaling_factor L)) 0).
Proof.
  intros HL Hi. unfold s_fac_x.
  destruct (expand_nth_in
              (mkTensor [1; numel (shape (CouplingLayer.scaling_factor L)); 1; 1]%nat
                 (map exp (data (CouplingLayer.scaling_factor L))))
              [B; C; H; W] i) as (k & Hk & E).
  - unfold wf. cbn [shape data]. rewrite length_map, numel_1c11.
    exact (scaling_wf _ _ _ _ _ _ HL).
  - exact (scaling_broadcast _ _ _ _ _ _ HL).
  - exact Hi.
  - cbn [data] in Hk, E. rewrite length_map in Hk.
    exists k. split; [exact Hk|].
    rewrite (E 0). apply nth_map_lt. exact Hk.
Qed.

Lemma s_of_bounded (L : CouplingLayer.t) (B C Ci H W : nat) (o : option (tensor R))
    (z_in : list R) (m : R) (x : R) :
  coupling_ok L B C Ci H W -> orig_img_ok o B Ci H W ->
  length z_in = numel [B; C; H; W] ->
  Forall (fun f => f <= m) (data (CouplingLayer.scaling_factor L)) ->
  In x (s_of L B C Ci H W o z_in) -> Rabs x <= exp m.
Proof.
  intros HL Ho Hz Hm Hx.
  pose proof (s_of_length L B C Ci H W o HL Ho z_in Hz) as Hs.
  destruct (In_nth _ _ 0 Hx) as (i & Hi & <-). rewrite Hs in Hi.
  rewrite (s_of_nth L B C Ci H W o HL Ho) by assumption.
  destruct (s_fac_x_nth L B C Ci H W i HL Hi) as (k & Hk & ->).
  set (q := nth i (chunk_fst B C (numel [H; W]) (nn_out L B C Ci H W o z_in)) 0
            / exp (nth k (data (CouplingLayer.scaling_factor L)) 0)).
  pose proof (tanh_abs_lt_1 q) as Ht.
  pose proof (exp_pos (nth k (data (CouplingLayer.scaling_factor L)) 0)) as He.
  assert (Hle : exp (nth k (data (CouplingLayer.scaling_factor L)) 0) <= exp m).
  { rewrite Forall_forall in Hm.
    destruct (Hm _ (nth_In _ 0 Hk)) as [Hlt|Heq].
    - left. now apply exp_increasing.
    - rewrite Heq. lra. }
  rewrite !Rabs_mult. rewrite (Rabs_pos_eq (exp _)) by lra.
  pose proof (Rabs_pos (tanh q)) as Ht0.
  destruct (mask_x_binary L B C Ci H W HL i Hi) as [-> | ->].
  - replace (1 - 0) with 1 by lra. rewrite Rabs_R1. nra.
  - replace (1 - 1) with 0 by lra. rewrite Rabs_R0. nra.
Qed.

(** X9.  The stabilisation of the scale bounds what a coupling layer can do
    to [ldj]: when no element of the scaling-factor parameter exceeds [m],
    either direction changes the accumulator of each image by at most
    [C * H * W * exp(m)], whatever the network returns. *)
Theorem coupling_ldj_bounded (L : CouplingLayer.t) (B C Ci H W : nat)
    (o : option (tensor R)) (z ldj : tensor R) (reverse : bool) (m : R) :
  coupling_ok L B C Ci H W -> orig_img_ok o B Ci H W ->
  wf z -> shape z = [B; C; H; W] -> wf ldj -> shape ldj = [B] ->
  Forall (fun f => f <= m) (data (CouplingLayer.scaling_factor L)) ->
  exists z' ldj' : tensor R,
    CouplingLayer.forward L z ldj reverse o = Some (z', ldj') /\
    forall b : nat, (b < B)%nat ->
      Rabs (nth b (data ldj') 0 - nth b (data ldj) 0) <= INR (C * H * W) * exp m.
Proof.
  intros HL Ho Hwf Hsh Hlwf Hl Hm.
  assert (Hz : length (data z) = numel [B; C; H; W]) by (rewrite <- Hsh; exact Hwf).
  assert (Hld : length (data ldj) = B).
  { unfold wf in Hlwf. rewrite Hlwf, Hl. cbn [numel fold_right]. lia. }
  do 2 eexists. split; [now apply (forward_eq L B C Ci H W o HL Ho)|].
  intros b Hb. cbn [data].
  assert (Hs : length (s_sums L B C Ci H W o (data z)) = B).
  { unfold s_sums. now rewrite length_map, length_seq. }
  rewrite (map2_nth _ _ _ 0 0 0) by lia.
  unfold s_sums. rewrite nth_map_seq by exact Hb.
  set (sl := slice0 (C * (H * (W * 1)))
               (s_of L B C Ci H W o (map2 Rmult (data z) (mask_x L B C H W))) b).
  assert (Hbound : Rabs (Rsum sl) <= INR (C * H * W) * exp m).
  { pose proof (exp_pos m) as He.
    apply Rle_trans with (INR (length sl) * exp m).
    - apply Rsum_abs_le. intros x Hx. apply In_slice0 in Hx.
      apply (s_of_bounded L B C Ci H W o (map2 Rmult (data z) (mask_x L B C H W)) m x HL Ho);
        [|exact Hm|exact Hx].
      now apply (z_in_length L B C H W).
    - apply Rmult_le_compat_r; [lra|]. apply le_INR.
      pose proof (slice0_length_le (C * (H * (W * 1)))  b
                    (s_of L B C Ci H W o (map2 Rmult (data z) (mask_x L B C H W)))) as Hle.
      fold sl in Hle. lia. }
  destruct reverse.
  - replace (nth b (data ldj) 0 - Rsum sl - nth b (data ldj) 0) with (- Rsum sl) by lra.
    now rewrite Rabs_Ropp.
  - replace (nth b (data ldj) 0 + Rsum sl - nth b (data ldj) 0) with (Rsum sl) by lra.
    exact Hbound.
Qed.

Lemma coupling_ldj_bounded_witness :
  exists z' ldj' : tensor R,
    CouplingLayer.forward steep_layer (mkTensor [1; 1; 1; 1]%nat [128])
      (mkTensor [1]%nat [0]) false None = Some (z', ldj') /\
    forall b : nat, (b < 1)%nat ->
      Rabs (nth b (data ldj') 0 - nth b [0] 0) <= INR (1 * 1 * 1) * exp 5.
Proof.
  apply (coupling_ldj_bounded steep_layer 1 1 0 1 1 None (mkTensor [1; 1; 1; 1]%nat [128])
           (mkTensor [1]%nat [0]) false 5).
  - exact steep_layer_ok.
  - reflexivity.
  - reflexivity.
  - reflexivity.
  - reflexivity.
  - reflexivity.
  - constructor; [lra|constructor].
Defined.

(** * Sampling *)

Lemma run_reverse_couplings_some (Ls : list CouplingLayer.t) (B C H W : nat) (g : rng) :
  Forall (fun L => coupling_ok L B C 0 H W) Ls ->
  forall z ldj : tensor R,
  wf z -> shape z = [B; C; H; W] -> shape ldj = [B] ->
  exists z' ldj' : tensor R,
    ImageFlow.run_flows_reverse (map CouplingLayer_flow Ls) (FloatTensor z) ldj g
      = Some ((FloatTensor z', ldj'), g) /\
    wf z' /\ shape z' = [B; C; H; W] /\ shape ldj' = [B].
Proof.
  intros HLs. induction HLs as [|L Ls HL _ IH]; intros z ldj Hwf Hsh Hl.
  - exists z, ldj. repeat split; assumption.
  - cbn [map ImageFlow.run_flows_reverse].
    unfold bind at 1. unfold CouplingLayer_flow at 1. unfold bind, lift, ret.
    cbn [to_float32].
    rewrite (forward_eq L B C 0 H W None HL eq_refl) by assumption.
    apply IH; [|reflexivity|reflexivity].
    unfold wf. cbn [shape data].
    apply (coupled_length L B C 0 H W None HL eq_refl). rewrite <- Hsh. exact Hwf.
Qed.

(** Sampling from a dequantization layer, plain or variational, followed by
    coupling layers. *)
Lemma sample_pipeline (self : Dequantization.t) (Ls : list CouplingLayer.t) (g : rng)
    (B C H W : nat) :
  Forall (fun L => coupling_ok L B C 0 H W) Ls ->
  exists imgs : tensor Z,
    ImageFlow.sample
      (ImageFlow.init (Dequantization.forward self :: map CouplingLayer_flow Ls))
      [B; C; H; W] g
      = Some (IntTensor imgs, fun i => g (numel [B; C; H; W] + i)%nat) /\
    shape imgs = [B; C; H; W] /\
    wf imgs /\
    Forall (fun v => (0 <= v <= 255)%Z) (data imgs).
Proof.
  intros HLs.
  assert (HLs' : Forall (fun L => coupling_ok L B C 0 H W) (rev Ls)).
  { apply Forall_forall. intros L HL. apply in_rev in HL.
    rewrite Forall_forall in HLs. now apply HLs. }
  unfold ImageFlow.sample, ImageFlow.init.
  cbn [ImageFlow.flows ImageFlow.prior rev hd_error].
  rewrite <- map_rev.
  unfold bind at 1. unfold sample, draw.
  unfold bind at 1. unfold lift at 1.
  unfold bind at 1.
  rewrite run_flows_reverse_app.
  match goal with
  | |- context [ImageFlow.run_flows_reverse (map CouplingLayer_flow (rev Ls))
                  (FloatTensor ?z) ?l ?g0] =>
      destruct (run_reverse_couplings_some (rev Ls) B C H W g0 HLs' z l)
        as (z' & l' & E & Hwf' & Hsh' & Hl')
  end.
  { unfold wf, tmap. cbn [shape data]. now rewrite !length_map, length_seq. }
  { reflexivity. }
  { reflexivity. }
  rewrite E. cbn [ImageFlow.run_flows_reverse].
  unfold bind at 1.
  rewrite (dequantization_reverse_eq B C H W) by assumption.
  unfold ret. eexists. split; [reflexivity|].
  cbn [shape data].
  split; [reflexivity|]. split.
  - unfold wf. cbn [shape data]. rewrite !length_map. rewrite <- Hsh'. exact Hwf'.
  - rewrite !map_map. apply Forall_forall. intros v Hv.
    apply in_map_iff in Hv as (x & <- & _). apply quantize_range.
Qed.

(** X10.  For a pipeline made of a [Dequantization] layer followed by
    coupling layers, [ImageFlow.sample] on the shape [(B, C, H, W)] reads
    [B * C * H * W] draws and returns an integer tensor of that shape, all of
    whose elements are pixel values in [[0, 255]], whatever the draws and the
    networks. *)
Theorem sample_pixel_range (alpha : R) (Ls : list CouplingLayer.t) (g : rng)
    (B C H W : nat) :
  Forall (fun L => coupling_ok L B C 0 H W) Ls ->
  exists imgs : tensor Z,
    ImageFlow.sample (ImageFlow.init (pipeline_flows alpha Ls)) [B; C; H; W] g
      = Some (IntTensor imgs, fun i => g (numel [B; C; H; W] + i)%nat) /\
    shape imgs = [B; C; H; W] /\
    wf imgs /\
    Forall (fun v => (0 <= v <= 255)%Z) (data imgs).
Proof.
  intros HLs. unfold pipeline_flows. now apply sample_pipeline.
Qed.

Lemma sample_pixel_range_witness :
  exists imgs : tensor Z,
    ImageFlow.sample (ImageFlow.init (pipeline_flows (1 / 100000) [example_layer]))
      [1; 1; 1; 2]%nat (fun _ => 0)
      = Some (IntTensor imgs, fun i => (fun _ : nat => 0) (numel [1; 1; 1; 2] + i)%nat) /\
    shape imgs = [1; 1; 1; 2]%nat /\
    wf imgs /\
    Forall (fun v => (0 <= v <= 255)%Z) (data imgs).
Proof.
  apply (sample_pixel_range (1 / 100000) [example_layer] (fun _ => 0) 1 1 1 2).
  constructor; [exact example_layer_ok|constructor].
Defined.

(** * Evaluation with importance samples *)

Section LogSumExp.

Lemma Rsum_exp_pos (xs : list R) : xs <> [] -> 0 < Rsum (map exp xs).
Proof.
  intros Hne. destruct xs as [|x xs]; [congruence|].
  clear Hne. revert x. induction xs as [|y xs IH]; intros x.
  - cbn [map Rsum fold_right]. pose proof (exp_pos x). lra.
  - change (Rsum (map exp (x :: y :: xs))) with (exp x + Rsum (map exp (y :: xs))).
    pose proof (exp_pos x). pose proof (IH y). lra.
Qed.

Lemma INR_length_pos {A : Type} (xs : list A) : xs <> [] -> 0 < INR (length xs).
Proof.
  intros Hne. destruct xs as [|x xs]; [congruence|].
  apply lt_0_INR. cbn [length]. lia.
Qed.

Lemma Rsum_exp_upper (xs : list R) (m : R) :
  Forall (fun x => x <= m) xs -> Rsum (map exp xs) <= INR (length xs) * exp m.
Proof.
  induction 1 as [|x xs Hx _ IH].
  - cbn [map Rsum fold_right length INR]. lra.
  - change (Rsum (map exp (x :: xs))) with (exp x + Rsum (map exp xs)).
    change (length (x :: xs)) with (S (length xs)). rewrite S_INR.
    assert (He : exp x <= exp m).
    { destruct Hx as [Hlt| ->]; [left; now apply exp_increasing|lra]. }
    lra.
Qed.

Lemma Rsum_exp_lower (xs : list R) (mu : R) :
  exp mu * (INR (length xs) + Rsum xs - INR (length xs) * mu) <= Rsum (map exp xs).
Proof.
  induction xs as [|x xs IH].
  - cbn [map Rsum fold_right length INR]. lra.
  - change (Rsum (map exp (x :: xs))) with (exp x + Rsum (map exp xs)).
    change (Rsum (x :: xs)) with (x + Rsum xs).
    change (length (x :: xs)) with (S (length xs)). rewrite S_INR.
    assert (He : exp mu * (1 + (x - mu)) <= exp x).
    { replace (exp x) with (exp mu * exp (x - mu))
        by (rewrite <- exp_plus; f_equal; lra).
      apply Rmult_le_compat_l; [left; apply exp_pos|apply exp_ineq1_le]. }
    lra.
Qed.

(** The logarithm of the mean of the exponentials lies between the mean and
    every upper bound of the values. *)
Lemma logmeanexp_upper (xs : list R) (m : R) :
  xs <> [] -> Forall (fun x => x <= m) xs ->
  ln (Rsum (map exp xs)) - ln (INR (length xs)) <= m.
Proof.
  intros Hne Hm.
  pose proof (Rsum_exp_pos xs Hne) as Hpos.
  pose proof (INR_length_pos xs Hne) as HK.
  pose proof (exp_pos m) as He.
  assert (H : ln (Rsum (map exp xs)) <= ln (INR (length xs) * exp m)).
  { apply ln_le_mono; [exact Hpos|now apply Rsum_exp_upper]. }
  rewrite ln_mult, ln_exp in H by assumption. lra.
Qed.

Lemma logmeanexp_lower (xs : list R) :
  xs <> [] ->
  Rsum xs / INR (length xs) <= ln (Rsum (map exp xs)) - ln (INR (length xs)).
Proof.
  intros Hne.
  pose proof (INR_length_pos xs Hne) as HK.
  set (mu := Rsum xs / INR (length xs)).
  pose proof (Rsum_exp_lower xs mu) as Hlow.
  replace (INR (length xs) + Rsum xs - INR (length xs) * mu) with (INR (length xs)) in Hlow
    by (unfold mu; field; lra).
  pose proof (exp_pos mu) as He.
  assert (H : ln (exp mu * INR (length xs)) <= ln (Rsum (map exp xs))).
  { apply ln_le_mono; [apply Rmult_lt_0_compat; assumption|exact Hlow]. }
  rewrite ln_mult, ln_exp in H by assumption. lra.
Qed.

End LogSumExp.

Lemma forallb_same_shape (ts : list (tensor R)) (sh : list nat) :
  Forall (fun t => shape t = sh /\ wf t) ts ->
  forallb (fun t => if list_eq_dec Nat.eq_dec (shape t) sh then true else false) ts = true.
Proof.
  induction 1 as [|t ts [Ht _] _ IH]; cbn [forallb].
  - reflexivity.
  - rewrite IH, Ht. destruct (list_eq_dec Nat.eq_dec sh sh); [reflexivity|congruence].
Qed.

(** The importance-weighted values of samples of shape [(B)]. *)
Lemma importance_nll_eq (samples : list (tensor R)) (B : nat) :
  samples <> [] ->
  Forall (fun t => shape t = [B] /\ wf t) samples ->
  importance_nll samples (length samples) =
  Some (mkTensor [B]
          (map (fun b => ln (Rsum (map exp (map (fun t => nth b (data t) 0) samples)))
                         - ln (INR (length samples)))
             (seq 0 B))).
Proof.
  intros Hne Hall. unfold importance_nll, stack_last.
  destruct samples as [|t0 ts]; [congruence|].
  assert (Ht0 : shape t0 = [B]) by (inversion Hall as [|? ? [H _] _]; exact H).
  rewrite Ht0, (forallb_same_shape _ [B] Hall). cbn [obind].
  unfold logsumexp_last. cbn [shape data app rev tmap].
  replace (numel [B]) with B by (cbn [numel fold_right]; lia).
  unfold tmap. cbn [shape data].
  f_equal. f_equal. rewrite map_map. apply map_ext_in.
  intros b Hb. apply in_seq in Hb. f_equal. do 2 f_equal.
  set (K := length (t0 :: ts)).
  rewrite slice0_concat.
  - rewrite (nth_indep _ []
               ((fun o => map (fun t => nth o (data t) 0) (t0 :: ts)) (nth b (seq 0 B) 0%nat)))
      by (rewrite length_map, length_seq; lia).
    rewrite (map_nth (fun o => map (fun t => nth o (data t) 0) (t0 :: ts))).
    rewrite seq_nth by lia. reflexivity.
  - intros x Hx. apply in_map_iff in Hx. destruct Hx as (o & <- & _).
    now rewrite length_map.
  - rewrite length_map, length_seq. lia.
Qed.

(** X11.  The importance-weighted value that [test_flow] computes for an
    image from its sampled negative log-likelihoods (the logarithm of the
    mean of their exponentials) is at least the mean of the samples and at
    most their largest: it never reports less than the average sample. *)
Theorem importance_nll_bounds (samples : list (tensor R)) (B : nat) :
  samples <> [] ->
  Forall (fun t => shape t = [B] /\ wf t) samples ->
  exists r : tensor R,
    importance_nll samples (length samples) = Some r /\
    shape r = [B] /\ wf r /\
    forall b : nat, (b < B)%nat ->
      Rsum (map (fun t => nth b (data t) 0) samples) / INR (length samples)
        <= nth b (data r) 0 /\
      forall m : R, Forall (fun t => nth b (data t) 0 <= m) samples -> nth b (data r) 0 <= m.
Proof.
  intros Hne Hall. eexists. split; [now apply (importance_nll_eq samples B)|].
  cbn [shape data]. split; [reflexivity|]. split.
  { unfold wf. cbn [shape data numel fold_right]. rewrite length_map, length_seq. lia. }
  intros b Hb. rewrite nth_map_seq by exact Hb.
  set (xs := map (fun t => nth b (data t) 0) samples).
  assert (Hxs : xs <> []) by (unfold xs; destruct samples; [congruence|discriminate]).
  assert (Hlen : length xs = length samples) by (unfold xs; apply length_map).
  rewrite <- Hlen. split.
  - now apply logmeanexp_lower.
  - intros m Hm. apply logmeanexp_upper; [exact Hxs|].
    unfold xs. apply Forall_map. exact Hm.
Qed.

Lemma importance_nll_bounds_witness :
  exists r : tensor R,
    importance_nll [mkTensor [1]%nat [0]; mkTensor [1]%nat [2]] 2 = Some r /\
    shape r = [1]%nat /\ wf r /\
    forall b : nat, (b < 1)%nat ->
      Rsum (map (fun t => nth b (data t) 0) [mkTensor [1]%nat [0]; mkTensor [1]%nat [2]])
        / INR 2 <= nth b (data r) 0 /\
      forall m : R,
        Forall (fun t => nth b (data t) 0 <= m) [mkTensor [1]%nat [0]; mkTensor [1]%nat [2]] ->
        nth b (data r) 0 <= m.
Proof.
  apply (importance_nll_bounds [mkTensor [1]%nat [0]; mkTensor [1]%nat [2]] 1).
  - discriminate.
  - repeat constructor.
Defined.

(** The two return modes of [ImageFlow.forward] differ by the conversion to
    bits per dimension only. *)
Lemma forward_bpd_nll (self : ImageFlow.t) (imgs : Tensor) (g g' : rng) (bpd : tensor R) :
  ImageFlow.forward self imgs false g = Some (bpd, g') ->
  exists nll : tensor R,
    ImageFlow.forward self imgs true g = Some (nll, g') /\
    bpd = tmap (fun x => x * (ln (exp 1) / ln 2) / INR (numel (tl (Tshape imgs)))) nll.
Proof.
  unfold ImageFlow.forward, bind, lift, ret.
  destruct (hd_error (Tshape imgs)) as [B|]; [|discriminate].
  destruct (ImageFlow.run_flows (ImageFlow.flows self) imgs (zeros [B]) g)
    as [[[z ldj] g1]|]; [|discriminate].
  destruct (sum_dim123 (tmap (log_prob (ImageFlow.prior self)) (to_float32 z)))
    as [log_pz|]; [|discriminate].
  destruct (tadd ldj log_pz) as [log_px|]; [|discriminate].
  intros E. injection E as <- <-. eexists. split; reflexivity.
Qed.

Lemma Rsum_singleton_exp (x : R) : ln (Rsum (map exp [x])) - ln (INR 1) = x.
Proof.
  cbn [map Rsum fold_right INR]. rewrite Rplus_0_r, ln_exp, ln_1. lra.
Qed.

(** X12.  With a single importance sample and a loader of one batch,
    [test_flow] returns the mean over the batch of the bits per dimension
    that [ImageFlow.forward] reports for the same noise. *)
Theorem test_flow_single_sample {Label : Type} (flow : ImageFlow.t) (imgs : Tensor)
    (lbl : Label) (g g' : rng) (bpd : tensor R) (B : nat) :
  ImageFlow.forward flow imgs false g = Some (bpd, g') ->
  shape bpd = [B] -> wf bpd -> B <> 0%nat ->
  test_flow flow [(imgs, lbl)] 1 g = Some (Rsum (data bpd) / INR B, g').
Proof.
  intros Hf Hsh Hwf HB.
  destruct (forward_bpd_nll flow imgs g g' bpd Hf) as (nll & Hnll & ->).
  cbn [shape tmap] in Hsh.
  assert (Hlen : length (data nll) = B).
  { unfold wf in Hwf. cbn [shape data tmap] in Hwf. rewrite length_map, Hsh in Hwf.
    rewrite Hwf. cbn [numel fold_right]. lia. }
  assert (Hnwf : wf nll).
  { unfold wf. rewrite Hlen, Hsh. cbn [numel fold_right]. lia. }
  unfold test_flow, test_loop, test_batch, draw_samples.
  unfold bind at 1. unfold bind at 1. unfold bind at 1. unfold bind at 1.
  rewrite Hnll. unfold bind at 1. unfold ret at 1. unfold ret at 1.
  unfold bind at 1. unfold lift at 1.
  change 1%nat with (length [nll]) at 1.
  rewrite (importance_nll_eq [nll] B) by (try discriminate; repeat constructor; assumption).
  cbn [length map].
  assert (E : map (fun b => ln (Rsum [exp (nth b (data nll) 0)]) - ln (INR 1)) (seq 0 B)
              = data nll).
  { rewrite <- Hlen. apply map_seq_nth with (d := 0).
    intros o _. apply (Rsum_singleton_exp (nth o (data nll) 0)). }
  rewrite E.
  unfold bind, lift, ret. cbn [shape data tmap hd_error Nat.add].
  destruct (Nat.eqb_spec B 0) as [HB0|_]; [contradiction|].
  rewrite Rplus_0_l. reflexivity.
Qed.

(** A batch of two one-pixel images, 10 and 200, with the noise 1/4 and
    3/4, through a [Dequantization] layer. *)
Lemma test_flow_single_sample_witness :
  let flow := ImageFlow.init (pipeline_flows (1 / 100000) []) in
  let imgs := IntTensor (mkTensor [2; 1; 1; 1]%nat [10%Z; 200%Z]) in
  let g : rng := fun i => if (i =? 0)%nat then 1 / 4 else 3 / 4 in
  let bpd :=
    mkTensor [2]%nat
      (map (fun x => x * (ln (exp 1) / ln 2) / INR (numel [1; 1; 1]%nat))
         (pipeline_nll 2 1 1 1 (1 / 100000) [] (data (to_float32 imgs)) g)) in
  test_flow flow [(imgs, tt)] 1 g
  = Some (Rsum (data bpd) / INR 2, fun i => g (numel [2; 1; 1; 1] + i)%nat).
Proof.
  intros flow imgs g bpd.
  apply (test_flow_single_sample flow imgs tt g
           (fun i => g (numel [2; 1; 1; 1] + i)%nat) bpd 2).
  - apply (pipeline_forward_eq 2 1 1 1 (1 / 100000) [] imgs false g).
    + constructor.
    + reflexivity.
    + reflexivity.
  - reflexivity.
  - reflexivity.
  - discriminate.
Defined.

(** X13.  [test_flow] returns no value on degenerate arguments: with an
    empty data loader the final division is by a zero counter, and with
    [import_samples = 0] the first batch already fails, since there is
    nothing to stack. *)
Theorem test_flow_degenerate {Label : Type} (flow : ImageFlow.t)
    (data_loader : list (Tensor * Label)) (import_samples : nat) (g : rng) :
  data_loader = [] \/ import_samples = 0%nat ->
  test_flow flow data_loader import_samples g = None.
Proof.
  intros [-> | ->].
  - reflexivity.
  - destruct data_loader as [|[imgs lbl] rest]; reflexivity.
Qed.

Lemma test_flow_degenerate_witness :
  test_flow (ImageFlow.init []) (@nil (Tensor * unit)) 8 (fun _ => 0) = None.
Proof.
  apply (test_flow_degenerate (ImageFlow.init []) (@nil (Tensor * unit)) 8 (fun _ => 0)).
  left. reflexivity.
Defined.

(** * Squeeze: the other round trip, and the shapes it refuses *)

Section SqueezeReverse.

Context {A L : Type} (d : A).

Lemma squeeze_data_roundtrip_rev (B C H2 W2 : nat) (l : list A) :
  length l = numel [B; C; 2; 2; H2; W2]%nat ->
  map (fun o' => nth (ravel [B; C; H2; 2; W2; 2]%nat
                        (map (fun j => nth (index_of j [0; 1; 3; 5; 2; 4]%nat)
                                         (unravel [B; C; 2; 2; H2; W2]%nat o') 0%nat)
                           (seq 0 6)))
                   (map (fun o => nth (ravel [B; C; 2; 2; H2; W2]%nat
                                         (map (fun j => nth (index_of j [0; 1; 4; 2; 5; 3]%nat)
                                                          (unravel [B; C; H2; 2; W2; 2]%nat o) 0%nat)
                                            (seq 0 6)))
                                  l d)
                      (seq 0 (numel [B; C; H2; 2; W2; 2]%nat)))
                   d)
    (seq 0 (numel [B; C; 2; 2; H2; W2]%nat)) = l.
Proof.
  intros Hl. rewrite <- Hl. apply map_seq_nth with (d := d).
  intros o Ho. rewrite Hl in Ho.
  destruct (unravel_6 _ _ _ _ _ _ _ Ho) as (a0 & a1 & a2 & a3 & a4 & a5 & E & Hb).
  rewrite E, forward_perm_idx.
  assert (Hin : Forall2 lt [a0; a1; a4; a2; a5; a3] [B; C; H2; 2; W2; 2]%nat)
    by (apply forall2_lt_6; tauto).
  rewrite nth_map_seq by (apply ravel_lt; exact Hin).
  rewrite unravel_ravel by exact Hin.
  rewrite reverse_perm_idx, <- E.
  now rewrite ravel_unravel.
Qed.

(** X14.  On a tensor of shape [(B, 4C, H, W)], [SqueezeFlow.forward] with
    [reverse=True] returns a tensor of shape [(B, C, 2H, 2W)] in which the
    channels [4c + 2i + j] fill the element [(i, j)] of every 2x2 block of
    channel [c]; [reverse=False] applied to that output returns the input
    itself, and [ldj] is passed through. *)
Theorem squeeze_reverse_forward (z : tensor A) (ldj : L) (B C H W : nat) :
  shape z = [B; 4 * C; H; W]%nat -> wf z ->
  exists z' : tensor A,
    SqueezeFlow.forward d z ldj true = Some (z', ldj) /\
    shape z' = [B; C; 2 * H; 2 * W]%nat /\
    wf z' /\
    (forall b c i j h w : nat,
        (b < B -> c < C -> i < 2 -> j < 2 -> h < H -> w < W ->
         tget d z' [b; c; 2 * h + i; 2 * w + j] = tget d z [b; 4 * c + 2 * i + j; h; w])%nat) /\
    SqueezeFlow.forward d z' ldj false = Some (z, ldj).
Proof.
  intros Hsh Hwf.
  destruct z as [sh l]. unfold wf in Hwf. cbn [shape data] in *. subst sh.
  eexists. split; [apply squeeze_reverse_eq|].
  split; [reflexivity|].
  split; [unfold wf; cbn [shape data numel fold_right];
          rewrite length_map, length_seq; cbn [numel fold_right]; lia|].
  split.
  - intros b c i j h w Hb Hc Hi Hj Hh Hw.
    unfold tget. cbn [shape data].
    assert (Hin : Forall2 lt [b; c; h; i; w; j] [B; C; H; 2; W; 2]%nat)
      by (apply forall2_lt_6; tauto).
    replace (ravel [B; C; 2 * H; 2 * W]%nat [b; c; 2 * h + i; 2 * w + j]%nat)
      with (ravel [B; C; H; 2; W; 2]%nat [b; c; h; i; w; j])
      by (cbn [ravel numel fold_right]; ring).
    rewrite nth_map_seq by (apply ravel_lt; exact Hin).
    rewrite unravel_ravel by exact Hin.
    rewrite reverse_perm_idx. f_equal.
    cbn [ravel numel fold_right]. ring.
  - rewrite squeeze_forward_eq, squeeze_data_roundtrip_rev; [reflexivity|].
    rewrite Hwf. cbn [numel fold_right]. lia.
Qed.

(** X15.  [SqueezeFlow] refuses the shapes it cannot rearrange: on a
    non-empty tensor of shape [(B, C, H, W)], [reverse=False] fails when [H]
    or [W] is odd, and [reverse=True] fails when [C] is not a multiple
    of 4. *)
Theorem squeeze_shape_errors (z : tensor A) (ldj : L) (reverse : bool) (B C H W : nat) :
  shape z = [B; C; H; W] -> (0 < B * C * H * W)%nat ->
  (if reverse then (C mod 4 <> 0)%nat else Nat.Odd H \/ Nat.Odd W) ->
  SqueezeFlow.forward d z ldj reverse = None.
Proof.
  intros Hsh Hpos Hbad.
  assert (HB : (0 < B)%nat) by nia. assert (HC : (0 < C)%nat) by nia.
  assert (HH : (0 < H)%nat) by nia. assert (HW : (0 < W)%nat) by nia.
  pose proof (Nat.div_mod_eq H 2) as EH. pose proof (Nat.div_mod_eq W 2) as EW.
  pose proof (Nat.mod_upper_bound H 2 ltac:(lia)) as MH.
  pose proof (Nat.mod_upper_bound W 2 ltac:(lia)) as MW.
  unfold SqueezeFlow.forward. rewrite Hsh. destruct reverse; cbn [negb].
  - unfold reshape. rewrite Hsh.
    assert (Hne : numel [B; C / 4; 2; 2; H; W]%nat <> numel [B; C; H; W]).
    { cbn [numel fold_right].
      pose proof (Nat.div_mod_eq C 4) as EC.
      assert (Hlt : (C / 4 * 4 < C)%nat) by lia.
      nia. }
    apply Nat.eqb_neq in Hne. rewrite Hne. reflexivity.
  - unfold reshape. rewrite Hsh.
    assert (Hne : numel [B; C; H / 2; 2; W / 2; 2]%nat <> numel [B; C; H; W]).
    { cbn [numel fold_right].
      assert (Hlt : (H / 2 * 2 * (W / 2 * 2) < H * W)%nat).
      { destruct Hbad as [[k Hk]|[k Hk]].
        - assert (H / 2 * 2 < H)%nat by lia. nia.
        - assert (W / 2 * 2 < W)%nat by lia. nia. }
      nia. }
    apply Nat.eqb_neq in Hne. rewrite Hne. reflexivity.
Qed.

End SqueezeReverse.

Lemma squeeze_reverse_forward_witness :
  exists z' : tensor Z,
    SqueezeFlow.forward 0%Z (mkTensor [1; 4 * 1; 2; 2]%nat (map Z.of_nat (seq 0 16))) tt true
      = Some (z', tt) /\
    shape z' = [1; 1; 2 * 2; 2 * 2]%nat /\
    wf z' /\
    (forall b c i j h w : nat,
        (b < 1 -> c < 1 -> i < 2 -> j < 2 -> h < 2 -> w < 2 ->
         tget 0%Z z' [b; c; 2 * h + i; 2 * w + j] =
         tget 0%Z (mkTensor [1; 4 * 1; 2; 2]%nat (map Z.of_nat (seq 0 16)))
           [b; 4 * c + 2 * i + j; h; w])%nat) /\
    SqueezeFlow.forward 0%Z z' tt false
      = Some (mkTensor [1; 4 * 1; 2; 2]%nat (map Z.of_nat (seq 0 16)), tt).
Proof.
  apply (squeeze_reverse_forward 0%Z (mkTensor [1; 4 * 1; 2; 2]%nat (map Z.of_nat (seq 0 16)))
           tt 1 1 2 2).
  - reflexivity.
  - reflexivity.
Defined.

Lemma squeeze_shape_errors_witness :
  SqueezeFlow.forward 0%Z (mkTensor [1; 2; 3; 4]%nat (map Z.of_nat (seq 0 24))) tt false
  = None.
Proof.
  apply (squeeze_shape_errors 0%Z (mkTensor [1; 2; 3; 4]%nat (map Z.of_nat (seq 0 24)))
           tt false 1 2 3 4).
  - reflexivity.
  - cbn. lia.
  - left. exists 1%nat. reflexivity.
Defined.

(** * Split: channel counts *)

(** X16.  [SplitFlow] cuts the channels as [torch.chunk] does.  On a tensor
    with a single channel the density direction fails, for there is nothing
    to split off.  With [C <> 1] channels it keeps the first [ceil(C / 2)]
    of them, and the sampling direction then doubles that number, reading as
    many draws as the kept tensor has elements: after the two directions
    the tensor has [2 * ceil(C / 2)] channels, one more than [C] when [C] is
    odd. *)
Theorem split_channel_counts (self : SplitFlow.t) (z ldj : tensor R) (g : rng)
    (B C H W : nat) :
  wf z -> shape z = [B; C; H; W] -> shape ldj = [B] ->
  if (C =? 1)%nat then SplitFlow.forward self z ldj false g = None
  else
    exists z1 l1 z2 l2 : tensor R,
      SplitFlow.forward self z ldj false g = Some ((z1, l1), g) /\
      shape z1 = [B; ((C + 1) / 2)%nat; H; W] /\ wf z1 /\ shape l1 = [B] /\
      SplitFlow.forward self z1 l1 true g
        = Some ((z2, l2), fun i => g (numel [B; ((C + 1) / 2)%nat; H; W] + i)%nat) /\
      shape z2 = [B; (2 * ((C + 1) / 2))%nat; H; W] /\ wf z2.
Proof.
  intros Hwf Hsh Hl.
  destruct (Nat.eqb_spec C 1) as [->|HC].
  - unfold SplitFlow.forward, bind, lift. cbn [negb].
    unfold chunk2_dim1. rewrite Hsh. reflexivity.
  - set (k := ((C + 1) / 2)%nat).
    assert (Hk : (k <= C)%nat).
    { unfold k. pose proof (Nat.div_mod_eq (C + 1) 2).
      pose proof (Nat.mod_upper_bound (C + 1) 2 ltac:(lia)). lia. }
    assert (Hlen : length (data z) = (B * (C * numel [H; W]))%nat).
    { rewrite Hwf, Hsh. cbn [numel fold_right]. lia. }
    destruct (split_forward_general self B C H W z ldj g Hsh HC Hl)
      as (z1 & zs & lp & Hchunk & Hsum & Hfwd).
    assert (Hz1 : z1 = mkTensor [B; k; H; W]
                         (concat (map (firstn (k * numel [H; W]))
                                    (map (slice0 (C * numel [H; W]) (data z)) (seq 0 B))))).
    { unfold chunk2_dim1 in Hchunk. rewrite Hsh in Hchunk.
      destruct (Nat.eqb_spec C 1) as [E|_]; [contradiction|].
      injection Hchunk as <- _. reflexivity. }
    assert (Hz1wf : wf z1).
    { rewrite Hz1. unfold wf. cbn [shape data].
      rewrite (length_concat_const (k * numel [H; W])).
      - rewrite !length_map, length_seq. cbn [numel fold_right]. lia.
      - intros x Hx. apply in_map_iff in Hx as (y & <- & Hy).
        apply in_map_iff in Hy as (i & <- & Hi). apply in_seq in Hi.
        rewrite length_firstn, (slice0_length _ B) by (auto; lia). nia. }
    assert (Hz1sh : shape z1 = [B; k; H; W]) by (rewrite Hz1; reflexivity).
    exists z1. do 3 eexists.
    split; [exact Hfwd|]. split; [exact Hz1sh|]. split; [exact Hz1wf|].
    split; [reflexivity|]. split.
    { apply (split_reverse_general self B k H W); [exact Hz1sh|reflexivity]. }
    cbn [shape]. split; [f_equal; f_equal; lia|].
    unfold wf. cbn [shape data].
    rewrite (cat_dim1_length B k k (numel [H; W])).
    + cbn [numel fold_right]. lia.
    + rewrite Hz1wf, Hz1sh. cbn [numel fold_right]. lia.
    + rewrite !length_map, length_seq. cbn [numel fold_right]. lia.
Qed.

Lemma split_channel_counts_witness :
  let z := mkTensor [1; 3; 1; 1]%nat [1; 2; 3] in
  let ldj := mkTensor [1]%nat [0] in
  let g : rng := fun _ => 0 in
  if (3 =? 1)%nat then SplitFlow.forward SplitFlow.init z ldj false g = None
  else
    exists z1 l1 z2 l2 : tensor R,
      SplitFlow.forward SplitFlow.init z ldj false g = Some ((z1, l1), g) /\
      shape z1 = [1; ((3 + 1) / 2); 1; 1]%nat /\ wf z1 /\ shape l1 = [1]%nat /\
      SplitFlow.forward SplitFlow.init z1 l1 true g
        = Some ((z2, l2), fun i => g (numel [1; ((3 + 1) / 2); 1; 1]%nat + i)%nat) /\
      shape z2 = [1; (2 * ((3 + 1) / 2)); 1; 1]%nat /\ wf z2.
Proof.
  apply (split_channel_counts SplitFlow.init (mkTensor [1; 3; 1; 1]%nat [1; 2; 3])
           (mkTensor [1]%nat [0]) (fun _ => 0) 1 3 1 1).
  - reflexivity.
  - reflexivity.
  - reflexivity.
Defined.

Section ChunkOfCat.

Context {A : Type}.

Lemma slice0_cat (B C n b : nat) (la lb : list A) :
  length la = (B * (C * n))%nat -> length lb = (B * (C * n))%nat -> (b < B)%nat ->
  slice0 (2 * C * n)
    (concat (map (fun i => slice0 (C * n) la i ++ slice0 (C * n) lb i) (seq 0 B))) b
  = slice0 (C * n) la b ++ slice0 (C * n) lb b.
Proof.
  intros Hla Hlb Hb.
  rewrite slice0_concat.
  - rewrite (nth_indep _ []
               ((fun i => slice0 (C * n) la i ++ slice0 (C * n) lb i) (nth b (seq 0 B) 0%nat)))
      by (rewrite length_map, length_seq; exact Hb).
    rewrite (map_nth (fun i => slice0 (C * n) la i ++ slice0 (C * n) lb i)).
    now rewrite seq_nth.
  - intros x Hx. apply in_map_iff in Hx as (i & <- & Hi). apply in_seq in Hi.
    rewrite length_app, !(slice0_length _ B) by (auto; lia). lia.
  - now rewrite length_map, length_seq.
Qed.

Lemma chunk_fst_cat (B C n : nat) (la lb : list A) :
  length la = (B * (C * n))%nat -> length lb = (B * (C * n))%nat ->
  chunk_fst B C n
    (concat (map (fun i => slice0 (C * n) la i ++ slice0 (C * n) lb i) (seq 0 B))) = la.
Proof.
  intros Hla Hlb. unfold chunk_fst.
  transitivity (concat (map (slice0 (C * n) la) (seq 0 B))); [|now apply concat_slices].
  f_equal. apply map_ext_in. intros i Hi. apply in_seq in Hi.
  rewrite slice0_cat by (auto; lia).
  rewrite firstn_app, (slice0_length _ B) by (auto; lia).
  rewrite Nat.sub_diag, firstn_O, app_nil_r.
  apply firstn_all2. rewrite (slice0_length _ B) by (auto; lia). lia.
Qed.

Lemma chunk_snd_cat (B C n : nat) (la lb : list A) :
  length la = (B * (C * n))%nat -> length lb = (B * (C * n))%nat ->
  chunk_snd B C n
    (concat (map (fun i => slice0 (C * n) la i ++ slice0 (C * n) lb i) (seq 0 B))) = lb.
Proof.
  intros Hla Hlb. unfold chunk_snd.
  transitivity (concat (map (slice0 (C * n) lb) (seq 0 B))); [|now apply concat_slices].
  f_equal. apply map_ext_in. intros i Hi. apply in_seq in Hi.
  rewrite slice0_cat by (auto; lia).
  rewrite skipn_app, (slice0_length _ B) by (auto; lia).
  rewrite Nat.sub_diag. cbn [skipn].
  rewrite skipn_all2 by (rewrite (slice0_length _ B) by (auto; lia); lia).
  reflexivity.
Qed.

End ChunkOfCat.

(** X17.  The sampling direction of [SplitFlow] followed by its density
    direction returns the tensor and the accumulator [ldj] exactly, whatever
    was drawn: the half that is appended is the half that is split off, and
    its log-probability is subtracted, then added. *)
Theorem split_reverse_forward (self : SplitFlow.t) (z ldj : tensor R) (g : rng)
    (B C H W : nat) :
  wf z -> shape z = [B; C; H; W] -> wf ldj -> shape ldj = [B] ->
  exists (z2 l2 : tensor R) (g2 : rng),
    SplitFlow.forward self z ldj true g = Some ((z2, l2), g2) /\
    shape z2 = [B; (2 * C)%nat; H; W] /\
    SplitFlow.forward self z2 l2 false g2 = Some ((z, ldj), g2).
Proof.
  intros Hwf Hsh Hlwf Hl.
  assert (Hlen : length (data z) = (B * (C * numel [H; W]))%nat).
  { rewrite Hwf, Hsh. cbn [numel fold_right]. lia. }
  assert (Hld : length (data ldj) = B).
  { unfold wf in Hlwf. rewrite Hlwf, Hl. cbn [numel fold_right]. lia. }
  set (p := SplitFlow.prior self).
  set (S := map (fun v => loc p + scale p * v) (map g (seq 0 (numel [B; C; H; W])))).
  assert (HS : length S = (B * (C * numel [H; W]))%nat).
  { unfold S. rewrite !length_map, length_seq. cbn [numel fold_right]. lia. }
  do 3 eexists. split; [now apply (split_reverse_general self B C H W)|].
  fold p. fold S.
  replace (C + C)%nat with (2 * C)%nat by lia.
  split; [reflexivity|].
  unfold SplitFlow.forward, bind, lift, ret. cbn [negb].
  rewrite (chunk2_dim1_even _ B C [H; W]) by reflexivity.
  cbn [data]. fold p.
  rewrite chunk_fst_cat, chunk_snd_cat by assumption.
  rewrite (sum_dim123_some B C H W) by reflexivity.
  cbn [tmap data shape]. unfold tiadd.
  rewrite (inplace_batch B) by (try reflexivity; now rewrite length_map, length_seq).
  cbn [data].
  rewrite map2_minus_plus by (rewrite length_map, length_seq; lia).
  destruct z as [zsh zd], ldj as [lsh ld]. cbn [shape data] in *. now subst.
Qed.

Lemma split_reverse_forward_witness :
  exists (z2 l2 : tensor R) (g2 : rng),
    SplitFlow.forward SplitFlow.init (mkTensor [1; 1; 1; 2]%nat [1; 2]) (mkTensor [1]%nat [0])
      true (fun i => INR i) = Some ((z2, l2), g2) /\
    shape z2 = [1; (2 * 1); 1; 2]%nat /\
    SplitFlow.forward SplitFlow.init z2 l2 false g2
    = Some ((mkTensor [1; 1; 1; 2]%nat [1; 2], mkTensor [1]%nat [0]), g2).
Proof.
  apply (split_reverse_forward SplitFlow.init (mkTensor [1; 1; 1; 2]%nat [1; 2])
           (mkTensor [1]%nat [0]) (fun i => INR i) 1 1 1 2).
  - reflexivity.
  - reflexivity.
  - reflexivity.
  - reflexivity.
Defined.

(** * The simple flow *)

Lemma checkerboard_some (h w : nat) (invert : bool) :
  (Z.of_nat h + Z.of_nat w <= 2147483648)%Z ->
  create_checkerboard_mask h w invert = Some (checkerboard h w invert).
Proof. exact (checkerboard_eq h w invert). Qed.

Lemma checkerboard_binary (h w : nat) (invert : bool) :
  binary_mask (checkerboard h w invert).
Proof.
  unfold binary_mask, checkerboard. cbn [data]. apply Forall_forall. intros x Hx.
  apply in_map_iff in Hx. destruct Hx as (o & <- & _).
  destruct (INR_mod_2 (o / w + o mod w)) as [-> | ->], invert; lra.
Qed.

(** A layer built as [CouplingLayer(network, mask, c_in)] from a checkerboard
    mask fits the inputs of shape [(B, C, h, w)] with [c_in = C]. *)
Lemma checkerboard_layer_ok (network : tensor R -> tensor R) (h w : nat) (invert : bool)
    (B C Ci : nat) :
  (forall x : tensor R, wf x -> shape x = [B; (C + Ci)%nat; h; w] ->
     wf (network x) /\ shape (network x) = [B; (2 * C)%nat; h; w]) ->
  coupling_ok (CouplingLayer.init network (checkerboard h w invert) C) B C Ci h w.
Proof.
  intros Hnet.
  split; cbn [CouplingLayer.init CouplingLayer.mask CouplingLayer.network
              CouplingLayer.scaling_factor].
  - unfold wf, checkerboard. cbn [shape data numel fold_right].
    rewrite length_map, length_seq. lia.
  - cbn [checkerboard shape].
    constructor; [now left|]. constructor; [now left|].
    constructor; [now right|]. constructor; [now right|constructor].
  - apply checkerboard_binary.
  - unfold wf, zeros. cbn [shape data]. apply repeat_length.
  - cbn [zeros shape].
    constructor; [now left|].
    constructor; [right; cbn [numel fold_right]; lia|].
    constructor; [now left|]. constructor; [now left|constructor].
  - exact Hnet.
Qed.

Lemma collect_map {A B : Type} (f : A -> option B) (h : A -> B) (l : list A) :
  (forall a, In a l -> f a = Some (h a)) -> collect f l = Some (map h l).
Proof.
  induction l as [|a l IH]; intros H; cbn [collect map].
  - reflexivity.
  - rewrite (H a (or_introl eq_refl)). cbn [obind].
    rewrite IH by (intros b Hb; apply H; now right). reflexivity.
Qed.

Lemma simple_couplings_ok (net : nat -> tensor R -> tensor R) (n B Ci : nat) :
  (forall (i : nat) (x : tensor R), wf x -> shape x = [B; (1 + Ci)%nat; 28; 28]%nat ->
     wf (net i x) /\ shape (net i x) = [B; 2; 28; 28]%nat) ->
  Forall (fun L => coupling_ok L B 1 Ci 28 28) (simple_couplings net n).
Proof.
  intros Hnet. unfold simple_couplings. apply Forall_map, Forall_forall.
  intros i _. apply checkerboard_layer_ok. exact (Hnet i).
Qed.

(** What [create_simple_flow] returns. *)
Lemma create_simple_flow_eq (vardeq_net net : nat -> tensor R -> tensor R)
    (use_vardeq : bool) :
  create_simple_flow vardeq_net net use_vardeq =
  Some (ImageFlow.init
          (Dequantization.forward
             (if use_vardeq
              then VariationalDequantization.init (simple_couplings vardeq_net 1) (1 / 100000)
              else Dequantization.init (1 / 100000))
           :: map CouplingLayer_flow (simple_couplings net 8))).
Proof.
  assert (Hfit : (Z.of_nat 28 + Z.of_nat 28 <= 2147483648)%Z) by lia.
  unfold create_simple_flow.
  rewrite (collect_map _
             (fun i => CouplingLayer_flow
                         (CouplingLayer.init (net i) (checkerboard 28 28 (i mod 2 =? 1)%nat) 1))
             (seq 0 8))
    by (intros i _; now rewrite (checkerboard_some 28 28 _ Hfit)).
  destruct use_vardeq.
  - rewrite (collect_map _
               (fun i => CouplingLayer.init (vardeq_net i)
                           (checkerboard 28 28 (i mod 2 =? 1)%nat) 1)
               (seq 0 1))
      by (intros i _; now rewrite (checkerboard_some 28 28 _ Hfit)).
    cbn [obind]. unfold simple_couplings, VariationalDequantization.forward.
    now rewrite map_map.
  - cbn [obind]. unfold simple_couplings. now rewrite map_map.
Qed.

(** The density direction of [VariationalDequantization] returns a float
    tensor of the shape of the images. *)
Lemma vardeq_forward_some (B C H W : nat) (var_flows : list CouplingLayer.t) (alpha : R)
    (imgs : tensor Z) (ldj : tensor R) (g : rng) :
  Forall (fun L => coupling_ok L B C C H W) var_flows ->
  wf imgs -> shape imgs = [B; C; H; W] -> wf ldj -> shape ldj = [B] ->
  exists z1 l1 : tensor R,
    Dequantization.forward (VariationalDequantization.init var_flows alpha)
      (IntTensor imgs) ldj false g
    = Some ((FloatTensor z1, l1), fun i => g (numel [B; C; H; W] + i)%nat) /\
    wf z1 /\ shape z1 = [B; C; H; W] /\ wf l1 /\ shape l1 = [B].
Proof.
  intros HLs Hwf Hsh Hlwf Hl.
  assert (Hlen : length (data imgs) = numel [B; C; H; W]) by (rewrite <- Hsh; exact Hwf).
  destruct (vardeq_dequant_some B C H W var_flows alpha imgs ldj g HLs Hwf Hsh Hlwf Hl)
    as (n' & l' & E & Hn' & Hl'wf & Hl').
  assert (Hl'len : length (data l') = B).
  { unfold wf in Hl'wf. rewrite Hl'wf, Hl'. cbn [numel fold_right]. lia. }
  do 2 eexists. split.
  { unfold VariationalDequantization.init, Dequantization.forward.
    cbn [negb Dequantization.dequant_method Dequantization.alpha].
    unfold bind at 1. rewrite E.
    unfold bind, lift, ret.
    rewrite (sigmoid_reverse_eq B C H W) by (try reflexivity; exact Hl').
    reflexivity. }
  split.
  { unfold wf, tmap. cbn [shape data].
    rewrite !length_map, map2_length, !length_map, Hlen, Hn'. apply Nat.min_id. }
  split; [reflexivity|]. split; [|reflexivity].
  unfold wf. cbn [shape data numel fold_right].
  rewrite map2_length, length_map, batch_sums_length, Hl'len. lia.
Qed.

(** The likelihood path through a first layer that returns a float tensor of
    the shape of the images, followed by coupling layers. *)
Lemma forward_after_dequant (dq : Flow) (Ls : list CouplingLayer.t) (imgs : Tensor)
    (return_nll : bool) (g g1 : rng) (z1 l1 : tensor R) (B C H W : nat) :
  Forall (fun L => coupling_ok L B C 0 H W) Ls ->
  Tshape imgs = [B; C; H; W] ->
  dq imgs (zeros [B]) false g = Some ((FloatTensor z1, l1), g1) ->
  wf z1 -> shape z1 = [B; C; H; W] -> wf l1 -> shape l1 = [B] ->
  exists r : tensor R,
    ImageFlow.forward (ImageFlow.init (dq :: map CouplingLayer_flow Ls)) imgs return_nll g
      = Some (r, g1) /\
    shape r = [B] /\ wf r.
Proof.
  intros HLs Hsh Hdq Hwf1 Hsh1 Hlwf1 Hl1.
  assert (Hz1 : length (data z1) = numel [B; C; H; W]) by (rewrite <- Hsh1; exact Hwf1).
  assert (Hld1 : length (data l1) = B).
  { unfold wf in Hlwf1. rewrite Hlwf1, Hl1. cbn [numel fold_right]. lia. }
  destruct (run_couplings_length B C H W Ls _ _ HLs Hz1 Hld1) as [Hrz Hrl].
  unfold ImageFlow.forward, ImageFlow.init.
  cbn [ImageFlow.flows ImageFlow.prior ImageFlow.run_flows].
  rewrite Hsh. cbn [hd_error tl].
  unfold bind at 1. unfold lift at 1.
  unfold bind at 1. unfold bind at 1.
  rewrite Hdq.
  rewrite (run_flows_couplings B C H W) by assumption.
  cbn [to_float32 data shape].
  unfold bind, lift, ret.
  rewrite (sum_dim123_some B C H W) by reflexivity.
  unfold tadd.
  rewrite tbin_some;
    [|unfold wf; cbn [shape data numel fold_right]; lia|apply broadcastable_refl].
  rewrite (expand_same_shape 0 _ [B])
    by (try reflexivity; unfold wf; cbn [shape data]; rewrite length_map, length_seq;
        cbn [numel fold_right]; lia).
  cbn [shape data tmap].
  destruct return_nll; eexists; (split; [reflexivity|]);
    (split; [reflexivity|]); unfold wf, tmap; cbn [shape data numel fold_right];
    rewrite ?length_map, map2_length, length_map, length_seq, Hrl; lia.
Qed.

(** X18.  The flow that [create_simple_flow] builds, with either
    dequantization layer, has nine layers and handles every batch of
    one-channel images of 28 by 28 pixels: provided the convolutional
    networks map [(B, 1, 28, 28)] to [(B, 2, 28, 28)] (and those of the
    variational dequantization [(B, 2, 28, 28)] to itself), the likelihood
    path returns one value of bits per dimension for each image, and
    [sample] returns an integer tensor of pixel values in [[0, 255]] of the
    shape asked for. *)
Theorem create_simple_flow_runs (vardeq_net net : nat -> tensor R -> tensor R)
    (use_vardeq : bool) (imgs : tensor Z) (g : rng) (B : nat) :
  (forall (i : nat) (x : tensor R), wf x -> shape x = [B; 1; 28; 28]%nat ->
     wf (net i x) /\ shape (net i x) = [B; 2; 28; 28]%nat) ->
  (forall (i : nat) (x : tensor R), wf x -> shape x = [B; 2; 28; 28]%nat ->
     wf (vardeq_net i x) /\ shape (vardeq_net i x) = [B; 2; 28; 28]%nat) ->
  wf imgs -> shape imgs = [B; 1; 28; 28]%nat ->
  exists flow : ImageFlow.t,
    create_simple_flow vardeq_net net use_vardeq = Some flow /\
    length (ImageFlow.flows flow) = 9%nat /\
    (exists (bpd : tensor R) (g' : rng),
       ImageFlow.forward flow (IntTensor imgs) false g = Some (bpd, g') /\
       shape bpd = [B] /\ wf bpd) /\
    (exists (smp : tensor Z) (g' : rng),
       ImageFlow.sample flow [B; 1; 28; 28]%nat g = Some (IntTensor smp, g') /\
       shape smp = [B; 1; 28; 28]%nat /\ wf smp /\
       Forall (fun v => (0 <= v <= 255)%Z) (data smp)).
Proof.
  intros Hnet Hvnet Hwf Hsh.
  assert (HLs : Forall (fun L => coupling_ok L B 1 0 28 28) (simple_couplings net 8))
    by (apply simple_couplings_ok; exact Hnet).
  assert (HVs : Forall (fun L => coupling_ok L B 1 1 28 28) (simple_couplings vardeq_net 1))
    by (apply simple_couplings_ok; exact Hvnet).
  eexists. split; [apply create_simple_flow_eq|].
  split.
  { cbn [ImageFlow.init ImageFlow.flows length]. unfold simple_couplings.
    now rewrite !length_map, length_seq. }
  split.
  - assert (Hdq : exists (z1 l1 : tensor R) (g1 : rng),
               Dequantization.forward
                 (if use_vardeq
                  then VariationalDequantization.init (simple_couplings vardeq_net 1)
                         (1 / 100000)
                  else Dequantization.init (1 / 100000))
                 (IntTensor imgs) (zeros [B]) false g
               = Some ((FloatTensor z1, l1), g1) /\
               wf z1 /\ shape z1 = [B; 1; 28; 28]%nat /\ wf l1 /\ shape l1 = [B]).
    { destruct use_vardeq.
      - destruct (vardeq_forward_some B 1 28 28 (simple_couplings vardeq_net 1) (1 / 100000)
                    imgs (zeros [B]) g HVs Hwf Hsh) as (z1 & l1 & E & H1 & H2 & H3 & H4).
        + unfold wf, zeros. cbn [shape data]. apply repeat_length.
        + reflexivity.
        + exists z1, l1. eexists. split; [exact E|]. repeat split; assumption.
      - do 3 eexists. split.
        + apply (dequantization_forward_eq B 1 28 28); [exact Hsh| |reflexivity].
          unfold wf. cbn [to_float32 tmap shape data]. now rewrite length_map.
        + assert (Hlen : length (data imgs) = numel [B; 1; 28; 28]%nat)
            by (rewrite <- Hsh; exact Hwf).
          split; [|split; [reflexivity|split; [|reflexivity]]].
          * unfold wf. cbn [shape data to_float32 tmap].
            apply (dequantized_length B 1 28 28). now rewrite length_map.
          * unfold wf. cbn [shape data to_float32 tmap numel fold_right].
            rewrite (dequant_ldj_length B 1 28 28) by apply zeros_length. lia. }
    destruct Hdq as (z1 & l1 & g1 & Edq & Hwf1 & Hsh1 & Hlwf1 & Hl1).
    destruct (forward_after_dequant _ (simple_couplings net 8) (IntTensor imgs) false
                g g1 z1 l1 B 1 28 28 HLs Hsh Edq Hwf1 Hsh1 Hlwf1 Hl1) as (r & Er & Hr).
    exists r, g1. split; [exact Er|exact Hr].
  - destruct (sample_pipeline
                (if use_vardeq
                 then VariationalDequantization.init (simple_couplings vardeq_net 1)
                        (1 / 100000)
                 else Dequantization.init (1 / 100000))
                (simple_couplings net 8) g B 1 28 28 HLs) as (smp & E & Hs).
    exists smp. eexists. split; [exact E|exact Hs].
Qed.

Lemma create_simple_flow_runs_witness :
  let imgs := mkTensor [1; 1; 28; 28]%nat (repeat 0%Z 784) in
  let g : rng := fun _ => 0 in
  exists flow : ImageFlow.t,
    create_simple_flow (fun _ => identity_net) (fun _ => doubling_net) true = Some flow /\
    length (ImageFlow.flows flow) = 9%nat /\
    (exists (bpd : tensor R) (g' : rng),
       ImageFlow.forward flow (IntTensor imgs) false g = Some (bpd, g') /\
       shape bpd = [1]%nat /\ wf bpd) /\
    (exists (smp : tensor Z) (g' : rng),
       ImageFlow.sample flow [1; 1; 28; 28]%nat g = Some (IntTensor smp, g') /\
       shape smp = [1; 1; 28; 28]%nat /\ wf smp /\
       Forall (fun v => (0 <= v <= 255)%Z) (data smp)).
Proof.
  apply (create_simple_flow_runs (fun _ => identity_net) (fun _ => doubling_net) true
           (mkTensor [1; 1; 28; 28]%nat (repeat 0%Z 784)) (fun _ => 0) 1).
  - intros _ x Hwf Hsh. split; [|reflexivity].
    unfold wf, doubling_net in *. cbn [shape data].
    rewrite length_app, Hwf, Hsh. reflexivity.
  - intros _ x Hwf Hsh. split; [|reflexivity].
    unfold wf, identity_net in *. cbn [shape data].
    rewrite Hwf, Hsh. reflexivity.
  - reflexivity.
  - reflexivity.
Defined.

(** * The accumulator of the dequantization layer is a log-derivative *)

Section DequantDerivative.

Variables (alpha u : R).

Let a : R := (1 - alpha) / 256.
Let lin (v : R) : R := (v + u) / 256 * (1 - alpha) + 0.5 * alpha.

Lemma lin_derivable (v : R) : derivable_pt_lim lin v a.
Proof.
  assert (H : derivable_pt_lim (mult_real_fct a id + fct_cte (u * a + 0.5 * alpha))%F v
                (a * 1 + 0)).
  { apply derivable_pt_lim_plus.
    - apply derivable_pt_lim_scal, derivable_pt_lim_id.
    - apply derivable_pt_lim_const. }
  replace (a * 1 + 0) with a in H by lra.
  apply (derivable_pt_lim_ext _ lin _ _) in H; [exact H|].
  intros z. unfold lin, a, plus_fct, mult_real_fct, id, fct_cte. field.
Qed.

Lemma dequant_elem_derivable (v : R) :
  0 < lin v < 1 ->
  derivable_pt_lim (dequant_elem alpha u) v (dequant_elem_deriv alpha u v).
Proof.
  intros Hx.
  apply (derivable_pt_lim_ext
           (comp ln lin - comp ln (fct_cte 1 - lin))%F).
  - intros z. reflexivity.
  - replace (dequant_elem_deriv alpha u v)
      with (/ lin v * a - / (1 - lin v) * (0 - a)).
    + apply derivable_pt_lim_minus.
      * apply derivable_pt_lim_comp; [apply lin_derivable|].
        apply derivable_pt_lim_ln. lra.
      * apply derivable_pt_lim_comp.
        -- apply derivable_pt_lim_minus; [apply derivable_pt_lim_const|apply lin_derivable].
        -- apply derivable_pt_lim_ln. unfold minus_fct, fct_cte. lra.
    + unfold dequant_elem_deriv. fold (lin v). fold a. field. lra.
Qed.

Lemma dequant_elem_log_deriv (v : R) :
  0 < alpha < 1 -> 0 < lin v < 1 ->
  ln (dequant_elem_deriv alpha u v)
  = (ln (1 - alpha) - ln 256) + (- ln (lin v) - ln (1 - lin v)).
Proof.
  intros Ha Hx. unfold dequant_elem_deriv. fold (lin v).
  assert (Hp : 0 < lin v * (1 - lin v)) by (apply Rmult_lt_0_compat; lra).
  unfold Rdiv.
  rewrite ln_mult;
    [|apply Rmult_lt_0_compat; [lra|apply Rinv_0_lt_compat; lra]
     |apply Rinv_0_lt_compat; exact Hp].
  rewrite ln_mult; [|lra|apply Rinv_0_lt_compat; lra].
  rewrite !ln_Rinv by lra.
  rewrite ln_mult by lra. lra.
Qed.

End DequantDerivative.

Lemma Rsum_map_add_const {A : Type} (c : R) (h : A -> R) (l : list A) :
  Rsum (map (fun x => c + h x) l) = INR (length l) * c + Rsum (map h l).
Proof.
  induction l as [|x l IH].
  - cbn [map Rsum fold_right length INR]. lra.
  - change (Rsum (map (fun x => c + h x) (x :: l)))
      with (c + h x + Rsum (map (fun x => c + h x) l)).
    change (Rsum (map h (x :: l))) with (h x + Rsum (map h l)).
    change (length (x :: l)) with (S (length l)). rewrite S_INR, IH. lra.
Qed.

Lemma In_slice0_seq (n N b i : nat) : In i (slice0 n (seq 0 N) b) -> (i < N)%nat.
Proof. intros H. apply In_slice0 in H. apply in_seq in H. lia. Qed.

(** X19.  The density direction of [Dequantization] accounts for its change
    of variables exactly.  For pixel values in [[0, 255]], noise in [[0, 1)]
    and [0 < alpha < 1], every element of the output is the image of its
    pixel value under a differentiable map, and what the layer adds to
    [ldj] for an image is the sum, over the elements of that image, of the
    logarithms of the derivatives of that map. *)
Theorem dequantization_ldj_is_log_derivative (alpha : R) (imgs : tensor Z)
    (ldj : tensor R) (g : rng) (B C H W : nat) :
  0 < alpha < 1 ->
  wf imgs -> shape imgs = [B; C; H; W] -> wf ldj -> shape ldj = [B] ->
  Forall (fun v => (0 <= v <= 255)%Z) (data imgs) ->
  (forall i : nat, (i < numel [B; C; H; W])%nat -> 0 <= g i < 1) ->
  exists (z ldj' : tensor R) (g' : rng),
    Dequantization.forward (Dequantization.init alpha) (IntTensor imgs) ldj false g
      = Some ((FloatTensor z, ldj'), g') /\
    (forall i : nat, (i < numel [B; C; H; W])%nat ->
       nth i (data z) 0 = dequant_elem alpha (g i) (IZR (nth i (data imgs) 0%Z)) /\
       derivable_pt_lim (dequant_elem alpha (g i)) (IZR (nth i (data imgs) 0%Z))
         (dequant_elem_deriv alpha (g i) (IZR (nth i (data imgs) 0%Z)))) /\
    (forall b : nat, (b < B)%nat ->
       nth b (data ldj') 0
       = nth b (data ldj) 0
         + Rsum (slice0 (numel [C; H; W])
                   (map (fun i => ln (dequant_elem_deriv alpha (g i)
                                        (IZR (nth i (data imgs) 0%Z))))
                      (seq 0 (numel [B; C; H; W]))) b)).
Proof.
  intros Ha Hwf Hsh Hlwf Hl Hrange Hg.
  set (N := numel [B; C; H; W]) in *.
  assert (Hlen : length (data imgs) = N) by (unfold N; rewrite <- Hsh; exact Hwf).
  assert (Hld : length (data ldj) = B).
  { unfold wf in Hlwf. rewrite Hlwf, Hl. cbn [numel fold_right]. lia. }
  assert (Hunit : forall i, (i < N)%nat ->
            0 < (IZR (nth i (data imgs) 0%Z) + g i) / 256 * (1 - alpha) + 0.5 * alpha < 1).
  { intros i Hi. apply blend_unit; [exact Ha| |now apply Hg].
    assert (Hv : (0 <= nth i (data imgs) 0 <= 255)%Z).
    { rewrite Forall_forall in Hrange. apply Hrange, nth_In. lia. }
    split; apply IZR_le; lia. }
  (* the tensor before the logit, as a function of the offset *)
  assert (EX : map2 Rplus (map IZR (data imgs)) (map g (seq 0 N))
               = map (fun i => IZR (nth i (data imgs) 0%Z) + g i) (seq 0 N)).
  { rewrite <- (map2_map_seq Rplus (fun i => IZR (nth i (data imgs) 0%Z)) g N).
    f_equal. symmetry. rewrite <- Hlen, <- (length_map IZR (data imgs)).
    apply map_seq_nth with (d := 0).
    intros o Ho. rewrite length_map in Ho. symmetry. now apply nth_map_lt. }
  do 3 eexists. split.
  { apply (dequantization_forward_eq B C H W); [exact Hsh| |exact Hl].
    unfold wf. cbn [to_float32 tmap shape data]. now rewrite length_map. }
  cbn [shape data to_float32 tmap]. fold N.
  split.
  - intros i Hi. split; [|apply dequant_elem_derivable; now apply Hunit].
    unfold dequantized. fold N. rewrite EX, !map_map.
    rewrite nth_map_seq by exact Hi. reflexivity.
  - intros b Hb.
    unfold dequant_ldj. fold N. rewrite EX, !map_map.
    rewrite (map2_nth _ _ _ 0 0 0);
      [|rewrite length_map; lia|rewrite batch_sums_length; lia].
    rewrite (nth_map_lt _ _ 0) by lia.
    unfold batch_sums. rewrite nth_map_seq by exact Hb.
    change (C * (H * (W * 1)))%nat with (numel [C; H; W]).
    rewrite <- !slice0_map.
    set (S := slice0 (numel [C; H; W]) (seq 0 N) b).
    assert (HS : length S = numel [C; H; W]).
    { unfold S. apply (slice0_length _ B); [|exact Hb].
      rewrite length_seq. unfold N. cbn [numel fold_right]. lia. }
    rewrite (map_ext_in
               (fun i => ln (dequant_elem_deriv alpha (g i) (IZR (nth i (data imgs) 0%Z))))
               (fun i => (ln (1 - alpha) - ln 256)
                         + (- ln ((IZR (nth i (data imgs) 0%Z) + g i) / 256 * (1 - alpha)
                                  + 0.5 * alpha)
                            - ln (1 - ((IZR (nth i (data imgs) 0%Z) + g i) / 256 * (1 - alpha)
                                       + 0.5 * alpha)))))
      by (intros i Hi; apply dequant_elem_log_deriv;
          [exact Ha|apply Hunit; now apply (In_slice0_seq (numel [C; H; W]) N b)]).
    rewrite Rsum_map_add_const, HS. lra.
Qed.

Lemma dequantization_ldj_is_log_derivative_witness :
  let imgs := mkTensor [1; 1; 1; 2]%nat [0; 255]%Z in
  let ldj := mkTensor [1]%nat [0] in
  let g : rng := fun _ => 0 in
  exists (z ldj' : tensor R) (g' : rng),
    Dequantization.forward (Dequantization.init (1 / 100000)) (IntTensor imgs) ldj false g
      = Some ((FloatTensor z, ldj'), g') /\
    (forall i : nat, (i < numel [1; 1; 1; 2])%nat ->
       nth i (data z) 0 = dequant_elem (1 / 100000) (g i) (IZR (nth i (data imgs) 0%Z)) /\
       derivable_pt_lim (dequant_elem (1 / 100000) (g i)) (IZR (nth i (data imgs) 0%Z))
         (dequant_elem_deriv (1 / 100000) (g i) (IZR (nth i (data imgs) 0%Z)))) /\
    (forall b : nat, (b < 1)%nat ->
       nth b (data ldj') 0
       = nth b (data ldj) 0
         + Rsum (slice0 (numel [1; 1; 2]%nat)
                   (map (fun i => ln (dequant_elem_deriv (1 / 100000) (g i)
                                        (IZR (nth i (data imgs) 0%Z))))
                      (seq 0 (numel [1; 1; 1; 2]%nat))) b)).
Proof.
  apply (dequantization_ldj_is_log_derivative (1 / 100000)
           (mkTensor [1; 1; 1; 2]%nat [0; 255]%Z) (mkTensor [1]%nat [0]) (fun _ => 0) 1 1 1 2).
  - lra.
  - reflexivity.
  - reflexivity.
  - reflexivity.
  - reflexivity.
  - repeat constructor; lia.
  - intros i _. lra.
Defined.

(** * A coupling layer is affine in every element that it transforms *)

Section Update.

Context {A : Type}.

Lemma update_length (l : list A) (k : nat) (x : A) :
  (k < length l)%nat -> length (update l k x) = length l.
Proof.
  intros Hk. unfold update.
  rewrite length_app, length_firstn. cbn [length]. rewrite length_skipn. lia.
Qed.

Lemma nth_update_eq (l : list A) (k : nat) (x d : A) :
  (k < length l)%nat -> nth k (update l k x) d = x.
Proof.
  intros Hk. unfold update.
  rewrite app_nth2 by (rewrite length_firstn; lia).
  rewrite length_firstn. replace (k - Nat.min k (length l))%nat with 0%nat by lia.
  reflexivity.
Qed.

Lemma nth_update_neq (l : list A) (k j : nat) (x d : A) :
  (k < length l)%nat -> j <> k -> nth j (update l k x) d = nth j l d.
Proof.
  intros Hk Hj. unfold update.
  destruct (Nat.lt_ge_cases j k) as [Hlt|Hge].
  - rewrite app_nth1 by (rewrite length_firstn; lia).
    rewrite nth_firstn. destruct (Nat.ltb_spec j k); [reflexivity|lia].
  - rewrite app_nth2 by (rewrite length_firstn; lia).
    rewrite length_firstn. replace (Nat.min k (length l)) with k by lia.
    destruct (j - k)%nat as [|m] eqn:E; [lia|].
    cbn [nth]. rewrite nth_skipn. f_equal. lia.
Qed.

End Update.

Section CouplingAffine.

Variables (L : CouplingLayer.t) (B C Ci H W : nat) (o : option (tensor R)).
Hypothesis HL : coupling_ok L B C Ci H W.
Hypothesis Ho : orig_img_ok o B Ci H W.

(** Replacing an element that the mask does not keep leaves the input of
    the network as it is. *)
Lemma z_in_update (zd : list R) (k : nat) (x : R) :
  length zd = numel [B; C; H; W] -> (k < numel [B; C; H; W])%nat ->
  nth k (mask_x L B C H W) 0 = 0 ->
  map2 Rmult (update zd k x) (mask_x L B C H W) = map2 Rmult zd (mask_x L B C H W).
Proof.
  intros Hz Hk Hm.
  pose proof (mask_x_length L B C H W) as Hml.
  assert (Hu : length (update zd k x) = numel [B; C; H; W])
    by (rewrite update_length; lia).
  apply (nth_ext _ _ 0 0).
  - rewrite !map2_length. lia.
  - intros j Hj. rewrite map2_length in Hj.
    rewrite !(map2_nth _ _ _ 0 0 0) by lia.
    destruct (Nat.eq_dec j k) as [->|Hne].
    + rewrite Hm. lra.
    + rewrite nth_update_neq by lia. reflexivity.
Qed.

Lemma coupled_update (zd : list R) (k : nat) (x : R) :
  length zd = numel [B; C; H; W] -> (k < numel [B; C; H; W])%nat ->
  nth k (mask_x L B C H W) 0 = 0 ->
  coupled L B C Ci H W o false (update zd k x)
  = update (coupled L B C Ci H W o false zd) k
      ((x + nth k (t_of L B C Ci H W o (map2 Rmult zd (mask_x L B C H W))) 0)
       * exp (nth k (s_of L B C Ci H W o (map2 Rmult zd (mask_x L B C H W))) 0)).
Proof.
  intros Hz Hk Hm.
  assert (Hu : length (update zd k x) = numel [B; C; H; W])
    by (rewrite update_length; lia).
  pose proof (coupled_length L B C Ci H W o HL Ho false zd Hz) as Hc.
  pose proof (coupled_length L B C Ci H W o HL Ho false _ Hu) as Hcu.
  apply (nth_ext _ _ 0 0).
  - rewrite update_length; lia.
  - intros j Hj. rewrite Hcu in Hj.
    rewrite (coupled_nth L B C Ci H W o HL Ho) by assumption. cbv zeta.
    rewrite z_in_update by assumption.
    destruct (Nat.eq_dec j k) as [->|Hne].
    + rewrite !nth_update_eq by lia. reflexivity.
    + rewrite !nth_update_neq by lia.
      rewrite (coupled_nth L B C Ci H W o HL Ho) by assumption. reflexivity.
Qed.

End CouplingAffine.

(** X20.  What [CouplingLayer] adds to [ldj] is the logarithm of the
    determinant of its Jacobian.  In the density direction there is a scale
    [s] and a translation [t] such that: the layer adds to [ldj], for each
    image, the sum of [s] over that image; where the mask is 1, [s] is zero
    and the output is the input; and where the mask is 0, replacing the
    input element by any [x] changes nothing but the output element at the
    same place, which becomes [(x + t) * exp(s)]: it is affine in [x], with
    slope [exp(s)]. *)
Theorem coupling_ldj_is_log_det (L : CouplingLayer.t) (B C Ci H W : nat)
    (o : option (tensor R)) (z ldj : tensor R) :
  coupling_ok L B C Ci H W -> orig_img_ok o B Ci H W ->
  wf z -> shape z = [B; C; H; W] -> wf ldj -> shape ldj = [B] ->
  exists (z' ldj' : tensor R) (s t : list R),
    CouplingLayer.forward L z ldj false o = Some (z', ldj') /\
    (forall b : nat, (b < B)%nat ->
       nth b (data ldj') 0 = nth b (data ldj) 0 + Rsum (slice0 (numel [C; H; W]) s b)) /\
    (forall k : nat, (k < numel [B; C; H; W])%nat ->
       nth k (data (expand 0 (CouplingLayer.mask L) [B; C; H; W])) 0 = 1 ->
       nth k s 0 = 0 /\ nth k (data z') 0 = nth k (data z) 0) /\
    (forall (k : nat) (x : R), (k < numel [B; C; H; W])%nat ->
       nth k (data (expand 0 (CouplingLayer.mask L) [B; C; H; W])) 0 = 0 ->
       CouplingLayer.forward L (mkTensor [B; C; H; W] (update (data z) k x)) ldj false o
       = Some (mkTensor [B; C; H; W]
                 (update (data z') k ((x + nth k t 0) * exp (nth k s 0))),
               ldj')).
Proof.
  intros HL Ho Hwf Hsh Hlwf Hl.
  assert (Hz : length (data z) = numel [B; C; H; W]) by (rewrite <- Hsh; exact Hwf).
  assert (Hld : length (data ldj) = B).
  { unfold wf in Hlwf. rewrite Hlwf, Hl. cbn [numel fold_right]. lia. }
  pose proof (z_in_length L B C H W (data z) Hz) as Hzin.
  exists (mkTensor [B; C; H; W] (coupled L B C Ci H W o false (data z))),
         (mkTensor [B] (map2 Rplus (data ldj) (s_sums L B C Ci H W o (data z)))),
         (s_of L B C Ci H W o (map2 Rmult (data z) (mask_x L B C H W))),
         (t_of L B C Ci H W o (map2 Rmult (data z) (mask_x L B C H W))).
  split; [now apply (forward_eq L B C Ci H W o HL Ho)|].
  split; [|split].
  - intros b Hb. cbn [data].
    rewrite (map2_nth _ _ _ 0 0 0);
      [|lia|unfold s_sums; rewrite length_map, length_seq; lia].
    unfold s_sums. rewrite nth_map_seq by exact Hb. reflexivity.
  - intros k Hk Hm. fold (mask_x L B C H W) in Hm. cbn [data]. split.
    + rewrite (s_of_nth L B C Ci H W o HL Ho) by assumption. rewrite Hm. lra.
    + now apply (coupled_masked L B C Ci H W o HL Ho).
  - intros k x Hk Hm. fold (mask_x L B C H W) in Hm. cbn [data].
    assert (Hu : length (update (data z) k x) = numel [B; C; H; W])
      by (rewrite update_length; lia).
    rewrite (forward_eq L B C Ci H W o HL Ho) by (try reflexivity; assumption).
    cbn [data]. unfold s_sums.
    rewrite (z_in_update L B C H W) by assumption.
    rewrite (coupled_update L B C Ci H W o HL Ho) by assumption.
    reflexivity.
Qed.

Lemma coupling_ldj_is_log_det_witness :
  let z := mkTensor [1; 1; 1; 2]%nat [3; 5] in
  let ldj := mkTensor [1]%nat [7] in
  exists (z' ldj' : tensor R) (s t : list R),
    CouplingLayer.forward cross_layer z ldj false None = Some (z', ldj') /\
    (forall b : nat, (b < 1)%nat ->
       nth b (data ldj') 0 = nth b (data ldj) 0 + Rsum (slice0 (numel [1; 1; 2]%nat) s b)) /\
    (forall k : nat, (k < numel [1; 1; 1; 2]%nat)%nat ->
       nth k (data (expand 0 (CouplingLayer.mask cross_layer) [1; 1; 1; 2]%nat)) 0 = 1 ->
       nth k s 0 = 0 /\ nth k (data z') 0 = nth k (data z) 0) /\
    (forall (k : nat) (x : R), (k < numel [1; 1; 1; 2]%nat)%nat ->
       nth k (data (expand 0 (CouplingLayer.mask cross_layer) [1; 1; 1; 2]%nat)) 0 = 0 ->
       CouplingLayer.forward cross_layer (mkTensor [1; 1; 1; 2]%nat (update (data z) k x))
         ldj false None
       = Some (mkTensor [1; 1; 1; 2]%nat
                 (update (data z') k ((x + nth k t 0) * exp (nth k s 0))),
               ldj')).
Proof.
  apply (coupling_ldj_is_log_det cross_layer 1 1 0 1 2 None
           (mkTensor [1; 1; 1; 2]%nat [3; 5]) (mkTensor [1]%nat [7])).
  - exact cross_layer_ok.
  - reflexivity.
  - reflexivity.
  - reflexivity.
  - reflexivity.
  - reflexivity.
Defined.

(** * The fully connected network starts at zero *)

Lemma infer_dim_mul (m k : nat) : k <> 0%nat -> infer_dim (m * k) k = Some m.
Proof.
  intros Hk. unfold infer_dim.
  destruct (Nat.eqb_spec k 0); [contradiction|].
  rewrite Nat.Div0.mod_mul. cbn [Nat.eqb]. now rewrite Nat.div_mul.
Qed.

Lemma Rsum_mult_zeros (l zs : list R) :
  Forall (fun v => v = 0) zs -> Rsum (map2 Rmult l zs) = 0.
Proof.
  intros H. revert l. induction H as [|v zs Hv _ IH]; intros [|a l]; cbn; try reflexivity.
  subst v. rewrite IH. lra.
Qed.

Lemma map_const_repeat {A B : Type} (b : B) (l : list A) :
  map (fun _ => b) l = repeat b (length l).
Proof. induction l as [|a l IH]; cbn; [reflexivity|now rewrite IH]. Qed.

Lemma concat_repeat_repeat {A : Type} (a : A) (n B : nat) :
  concat (repeat (repeat a n) B) = repeat a (B * n).
Proof.
  induction B as [|B IH]; cbn [repeat concat Nat.mul]; [reflexivity|].
  now rewrite IH, repeat_app.
Qed.

Lemma Forall_repeat_zero (n : nat) : Forall (fun v : R => v = 0) (repeat 0 n).
Proof. apply Forall_forall. intros v Hv. now apply repeat_spec in Hv. Qed.

Lemma Forall_slice0 {A : Type} (P : A -> Prop) (n b : nat) (l : list A) :
  Forall P l -> Forall P (slice0 n l b).
Proof.
  rewrite !Forall_forall. intros H x Hx. apply H. exact (In_slice0 n b l x Hx).
Qed.

(** A linear layer whose weight and bias are zero returns zeros. *)
Lemma linear_zero (n_in n_out B : nat) (x : tensor R) :
  shape x = [B; n_in]%nat ->
  Linear.forward
    (Linear.mk n_in n_out (zeros [n_out; n_in]%nat) (zeros [n_out]%nat)) x
  = Some (zeros [B; n_out]%nat).
Proof.
  intros Hx. unfold Linear.forward. rewrite Hx.
  cbn [Linear.in_features Linear.out_features Linear.weight Linear.bias].
  rewrite Nat.eqb_refl. unfold zeros. cbn [data]. do 2 f_equal.
  rewrite (map_ext _ (fun _ => repeat 0 n_out)).
  - rewrite map_const_repeat, length_seq, concat_repeat_repeat.
    f_equal. cbn [numel fold_right]. lia.
  - intros b. rewrite (map_ext _ (fun _ => 0)).
    + now rewrite map_const_repeat, length_seq.
    + intros o. rewrite Rsum_mult_zeros by (apply Forall_slice0, Forall_repeat_zero).
      destruct (Nat.lt_ge_cases o (numel [n_out])) as [Ho|Ho].
      * rewrite nth_repeat_lt by exact Ho. lra.
      * rewrite nth_overflow by (rewrite repeat_length; exact Ho). lra.
Qed.

Lemma linear_shape (l : Linear.t) (x : tensor R) (B : nat) :
  shape x = [B; Linear.in_features l]%nat ->
  exists y, Linear.forward l x = Some y /\ shape y = [B; Linear.out_features l]%nat.
Proof.
  intros Hx. unfold Linear.forward. rewrite Hx, Nat.eqb_refl.
  eexists. split; reflexivity.
Qed.

(** X21.  A freshly built [LinearNet] returns zeros, whatever the weights of
    its first two layers and whatever its input: on a batch of [B > 0]
    tensors of [C] channels of [h] by [w] pixels with [C * h * w = 784], the
    output is the zero tensor of shape [(B * C, 2, h, w)]. *)
Theorem linear_net_zero_init (n_hidden : nat) (w1 b1 w2 b2 x : tensor R)
    (B C h w : nat) :
  shape x = [B; C; h; w]%nat -> (0 < B)%nat -> (C * h * w = 784)%nat ->
  LinearNet.forward (LinearNet.init n_hidden w1 b1 w2 b2) x
  = Some (zeros [B * C; 2; h; w]%nat).
Proof.
  intros Hx HB HC. unfold LinearNet.forward. rewrite Hx.
  replace (numel [B; C; h; w]) with (784 * B)%nat by (cbn [numel fold_right]; nia).
  rewrite infer_dim_mul by lia. cbn [obind].
  rewrite reshape_some by (rewrite Hx; cbn [numel fold_right]; nia). cbn [obind].
  unfold LinearNet.init. cbn [LinearNet.fc1 LinearNet.fc2 LinearNet.fc3].
  destruct (linear_shape (Linear.mk (28 * 28) n_hidden w1 b1) (mkTensor [B; 784%nat] (data x))
              B eq_refl) as [y1 [E1 S1]].
  rewrite E1. cbn [obind].
  destruct (linear_shape (Linear.mk n_hidden n_hidden w2 b2) (tmap relu y1) B S1)
    as [y2 [E2 S2]].
  rewrite E2. cbn [obind].
  rewrite (linear_zero n_hidden (28 * 28 * 2) B (tmap relu y2) S2). cbn [obind].
  unfold zeros at 1. cbn [shape].
  replace (numel [B; (28 * 28 * 2)%nat]) with ((B * C) * (2 * h * w))%nat
    by (cbn [numel fold_right]; nia).
  rewrite infer_dim_mul by nia. cbn [obind].
  rewrite reshape_some.
  - unfold zeros. cbn [data]. do 2 f_equal. apply (f_equal (repeat 0)).
    cbn [numel fold_right]. nia.
  - unfold zeros. cbn [shape numel fold_right]. nia.
Qed.

Lemma linear_net_zero_init_witness :
  LinearNet.forward
    (LinearNet.init 1 (mkTensor [1; 784]%nat (repeat 1 784)) (mkTensor [1]%nat [1])
       (mkTensor [1; 1]%nat [2]) (mkTensor [1]%nat [3]))
    (mkTensor [1; 1; 28; 28]%nat (repeat 1 784))
  = Some (zeros [1 * 1; 2; 28; 28]%nat).
Proof.
  apply linear_net_zero_init.
  - reflexivity.
  - lia.
  - reflexivity.
Defined.

(** * A coupling layer whose network returns zeros is the identity *)

Lemma Forall_firstn {A : Type} (P : A -> Prop) (n : nat) (l : list A) :
  Forall P l -> Forall P (firstn n l).
Proof.
  intros H. rewrite <- (firstn_skipn n l) in H. now apply Forall_app in H.
Qed.

Lemma Forall_skipn {A : Type} (P : A -> Prop) (n : nat) (l : list A) :
  Forall P l -> Forall P (skipn n l).
Proof.
  intros H. rewrite <- (firstn_skipn n l) in H. now apply Forall_app in H.
Qed.

Lemma Forall_chunk_fst {A : Type} (P : A -> Prop) (B C n : nat) (l : list A) :
  Forall P l -> Forall P (chunk_fst B C n l).
Proof.
  intros H. unfold chunk_fst. apply Forall_concat, Forall_map, Forall_forall.
  intros i _. now apply Forall_firstn, Forall_slice0.
Qed.

Lemma Forall_chunk_snd {A : Type} (P : A -> Prop) (B C n : nat) (l : list A) :
  Forall P l -> Forall P (chunk_snd B C n l).
Proof.
  intros H. unfold chunk_snd. apply Forall_concat, Forall_map, Forall_forall.
  intros i _. now apply Forall_skipn, Forall_slice0.
Qed.

Lemma nth_zero (l : list R) (i : nat) :
  Forall (fun v => v = 0) l -> nth i l 0 = 0.
Proof.
  intros H. destruct (Nat.lt_ge_cases i (length l)) as [Hi|Hi].
  - rewrite Forall_forall in H. apply H. now apply nth_In.
  - now apply nth_overflow.
Qed.

Lemma Rsum_zeros (l : list R) : Forall (fun v => v = 0) l -> Rsum l = 0.
Proof.
  induction 1 as [|v l Hv _ IH]; unfold Rsum in *; cbn [fold_right]; [reflexivity|].
  rewrite IH, Hv. lra.
Qed.

Lemma tanh_0 : tanh 0 = 0.
Proof. unfold tanh. rewrite sinh_0. unfold Rdiv. apply Rmult_0_l. Qed.

Lemma zero_layer_ok : coupling_ok zero_layer 1 1 0 1 2.
Proof.
  split; cbn [zero_layer CouplingLayer.mask CouplingLayer.network
              CouplingLayer.scaling_factor shape data].
  - reflexivity.
  - apply broadcastable_refl.
  - constructor; [right; reflexivity|].
    constructor; [left; reflexivity|constructor].
  - reflexivity.
  - repeat constructor.
  - intros x _ _. split; reflexivity.
Qed.

Section ZeroNetwork.

Variables (L : CouplingLayer.t) (B C Ci H W : nat) (o : option (tensor R)).
Hypothesis HL : coupling_ok L B C Ci H W.
Hypothesis Ho : orig_img_ok o B Ci H W.
Hypothesis Hzero :
  forall x : tensor R, Forall (fun v => v = 0) (data (CouplingLayer.network L x)).

Lemma s_of_zero (zd : list R) :
  length zd = numel [B; C; H; W] ->
  Forall (fun v => v = 0) (s_of L B C Ci H W o (map2 Rmult zd (mask_x L B C H W))).
Proof.
  intros Hz. apply Forall_forall. intros v Hv.
  destruct (In_nth _ _ 0 Hv) as [i [Hi E]]. subst v.
  pose proof (z_in_length L B C H W zd Hz) as Hzin.
  rewrite (s_of_length L B C Ci H W o HL Ho _ Hzin) in Hi.
  rewrite (s_of_nth L B C Ci H W o HL Ho) by assumption.
  rewrite (nth_zero (chunk_fst _ _ _ _)) by (apply Forall_chunk_fst, Hzero).
  unfold Rdiv. rewrite Rmult_0_l, tanh_0. lra.
Qed.

Lemma coupled_zero (reverse : bool) (zd : list R) :
  length zd = numel [B; C; H; W] ->
  coupled L B C Ci H W o reverse zd = zd.
Proof.
  intros Hz. apply (nth_ext _ _ 0 0).
  - now rewrite (coupled_length L B C Ci H W o HL Ho).
  - intros i Hi. rewrite (coupled_length L B C Ci H W o HL Ho) in Hi by assumption.
    pose proof (z_in_length L B C H W zd Hz) as Hzin.
    rewrite (coupled_nth L B C Ci H W o HL Ho) by assumption. cbv zeta.
    rewrite (nth_zero _ i (s_of_zero zd Hz)).
    rewrite (t_of_nth L B C Ci H W o HL Ho) by assumption.
    rewrite (nth_zero (chunk_snd _ _ _ _)) by (apply Forall_chunk_snd, Hzero).
    rewrite Ropp_0, exp_0. destruct reverse; lra.
Qed.

Lemma s_sums_zero (zd : list R) :
  length zd = numel [B; C; H; W] ->
  s_sums L B C Ci H W o zd = repeat 0 B.
Proof.
  intros Hz. unfold s_sums.
  rewrite (map_ext _ (fun _ => 0)).
  - now rewrite map_const_repeat, length_seq.
  - intros b. apply Rsum_zeros, Forall_slice0, s_of_zero, Hz.
Qed.

End ZeroNetwork.

Lemma map2_zeros_r (f : R -> R -> R) (l : list R) :
  (forall x, f x 0 = x) -> map2 f l (repeat 0 (length l)) = l.
Proof.
  intros Hf. induction l as [|a l IH]; cbn; [reflexivity|]. now rewrite Hf, IH.
Qed.

(** X22.  A coupling layer whose network returns zeros, as the networks whose
    last layer is zeroed do when they are built, is the identity in both
    directions: it returns its input tensor and leaves the log-determinant
    accumulator unchanged. *)
Theorem coupling_zero_network_identity (L : CouplingLayer.t) (B C Ci H W : nat)
    (o : option (tensor R)) (z ldj : tensor R) (reverse : bool) :
  coupling_ok L B C Ci H W -> orig_img_ok o B Ci H W ->
  (forall x : tensor R, Forall (fun v => v = 0) (data (CouplingLayer.network L x))) ->
  wf z -> shape z = [B; C; H; W] -> wf ldj -> shape ldj = [B] ->
  CouplingLayer.forward L z ldj reverse o = Some (z, ldj).
Proof.
  intros HL Ho Hzero Hwf Hsh Hwl Hshl.
  rewrite (forward_eq L B C Ci H W o HL Ho z ldj reverse Hwf Hsh Hshl).
  assert (Hz : length (data z) = numel [B; C; H; W]) by (rewrite <- Hsh; exact Hwf).
  assert (Hl : length (data ldj) = B).
  { unfold wf in Hwl. rewrite Hshl in Hwl. cbn [numel fold_right] in Hwl. lia. }
  rewrite (coupled_zero L B C Ci H W o HL Ho Hzero reverse _ Hz).
  rewrite (s_sums_zero L B C Ci H W o HL Ho Hzero _ Hz).
  replace (repeat 0 B) with (repeat 0 (length (data ldj))) by now rewrite Hl.
  rewrite map2_zeros_r by (intros x; destruct reverse; lra).
  destruct z as [sz dz], ldj as [sl dl]. cbn [shape data] in *. now subst.
Qed.

Lemma coupling_zero_network_identity_witness :
  CouplingLayer.forward zero_layer (mkTensor [1; 1; 1; 2]%nat [3; 4])
    (mkTensor [1]%nat [7]) false None
  = Some (mkTensor [1; 1; 1; 2]%nat [3; 4], mkTensor [1]%nat [7]).
Proof.
  apply (coupling_zero_network_identity zero_layer 1 1 0 1 2 None).
  - exact zero_layer_ok.
  - reflexivity.
  - intros x. apply Forall_repeat_zero.
  - reflexivity.
  - reflexivity.
  - reflexivity.
  - reflexivity.
Defined.

(** * The images of a batch are evaluated independently *)

(** ** [LinearNet] works image by image *)

Lemma linear_forward_rows (l : Linear.t) (B n : nat) (d : list R) :
  n = Linear.in_features l ->
  Linear.forward l (mkTensor [B; n]%nat d)
  = Some (mkTensor [B; Linear.out_features l]%nat
            (concat (map (fun b => linear_row l (slice0 n d b)) (seq 0 B)))).
Proof.
  intros ->. unfold Linear.forward. cbn [shape data]. now rewrite Nat.eqb_refl.
Qed.

Lemma linear_row_length (l : Linear.t) (r : list R) :
  length (linear_row l r) = Linear.out_features l.
Proof. unfold linear_row. now rewrite length_map, length_seq. Qed.

Lemma slice0_rows {A : Type} (h : nat -> list A) (m B k : nat) :
  (forall b, length (h b) = m) -> (k < B)%nat ->
  slice0 m (concat (map h (seq 0 B))) k = h k.
Proof.
  intros Hh Hk. rewrite slice0_concat.
  - rewrite (nth_indep _ [] (h 0%nat)) by (rewrite length_map, length_seq; exact Hk).
    now apply nth_map_seq.
  - intros x Hx. apply in_map_iff in Hx. destruct Hx as (b & <- & _). apply Hh.
  - rewrite length_map, length_seq. exact Hk.
Qed.

Lemma map_concat_rows {A B' : Type} (f : A -> B') (h : nat -> list A) (l : list nat) :
  map f (concat (map h l)) = concat (map (fun b => map f (h b)) l).
Proof. now rewrite concat_map, map_map. Qed.

(** On a batch of [B > 0] one-channel images of 28 by 28 pixels, [LinearNet]
    returns, for each image, the row that [linear_net_row] computes from
    that image. *)
Lemma linear_net_forward_rows (net : LinearNet.t) (n_hidden : nat) (x : tensor R)
    (B : nat) :
  linear_net_sized net n_hidden -> shape x = [B; 1; 28; 28]%nat -> (0 < B)%nat ->
  LinearNet.forward net x
  = Some (mkTensor [B; 2; 28; 28]%nat
            (concat (map (fun b => linear_net_row net (slice0 (28 * 28) (data x) b))
                       (seq 0 B)))).
Proof.
  intros (I1 & O1 & I2 & O2 & I3 & O3) Hx HB.
  unfold LinearNet.forward. rewrite Hx.
  replace (numel [B; 1; 28; 28]%nat) with ((28 * 28) * B)%nat
    by (cbn [numel fold_right]; lia).
  rewrite infer_dim_mul by lia. cbn [obind].
  rewrite reshape_some by (rewrite Hx; cbn [numel fold_right]; lia). cbn [obind].
  rewrite (linear_forward_rows (LinearNet.fc1 net)) by (symmetry; exact I1).
  cbn [obind]. unfold tmap at 1. cbn [shape data]. rewrite map_concat_rows.
  rewrite (linear_forward_rows (LinearNet.fc2 net)) by (rewrite O1; symmetry; exact I2).
  cbn [obind]. unfold tmap at 1. cbn [shape data]. rewrite map_concat_rows.
  rewrite (linear_forward_rows (LinearNet.fc3 net)) by (rewrite O2; symmetry; exact I3).
  cbn [obind shape].
  replace (numel [B; Linear.out_features (LinearNet.fc3 net)])
    with (B * (2 * 28 * 28))%nat by (rewrite O3; cbn [numel fold_right]; lia).
  rewrite infer_dim_mul by lia. cbn [obind].
  rewrite reshape_some by (cbn [shape numel fold_right]; rewrite O3; lia).
  cbn [data]. do 3 f_equal. apply map_ext_in. intros b Hb. apply in_seq in Hb.
  unfold linear_net_row. f_equal.
  rewrite (slice0_rows
             (fun b => map relu (linear_row (LinearNet.fc2 net)
                                   (slice0 (Linear.out_features (LinearNet.fc1 net))
                                      (concat (map (fun b0 => map relu
                                                      (linear_row (LinearNet.fc1 net)
                                                         (slice0 (28 * 28) (data x) b0)))
                                                 (seq 0 B))) b))))
    by (try lia; intros; now rewrite length_map, linear_row_length).
  do 2 f_equal.
  rewrite (slice0_rows
             (fun b0 => map relu (linear_row (LinearNet.fc1 net)
                                    (slice0 (28 * 28) (data x) b0))))
    by (try lia; intros; now rewrite length_map, linear_row_length).
  reflexivity.
Qed.

Lemma linear_network_shape (net : LinearNet.t) (n_hidden B : nat) (x : tensor R) :
  linear_net_sized net n_hidden -> (0 < B)%nat ->
  wf x -> shape x = [B; (1 + 0)%nat; 28; 28]%nat ->
  wf (linear_network net x) /\ shape (linear_network net x) = [B; (2 * 1)%nat; 28; 28]%nat.
Proof.
  intros Hnet HB _ Hx. unfold linear_network.
  rewrite (linear_net_forward_rows net n_hidden x B Hnet Hx HB).
  split; [|reflexivity].
  unfold wf. cbn [shape data].
  rewrite (length_concat_const (28 * 28 * 2)).
  - rewrite length_map, length_seq. cbn [numel fold_right]. lia.
  - intros r Hr. apply in_map_iff in Hr. destruct Hr as (b & <- & _).
    unfold linear_net_row. rewrite linear_row_length. apply Hnet.
Qed.

Lemma linear_layer_ok (net : LinearNet.t) (n_hidden B : nat) (invert : bool) :
  linear_net_sized net n_hidden -> (0 < B)%nat ->
  coupling_ok (CouplingLayer.init (linear_network net) (checkerboard 28 28 invert) 1)
    B 1 0 28 28.
Proof.
  intros Hnet HB. apply checkerboard_layer_ok. intros x.
  now apply (linear_network_shape net n_hidden).
Qed.

(** A coupling layer whose network is a [LinearNet] evaluates the images of a
    batch one by one. *)
Lemma linear_layer_samplewise (net : LinearNet.t) (n_hidden B : nat) (invert : bool) :
  linear_net_sized net n_hidden -> (0 < B)%nat ->
  samplewise (CouplingLayer.init (linear_network net) (checkerboard 28 28 invert) 1)
    B 1 28 28.
Proof.
  intros Hnet HB. split; [reflexivity|].
  exists (linear_net_row net). split.
  - intros r _. unfold linear_net_row. rewrite linear_row_length.
    destruct Hnet as (_ & _ & _ & _ & _ & ->). cbn [numel fold_right]. lia.
  - intros x _ Hx. cbn [CouplingLayer.init CouplingLayer.network].
    unfold linear_network.
    rewrite (linear_net_forward_rows net n_hidden x B Hnet Hx HB). cbn [data].
    replace (numel [1; 28; 28]%nat) with (28 * 28)%nat by (cbn [numel fold_right]; lia).
    reflexivity.
Qed.

Lemma summing_net_sized : linear_net_sized summing_net 1.
Proof. repeat split. Qed.

Lemma Rsum_mult_ones (r : list R) : Rsum (map2 Rmult r (repeat 1 (length r))) = Rsum r.
Proof.
  induction r as [|a r IH]; [reflexivity|].
  cbn [length repeat map2]. unfold Rsum in *. cbn [fold_right]. rewrite IH. lra.
Qed.

Lemma relu_idem (x : R) : relu (relu x) = relu x.
Proof. unfold relu, Rmax. repeat destruct (Rle_dec _ _); lra. Qed.

Lemma linear_row_ones (n : nat) (r : list R) :
  length r = n ->
  linear_row (Linear.mk n 1 (mkTensor [1; n]%nat (repeat 1 n)) (mkTensor [1]%nat [0])) r
  = [Rsum r + 0].
Proof.
  intros Hr. unfold linear_row.
  cbn [Linear.in_features Linear.out_features Linear.weight Linear.bias data seq map nth].
  replace (slice0 n (repeat 1 n) 0) with (repeat 1 (length r)); [now rewrite Rsum_mult_ones|].
  rewrite Hr. unfold slice0. cbn [Nat.mul skipn].
  symmetry. apply firstn_all2. rewrite repeat_length. lia.
Qed.

Lemma linear_row_fanout (n : nat) (b : R) :
  linear_row (Linear.mk 1 n (mkTensor [n; 1]%nat (repeat 1 n)) (zeros [n]%nat)) [b]
  = repeat (b * 1 + 0 + 0) n.
Proof.
  unfold linear_row, zeros.
  cbn [Linear.in_features Linear.out_features Linear.weight Linear.bias data].
  transitivity (map (fun _ : nat => b * 1 + 0 + 0) (seq 0 n));
    [|now rewrite map_const_repeat, length_seq].
  apply map_ext_in. intros o Ho. apply in_seq in Ho.
  rewrite (slice0_one _ 0) by (rewrite repeat_length; lia).
  rewrite nth_repeat_lt by lia. rewrite nth_repeat. reflexivity.
Qed.

(** What [summing_net] returns for an image: the sum of its elements, when
    positive, at every place of the two output channels. *)
Lemma summing_net_row (r : list R) :
  length r = (28 * 28)%nat ->
  linear_net_row summing_net r = repeat (relu (Rsum r)) (28 * 28 * 2).
Proof.
  intros Hr. unfold linear_net_row, summing_net.
  cbn [LinearNet.fc1 LinearNet.fc2 LinearNet.fc3].
  rewrite (linear_row_ones _ r Hr). cbn [map].
  change (linear_row (Linear.mk 1 1 (mkTensor [1; 1]%nat [1]) (mkTensor [1]%nat [0]))
            [relu (Rsum r + 0)])
    with [relu (Rsum r + 0) * 1 + 0 + 0].
  cbn [map]. rewrite linear_row_fanout. f_equal.
  replace (relu (Rsum r + 0) * 1 + 0 + 0) with (relu (Rsum r))
    by (replace (Rsum r + 0) with (Rsum r) by lra; lra).
  replace (relu (relu (Rsum r)) * 1 + 0 + 0) with (relu (relu (Rsum r))) by lra.
  apply relu_idem.
Qed.

(** C8.  For the pipeline of a [Dequantization] layer followed by coupling
    layers whose masks have batch dimension 1 and whose networks work image
    by image (as [LinearNet] does, see [linear_layer_samplewise]), the value
    of bits per dimension of an image depends on that image and on its noise
    only.  Permuting the images of the batch, with the noise draws permuted
    along, permutes the returned values in the same way; and a second batch
    that has the same image and the same noise at position [b], whatever its
    other images and their noise, gets the same value at position [b]. *)
Theorem bpd_batch_permutation (alpha : R) (Ls : list CouplingLayer.t) (imgs : Tensor)
    (g g' : rng) (perm : list nat) (B C H W : nat) :
  Permutation perm (seq 0 B) ->
  Forall (fun L => coupling_ok L B C 0 H W) Ls ->
  Forall (fun L => samplewise L B C H W) Ls ->
  Tshape imgs = [B; C; H; W] -> wf (to_float32 imgs) ->
  map g' (seq 0 (numel [B; C; H; W]))
    = take_batch (numel [C; H; W]) perm (map g (seq 0 (numel [B; C; H; W]))) ->
  exists bpd : tensor R,
    ImageFlow.forward
      (ImageFlow.init (Dequantization.forward (Dequantization.init alpha)
                         :: map CouplingLayer_flow Ls))
      imgs false g
    = Some (bpd, fun i => g (numel [B; C; H; W] + i)%nat) /\
    ImageFlow.forward
      (ImageFlow.init (Dequantization.forward (Dequantization.init alpha)
                         :: map CouplingLayer_flow Ls))
      (Tindex_batch imgs perm) false g'
    = Some (index_batch bpd perm, fun i => g' (numel [B; C; H; W] + i)%nat) /\
    forall (imgs2 : Tensor) (g2 : rng) (b : nat),
      (b < B)%nat -> Tshape imgs2 = [B; C; H; W] -> wf (to_float32 imgs2) ->
      slice0 (numel [C; H; W]) (data (to_float32 imgs2)) b
        = slice0 (numel [C; H; W]) (data (to_float32 imgs)) b ->
      slice0 (numel [C; H; W]) (map g2 (seq 0 (numel [B; C; H; W]))) b
        = slice0 (numel [C; H; W]) (map g (seq 0 (numel [B; C; H; W]))) b ->
      exists bpd2 : tensor R,
        ImageFlow.forward
          (ImageFlow.init (Dequantization.forward (Dequantization.init alpha)
                             :: map CouplingLayer_flow Ls))
          imgs2 false g2
        = Some (bpd2, fun i => g2 (numel [B; C; H; W] + i)%nat) /\
        nth b (data bpd2) 0 = nth b (data bpd) 0.
Proof.
  intros Hp HLs Hsw Hsh Hwf Hnoise.
  destruct (permutation_range B perm Hp) as [Hperm Hlen].
  assert (Hb : Forall (fun L => batchwise L B C H W perm) Ls).
  { apply Forall_forall. intros L HL.
    pose proof (proj1 (Forall_forall _ _) HLs L HL) as H1.
    pose proof (proj1 (Forall_forall _ _) Hsw L HL) as H2.
    now apply samplewise_batchwise. }
  assert (Hz : length (data (to_float32 imgs)) = numel [B; C; H; W]).
  { rewrite Hwf, to_float32_shape, Hsh. reflexivity. }
  assert (Edata : data (to_float32 (Tindex_batch imgs perm))
                  = take_batch (numel [C; H; W]) perm (data (to_float32 imgs))).
  { destruct imgs as [t|t]; cbn [Tindex_batch to_float32 index_batch tmap data shape Tshape] in *;
      rewrite Hsh; cbn [tl]; [symmetry; apply take_batch_map|reflexivity]. }
  assert (Eshape : Tshape (Tindex_batch imgs perm) = [B; C; H; W]).
  { destruct imgs as [t|t]; cbn [Tindex_batch Tshape index_batch shape] in *;
      now rewrite Hsh, Hlen. }
  fold (pipeline_flows alpha Ls).
  eexists. split; [|split].
  - now apply (pipeline_forward_eq B C H W).
  - rewrite (pipeline_forward_eq B C H W); [|assumption|exact Eshape|].
    + rewrite Edata.
      rewrite (pipeline_nll_take B C H W perm Hperm Hlen g g' Hnoise) by assumption.
      unfold index_batch. cbn [shape data tl numel fold_right].
      now rewrite Hlen, take_batch_map.
    + unfold wf. rewrite to_float32_shape, Eshape, Edata.
      rewrite (take_batch_length B perm Hperm) by exact Hz. now rewrite Hlen.
  - intros imgs2 g2 b Hlt Hsh2 Hwf2 Eimg Eg.
    assert (Hz2 : length (data (to_float32 imgs2)) = numel [B; C; H; W]).
    { rewrite Hwf2, to_float32_shape, Hsh2. reflexivity. }
    eexists. split; [now apply (pipeline_forward_eq B C H W)|].
    cbn [data].
    assert (Hl1 := pipeline_nll_length B C H W alpha Ls HLs _ g Hz).
    assert (Hl2 := pipeline_nll_length B C H W alpha Ls HLs _ g2 Hz2).
    rewrite !(nth_map_lt _ _ 0) by lia.
    now rewrite (pipeline_nll_independent B C H W alpha Ls HLs Hsw
                   (data (to_float32 imgs)) (data (to_float32 imgs2)) g g2 b).
Qed.

(** Two images of 28 by 28 pixels, all of value 200 and all of value 250,
    with the noise 1/4 for the first and 3/4 for the second, through the two
    coupling layers built from [summing_net], swapped. *)
Lemma bpd_batch_permutation_witness :
  let imgs :=
    IntTensor (mkTensor [2; 1; 28; 28]%nat (repeat 200%Z 784 ++ repeat 250%Z 784)) in
  let g : rng := fun i => if (i <? 784)%nat then 1 / 4 else 3 / 4 in
  let g' : rng := fun i => if (i <? 784)%nat then 3 / 4 else 1 / 4 in
  let Ls := [summing_layer false; summing_layer true] in
  exists bpd : tensor R,
    ImageFlow.forward
      (ImageFlow.init (Dequantization.forward (Dequantization.init (1 / 100000))
                         :: map CouplingLayer_flow Ls))
      imgs false g
    = Some (bpd, fun i => g (numel [2; 1; 28; 28] + i)%nat) /\
    ImageFlow.forward
      (ImageFlow.init (Dequantization.forward (Dequantization.init (1 / 100000))
                         :: map CouplingLayer_flow Ls))
      (Tindex_batch imgs [1; 0]%nat) false g'
    = Some (index_batch bpd [1; 0]%nat, fun i => g' (numel [2; 1; 28; 28] + i)%nat) /\
    forall (imgs2 : Tensor) (g2 : rng) (b : nat),
      (b < 2)%nat -> Tshape imgs2 = [2; 1; 28; 28]%nat -> wf (to_float32 imgs2) ->
      slice0 (numel [1; 28; 28]%nat) (data (to_float32 imgs2)) b
        = slice0 (numel [1; 28; 28]%nat) (data (to_float32 imgs)) b ->
      slice0 (numel [1; 28; 28]%nat) (map g2 (seq 0 (numel [2; 1; 28; 28]%nat))) b
        = slice0 (numel [1; 28; 28]%nat) (map g (seq 0 (numel [2; 1; 28; 28]%nat))) b ->
      exists bpd2 : tensor R,
        ImageFlow.forward
          (ImageFlow.init (Dequantization.forward (Dequantization.init (1 / 100000))
                             :: map CouplingLayer_flow Ls))
          imgs2 false g2
        = Some (bpd2, fun i => g2 (numel [2; 1; 28; 28] + i)%nat) /\
        nth b (data bpd2) 0 = nth b (data bpd) 0.
Proof.
  apply (bpd_batch_permutation (1 / 100000) [summing_layer false; summing_layer true]
           (IntTensor (mkTensor [2; 1; 28; 28]%nat (repeat 200%Z 784 ++ repeat 250%Z 784)))
           (fun i => if (i <? 784)%nat then 1 / 4 else 3 / 4)
           (fun i => if (i <? 784)%nat then 3 / 4 else 1 / 4) [1; 0]%nat 2 1 28 28).
  - apply perm_swap.
  - constructor; [|constructor; [|constructor]];
      apply (linear_layer_ok summing_net 1); (exact summing_net_sized || lia).
  - constructor; [|constructor; [|constructor]];
      apply (linear_layer_samplewise summing_net 1); (exact summing_net_sized || lia).
  - reflexivity.
  - reflexivity.
  - reflexivity.
Defined.

(** * Signs and magnitudes of the LU factors *)

Lemma np_sign_pm1 (x : R) :
  x <> 0 ->
  ChannelMixing.Invertible1x1ConvLU.np_sign x = 1
  \/ ChannelMixing.Invertible1x1ConvLU.np_sign x = -1.
Proof.
  intros Hx. unfold ChannelMixing.Invertible1x1ConvLU.np_sign.
  destruct (Rlt_dec x 0) as [Hneg|Hnn]; [right; reflexivity|].
  destruct (Rlt_dec 0 x) as [Hpos|Hnp]; [left; reflexivity|lra].
Qed.

(** [sign(x) * exp(log |x|)] is [x], unless [x] is zero. *)
Lemma np_sign_abs (x : R) :
  x <> 0 -> ChannelMixing.Invertible1x1ConvLU.np_sign x * exp (ln (Rabs x)) = x.
Proof.
  intros Hx. pose proof (Rabs_pos_lt x Hx) as Hpos. rewrite exp_ln by exact Hpos.
  unfold ChannelMixing.Invertible1x1ConvLU.np_sign.
  destruct (Rlt_dec x 0) as [Hneg|Hnn].
  - rewrite Rabs_left by exact Hneg. transitivity ((-1) * - x); [reflexivity|lra].
  - destruct (Rlt_dec 0 x) as [Hp|Hnp]; [|lra].
    rewrite Rabs_right by lra. transitivity (1 * x); [reflexivity|lra].
Qed.

Lemma Rabs_of_square_1 (x : R) : x * x = 1 -> Rabs x = 1.
Proof.
  intros H. unfold Rabs. destruct (Rcase_abs x); nra.
Qed.

Lemma IZR_neg2_neq_0 : - IZR 2 <> 0.
Proof. lra. Qed.

Lemma IZR_4_neq_0 : IZR 4 <> 0.
Proof. lra. Qed.

(** * The determinant of the LU-factorized channel mixing *)

Module ChannelMixingTheory.

Import HB.structures.
Import ssreflect ssrfun ssrbool eqtype ssrnat seq choice fintype bigop finfun perm.
Import fingroup ssralg matrix.
Import GRing.Theory.
Import ChannelMixing.

Local Open Scope ring_scope.

Section LUDeterminant.

Variable c : nat.

Lemma Rabs_prod (f : 'I_c -> R) : Rabs (\prod_(i < c) f i) = \prod_(i < c) Rabs (f i).
Proof.
elim/big_rec2: _ => [|i x y _ <-]; first exact: Rabs_R1.
exact: Rabs_mult.
Qed.

Lemma exp_sum (f : 'I_c -> R) : exp (\sum_(i < c) f i) = \prod_(i < c) exp (f i).
Proof.
elim/big_rec2: _ => [|i x y _ <-]; first exact: exp_0.
exact: exp_plus.
Qed.

Variables (s : 'S_c) (sign_s log_s : 'rV[R]_c) (l u : 'M[R]_c).
Hypothesis sign_pm1 : forall i, sign_s 0 i = 1 \/ sign_s 0 i = -1.

Let lower : 'M[R]_c := hadamard l tril_ones + eye.
Let upper : 'M[R]_c :=
  hadamard u tril_ones^T + torch_diag (\row_i (sign_s 0 i * exp (log_s 0 i))).

Lemma lower_trig : is_trig_mx lower.
Proof.
apply/is_trig_mxP => i j ltij; rewrite /lower /hadamard /tril_ones /eye !mxE.
by rewrite ltnNge (ltnW ltij) /= (negbTE (_ : i != j)) ?mulr0 ?addr0 // neq_ltn ltij.
Qed.

Lemma lower_diag i : lower i i = 1.
Proof. by rewrite /lower /hadamard /tril_ones /eye !mxE ltnn eqxx mulr0 add0r. Qed.

Lemma upper_trig : is_trig_mx upper^T.
Proof.
apply/is_trig_mxP => i j ltij; rewrite /upper /hadamard /tril_ones /torch_diag !mxE.
by rewrite ltnNge (ltnW ltij) /= (negbTE (_ : j != i)) ?mulr0 ?addr0 // neq_ltn ltij orbT.
Qed.

Lemma upper_diag i : upper i i = sign_s 0 i * exp (log_s 0 i).
Proof. by rewrite /upper /hadamard /tril_ones /torch_diag !mxE ltnn eqxx mulr0 add0r. Qed.

Lemma det_lower : \det lower = 1.
Proof.
rewrite (det_trig lower_trig); apply: big1 => i _; exact: lower_diag.
Qed.

Lemma det_upper : \det upper = \prod_(i < c) (sign_s 0 i * exp (log_s 0 i)).
Proof.
rewrite -det_tr (det_trig upper_trig); apply: eq_bigr => i _.
by rewrite mxE upper_diag.
Qed.

Lemma Rabs_perm_sign : Rabs ((-1) ^+ s) = 1.
Proof.
case: (odd_perm s) => /=; rewrite ?expr1 ?expr0; last exact: Rabs_R1.
by rewrite Rabs_Ropp; exact: Rabs_R1.
Qed.

Lemma Rabs_det_weight :
  Rabs (\det (perm_mx s *m (lower *m upper))) = exp (\sum_(i < c) log_s 0 i).
Proof.
rewrite !det_mulmx det_perm det_lower det_upper mul1r.
rewrite Rabs_mult Rabs_perm_sign Rabs_prod exp_sum.
rewrite [LHS]Rmult_1_l; apply: eq_bigr => i _.
rewrite Rabs_mult (Rabs_pos_eq (exp _)); first by apply: Rlt_le; exact: exp_pos.
case: (sign_pm1 i) => ->; first by rewrite Rabs_R1 [LHS]Rmult_1_l.
by rewrite Rabs_Ropp Rabs_R1 [LHS]Rmult_1_l.
Qed.

End LUDeterminant.


(** C2.  For a permutation matrix [P], any parameters [l] and [u] (masked by
    the layer to a unit lower and a strictly upper triangular matrix), signs
    in [{1, -1}] and any [log_s], the contribution [sum(log_s) * H * W] of
    [Invertible1x1ConvLU] to [ldj] is [log |det w| * H * W] for the matrix
    [w = P (L (U + diag (sign_s * exp log_s)))] that the layer rebuilds; this
    determinant is not zero, and in the forward direction the layer returns
    what [Invertible1x1Conv] returns with [w] as its weight. *)
Theorem lu_ldj_is_log_abs_det (c H W : nat) (s : 'S_c) (sign_s log_s : 'rV[R]_c)
    (l u : 'M[R]_c) :
  (forall i, sign_s 0 i = 1 \/ sign_s 0 i = -1) ->
  let self := Invertible1x1ConvLU.mk (perm_mx s) sign_s l log_s u tril_ones eye in
  (\sum_(i < c) Invertible1x1ConvLU.log_s self 0 i) * H%:R * W%:R
    = slogdet_logabs (Invertible1x1ConvLU.weight self) * H%:R * W%:R
  /\ \det (Invertible1x1ConvLU.weight self) <> 0
  /\ forall (B : nat) (z : tensor4 B c H W) (ldj : 'I_B -> R),
       Invertible1x1ConvLU.forward self z ldj false
       = Invertible1x1Conv.forward (Invertible1x1ConvLU.weight self) z ldj false.
Proof.
move=> sign_pm1 self.
have absdet : Rabs (\det (Invertible1x1ConvLU.weight self))
              = exp (\sum_(i < c) log_s 0 i).
  exact: Rabs_det_weight.
have logdet : slogdet_logabs (Invertible1x1ConvLU.weight self) = \sum_(i < c) log_s 0 i.
  by rewrite /slogdet_logabs absdet ln_exp.
split; first by rewrite logdet.
split.
  move=> det0; move: absdet; rewrite det0 Rabs_R0 => e.
  by have := exp_pos (\sum_(i < c) log_s 0 i); rewrite -e => /Rlt_irrefl.
by move=> B z ldj; rewrite /Invertible1x1ConvLU.forward /Invertible1x1Conv.forward logdet.
Qed.

Lemma example_sign_pm1 (i : 'I_2) : example_sign_s 0 i = 1 \/ example_sign_s 0 i = -1.
Proof. by rewrite mxE; case: (i == ord0); [left|right]. Qed.

(** Two channels that are swapped, with the signs [(1, -1)] and
    [log_s = (1, 2)], on images of 2 by 3 pixels: the contribution is
    [(1 + 2) * 2 * 3]. *)
Lemma lu_ldj_is_log_abs_det_witness :
  let self := Invertible1x1ConvLU.mk (perm_mx swap2) example_sign_s example_l
                example_log_s example_u tril_ones eye in
  (\sum_(i < 2) Invertible1x1ConvLU.log_s self 0 i) * 2%:R * 3%:R
    = slogdet_logabs (Invertible1x1ConvLU.weight self) * 2%:R * 3%:R
  /\ \det (Invertible1x1ConvLU.weight self) <> 0
  /\ forall (B : nat) (z : tensor4 B 2 2 3) (ldj : 'I_B -> R),
       Invertible1x1ConvLU.forward self z ldj false
       = Invertible1x1Conv.forward (Invertible1x1ConvLU.weight self) z ldj false.
Proof.
apply: (lu_ldj_is_log_abs_det 2 2 3 swap2 example_sign_s example_log_s example_l example_u).
exact: example_sign_pm1.
Defined.


(** ** Round trips of the channel mixing *)

Section ConvRoundTrip.

Variables (B c H W : nat).

Lemma conv2d_1x1_comp (z : tensor4 B c H W) (w w' : 'M[R]_c) b o h x :
  conv2d_1x1 (conv2d_1x1 z w) w' b o h x = conv2d_1x1 z (w' *m w) b o h x.
Proof.
rewrite /conv2d_1x1.
under eq_bigr => j _ do rewrite mulr_sumr.
rewrite exchange_big /=; apply: eq_bigr => i _.
rewrite mxE mulr_suml; apply: eq_bigr => j _; by rewrite mulrA.
Qed.

Lemma conv2d_1x1_id (z : tensor4 B c H W) b o h x :
  conv2d_1x1 z 1%:M b o h x = z b o h x.
Proof.
rewrite /conv2d_1x1 (bigD1 o) //= mxE eqxx mulr1n mul1r big1 ?addr0 // => i neq.
by rewrite mxE eq_sym (negbTE neq) mulr0n mul0r.
Qed.

Lemma torch_inverse_mul (w : 'M[R]_c) :
  \det w <> 0 -> exists w', torch_inverse w = Some w' /\ w' *m w = 1%:M.
Proof.
move=> dn0; rewrite /torch_inverse.
have /negbTE -> : \det w != 0 by apply/eqP.
eexists; split; first by [].
rewrite -scalemxAl mul_adj_mx scale_scalar_mx.
have -> : Rinv (\det w) * \det w = 1 by exact: Rinv_l.
by [].
Qed.

End ConvRoundTrip.

(** X23.  [Invertible1x1Conv] with a singular weight fails in the sampling
    direction, where [torch.inverse] raises; with any other weight the
    density direction followed by the sampling direction returns every
    element of the tensor and of [ldj]. *)
Theorem conv1x1_roundtrip (B c H W : nat) (weight : 'M[R]_c) (z : tensor4 B c H W)
    (ldj : 'I_B -> R) :
  if \det weight == 0 then Invertible1x1Conv.forward weight z ldj true = None
  else
    exists z1 l1 z2 l2,
      Invertible1x1Conv.forward weight z ldj false = Some (z1, l1) /\
      Invertible1x1Conv.forward weight z1 l1 true = Some (z2, l2) /\
      (forall b o h x, z2 b o h x = z b o h x) /\
      (forall b, l2 b = ldj b).
Proof.
case: (boolP (\det weight == 0)) => [d0|dn0].
  by rewrite /Invertible1x1Conv.forward /torch_inverse d0.
have [w' [inv invK]] : exists w', torch_inverse weight = Some w' /\ w' *m weight = 1%:M.
  by apply: torch_inverse_mul; apply/eqP.
do 4!eexists; split; first by [].
rewrite /Invertible1x1Conv.forward /= inv; split; first by [].
split=> [b o h x|b]; first by rewrite conv2d_1x1_comp invK conv2d_1x1_id.
by rewrite addrK.
Qed.

(** X24.  A weight with orthonormal rows, as the constructor of
    [Invertible1x1Conv] takes from a QR decomposition, has a determinant of
    absolute value 1: neither direction fails, and neither changes
    [ldj]. *)
Theorem conv1x1_orthogonal_ldj (B c H W : nat) (weight : 'M[R]_c) (z : tensor4 B c H W)
    (ldj : 'I_B -> R) (reverse : bool) :
  weight *m weight^T = 1%:M ->
  exists z' ldj',
    Invertible1x1Conv.forward weight z ldj reverse = Some (z', ldj') /\
    forall b, ldj' b = ldj b.
Proof.
move=> orth.
have det2 : \det weight * \det weight = 1.
  by have := congr1 determinant orth; rewrite det_mulmx det_tr det1.
have abs1 : Rabs (\det weight) = 1 by exact: Rabs_of_square_1.
have dn0 : \det weight <> 0.
  by move=> d0; move: abs1; rewrite d0 Rabs_R0 => /esym/R1_neq_R0.
have ldj0 : slogdet_logabs weight * H%:R * W%:R = 0.
  by rewrite /slogdet_logabs abs1 ln_1 !mul0r.
rewrite /Invertible1x1Conv.forward ldj0.
case: reverse => /=.
  have [w' [-> _]] := @torch_inverse_mul c weight dn0.
  by do 2!eexists; split=> [//|b] /=; rewrite subr0.
by do 2!eexists; split=> [//|b] /=; rewrite addr0.
Qed.

(** The weight that swaps the two channels, of determinant -1, in the
    sampling direction. *)
Lemma conv1x1_orthogonal_ldj_witness :
  exists z' ldj',
    Invertible1x1Conv.forward (perm_mx swap2) example_z example_ldj true
    = Some (z', ldj') /\
    forall b, ldj' b = example_ldj b.
Proof.
apply: (@conv1x1_orthogonal_ldj 1 2 1 1 (perm_mx swap2) example_z example_ldj true).
by rewrite tr_perm_mx -perm_mxM mulgV perm_mx1.
Defined.

(** ** The factors at construction *)

Section LUInit.

Variable c : nat.
Variables (np_p np_l np_u : 'M[R]_c).
Hypothesis l_diag : forall i, np_l i i = 1.
Hypothesis l_lower : forall i j : 'I_c, (i < j)%N -> np_l i j = 0.
Hypothesis u_upper : forall i j : 'I_c, (j < i)%N -> np_u i j = 0.
Hypothesis u_diag : forall i, np_u i i <> 0.

Let self := Invertible1x1ConvLU.init np_p np_l np_u.

Lemma init_lower :
  hadamard (Invertible1x1ConvLU.l self) (Invertible1x1ConvLU.l_mask self)
  + Invertible1x1ConvLU.eye_ self = np_l.
Proof.
apply/matrixP => i j; rewrite /self /Invertible1x1ConvLU.init /= !mxE -val_eqE /=.
case: (ltngtP j i) => [lt|gt|/val_inj eq].
- by rewrite mulr1 addr0.
- by rewrite mulr0 add0r l_lower.
- by rewrite eq mulr0 add0r l_diag.
Qed.

Lemma init_upper :
  hadamard (Invertible1x1ConvLU.u self) (Invertible1x1ConvLU.l_mask self)^T
  + torch_diag (\row_i (Invertible1x1ConvLU.sign_s self 0 i
                        * exp (Invertible1x1ConvLU.log_s self 0 i))) = np_u.
Proof.
apply/matrixP => i j; rewrite /self /Invertible1x1ConvLU.init /= !mxE -val_eqE /=.
case: (ltngtP i j) => [lt|gt|/val_inj eq].
- by rewrite mulr1 addr0.
- by rewrite mulr0 add0r u_upper.
- rewrite -eq mulr0 add0r ?mxE; exact: np_sign_abs.
Qed.

End LUInit.

(** X25.  The constructor of [Invertible1x1ConvLU] loses nothing: from
    factors [p, l, u] with [l] unit lower triangular and [u] upper
    triangular with a diagonal without zeros, as an LU decomposition
    returns them, the matrix that [forward] rebuilds from the stored
    parameters is [p l u], and the stored signs are 1 or -1. *)
Theorem lu_init_reconstructs (c : nat) (np_p np_l np_u : 'M[R]_c) :
  (forall i, np_l i i = 1) -> (forall i j : 'I_c, (i < j)%N -> np_l i j = 0) ->
  (forall i j : 'I_c, (j < i)%N -> np_u i j = 0) -> (forall i, np_u i i <> 0) ->
  let self := Invertible1x1ConvLU.init np_p np_l np_u in
  Invertible1x1ConvLU.weight self = np_p *m (np_l *m np_u) /\
  forall i, Invertible1x1ConvLU.sign_s self 0 i = 1
            \/ Invertible1x1ConvLU.sign_s self 0 i = -1.
Proof.
move=> l_diag l_lower u_upper u_diag self; split.
  by rewrite /Invertible1x1ConvLU.weight init_lower // init_upper.
by move=> i; rewrite /self /= mxE; apply: np_sign_pm1.
Qed.

Lemma lu_init_reconstructs_witness :
  let self := Invertible1x1ConvLU.init (perm_mx swap2) example_np_l example_np_u in
  Invertible1x1ConvLU.weight self = perm_mx swap2 *m (example_np_l *m example_np_u) /\
  forall i, Invertible1x1ConvLU.sign_s self 0 i = 1
            \/ Invertible1x1ConvLU.sign_s self 0 i = -1.
Proof.
apply: (@lu_init_reconstructs 2 (perm_mx swap2) example_np_l example_np_u).
- by move=> i; rewrite mxE eqxx.
- by move=> i j ltij; rewrite mxE -val_eqE (ltn_eqF ltij) ltnNge (ltnW ltij).
- by move=> i j ltji; rewrite mxE -val_eqE (gtn_eqF ltji) ltnNge (ltnW ltji).
- move=> i; rewrite mxE eqxx; case: (i == ord0).
    exact: IZR_neg2_neq_0.
  exact: IZR_4_neq_0.
Defined.

(** X26.  With a permutation matrix and signs in [{1, -1}], the matrix of
    [Invertible1x1ConvLU] is always invertible: the sampling direction never
    fails, and after the density direction it returns every element of the
    tensor and of [ldj]. *)
Theorem lu_roundtrip (B c H W : nat) (s : 'S_c) (sign_s log_s : 'rV[R]_c)
    (l u : 'M[R]_c) (z : tensor4 B c H W) (ldj : 'I_B -> R) :
  (forall i, sign_s 0 i = 1 \/ sign_s 0 i = -1) ->
  let self := Invertible1x1ConvLU.mk (perm_mx s) sign_s l log_s u tril_ones eye in
  exists z1 l1 z2 l2,
    Invertible1x1ConvLU.forward self z ldj false = Some (z1, l1) /\
    Invertible1x1ConvLU.forward self z1 l1 true = Some (z2, l2) /\
    (forall b o h x, z2 b o h x = z b o h x) /\
    (forall b, l2 b = ldj b).
Proof.
move=> sign_pm1 self.
have absdet : Rabs (\det (Invertible1x1ConvLU.weight self))
              = exp (\sum_(i < c) log_s 0 i).
  exact: Rabs_det_weight.
have dn0 : \det (Invertible1x1ConvLU.weight self) <> 0.
  move=> det0; move: absdet; rewrite det0 Rabs_R0 => e.
  by have := exp_pos (\sum_(i < c) log_s 0 i); rewrite -e => /Rlt_irrefl.
have [w' [inv invK]] := @torch_inverse_mul c _ dn0.
do 4!eexists; split; first by [].
rewrite /Invertible1x1ConvLU.forward /= inv; split; first by [].
split=> [b o h x|b]; first by rewrite conv2d_1x1_comp invK conv2d_1x1_id.
by rewrite addrK.
Qed.

Lemma lu_roundtrip_witness :
  let self := Invertible1x1ConvLU.mk (perm_mx swap2) example_sign_s example_l
                example_log_s example_u tril_ones eye in
  exists z1 l1 z2 l2,
    Invertible1x1ConvLU.forward self example_z example_ldj false = Some (z1, l1) /\
    Invertible1x1ConvLU.forward self z1 l1 true = Some (z2, l2) /\
    (forall b o h x, z2 b o h x = example_z b o h x) /\
    (forall b, l2 b = example_ldj b).
Proof.
apply: (@lu_roundtrip 1 2 1 1 swap2 example_sign_s example_log_s example_l example_u
          example_z example_ldj).
exact: example_sign_pm1.
Defined.

End ChannelMixingTheory.
